(** * A virtual POSIX-like file system ([src/harness/vfs.ts])

    The development embeds the inode graph and the path walker of the
    [vfs] namespace: inodes, buffers and [FileSystem] objects live in one
    store (the JavaScript heap), the methods of [FileSystem] are state
    transformers over that store that either return or throw, and the
    theorems at the end of the file are about those transformers. *)

From Stdlib Require Import ZArith Lia Ascii String List Bool.
From stdpp Require Import base list strings.

Open Scope string_scope.
Open Scope Z_scope.

(** ** Path algebra *)

(** Modelled from the spec: the path algebra ([vpath.parse], [format],
    [combine], [resolve], [validate] and the two string comparers) is used
    by [vfs.ts] but defined in another file.  Section 4.1 of the spec
    fixes its behaviour: [parse] yields a root component followed by names
    with trailing separators normalized away, [format] is its inverse,
    [resolve] joins and collapses [.] and [..] (clamped at the root),
    [validate] checks a path against Absolute / Relative /
    RelativeOrAbsolute and hands the text back unchanged.  Paths are
    POSIX-style: the separator is [/] and the only root is ["/"]. *)
Module vpath.

Definition is_sep (c : ascii) : bool := Ascii.eqb c "/"%char.

(** The names of a root-less path: maximal separator-free runs, empty
    runs dropped.  [cur] is the run read so far. *)
Fixpoint segments (cur : string) (s : string) : list string :=
  match s with
  | EmptyString => if String.eqb cur "" then [] else [cur]
  | String c s' =>
      if is_sep c
      then (if String.eqb cur "" then segments "" s' else cur :: segments "" s')
      else segments (cur +:+ String c "") s'
  end.

Definition isAbsolute (path : string) : bool :=
  match path with
  | String c _ => is_sep c
  | EmptyString => false
  end.

Definition parse (path : string) : list string :=
  match path with
  | String c rest => if is_sep c then "/" :: segments "" rest else "" :: segments "" path
  | EmptyString => [""]
  end.

Definition format (components : list string) : string :=
  match components with
  | [] => ""
  | root :: names => root +:+ String.concat "/" names
  end.

(** [reduce] collapses [.] and [..]; [normalized] is the output so far. *)
Fixpoint reduce_from (normalized : list string) (components : list string) : list string :=
  match components with
  | [] => normalized
  | component :: components' =>
      if String.eqb component "." then reduce_from normalized components'
      else if String.eqb component ".." then
        match normalized with
        | _ :: _ :: _ =>
            if String.eqb (List.last normalized "") ".."
            then reduce_from (normalized ++ [component]) components'
            else reduce_from (removelast normalized) components'
        | [root] =>
            if String.eqb root ""
            then reduce_from (normalized ++ [component]) components'
            else reduce_from normalized components'
        | [] => reduce_from (normalized ++ [component]) components'
        end
      else reduce_from (normalized ++ [component]) components'
  end.

Definition reduce (components : list string) : list string :=
  match components with
  | [] => []
  | root :: names => reduce_from [root] names
  end.

Definition normalize (path : string) : string := format (reduce (parse path)).

Definition hasTrailingSeparator (path : string) : bool :=
  match String.length path with
  | O => false
  | S n => match String.get n path with Some c => is_sep c | None => false end
  end.

Definition combine (path : string) (p : string) : string :=
  if isAbsolute p then p
  else if String.eqb path "" then p
  else if String.eqb p "" then path
  else if hasTrailingSeparator path then path +:+ p
  else path +:+ "/" +:+ p.

Definition resolve (path : string) (p : string) : string := normalize (combine path p).

Definition isRoot (path : string) : bool :=
  match parse path with
  | [root] => negb (String.eqb root "")
  | _ => false
  end.

Inductive ValidationFlags := Absolute | Relative | RelativeOrAbsolute.

(** [validate] returns [None] when the path does not have the required
    shape; the caller turns that into an [IOError]. *)
Definition validate (path : string) (flags : ValidationFlags) : option string :=
  match flags with
  | Absolute => if isAbsolute path then Some path else None
  | Relative => if isAbsolute path then None else Some path
  | RelativeOrAbsolute => Some path
  end.

(** [compareCaseInsensitive] folds ASCII letters before comparing. *)
Definition fold_ascii (c : ascii) : ascii :=
  let n := N_of_ascii c in
  if ((97 <=? n) && (n <=? 122))%N then ascii_of_N (n - 32) else c.

Fixpoint fold_case (s : string) : string :=
  match s with
  | EmptyString => EmptyString
  | String c s' => String (fold_ascii c) (fold_case s')
  end.

Definition compareCaseSensitive (a b : string) : comparison := String.compare a b.
Definition compareCaseInsensitive (a b : string) : comparison :=
  String.compare (fold_case a) (fold_case b).

End vpath.

(** ** Constants, errors and the resolver interface *)

Definition S_IFMT   : Z := 61440. (* 0o170000 *)
Definition S_IFSOCK : Z := 49152. (* 0o140000 *)
Definition S_IFLNK  : Z := 40960. (* 0o120000 *)
Definition S_IFREG  : Z := 32768. (* 0o100000 *)
Definition S_IFBLK  : Z := 24576. (* 0o060000 *)
Definition S_IFDIR  : Z := 16384. (* 0o040000 *)
Definition S_IFCHR  : Z := 8192.  (* 0o020000 *)
Definition S_IFIFO  : Z := 4096.  (* 0o010000 *)

(** The keys of [IOErrorMessages]. *)
Inductive Errno :=
| EACCES | EIO | ENOENT | EEXIST | ELOOP | ENOTDIR
| EISDIR | EBADF | EINVAL | ENOTEMPTY | EPERM | EROFS.

(** What a method can throw: an [IOError] with its code, a plain [Error]
    with its message, or the engine's [RangeError] when the recursion
    along a chain of shadow roots does not end. *)
Inductive Exn :=
| IOError (code : Errno)
| Error (message : string)
| RangeError.

(** [FileSystemResolver]: three synchronous, side-effect free methods.
    [statSync] returns [(mode, size)]. *)
Record FileSystemResolver := {
  r_statSync : string -> Z * Z;
  r_readdirSync : string -> list string;
  r_readFileSync : string -> list Byte.byte
}.

(** ** The heap *)

(** An inode object is named by its address in the store. *)
Definition addr := nat.

(** A Node [Buffer] is a view on a backing store: [Buffer.prototype.slice]
    makes a new view on the same store, it does not copy the bytes. *)
Record Buffer := { bstore : nat; boffset : nat; byteLength : nat }.

(** Modelled from the spec: [core.SortedMap] (section 4.2), a map from
    names to inodes kept in the order of the comparer it was created
    with.  Keys that compare equal are the same key; [set] on a present
    key keeps the stored key and replaces the value. *)
Module SortedMap.

Record t := mk { caseInsensitive : bool; entries : list (string * addr) }.

Definition comparer (ic : bool) : string -> string -> comparison :=
  if ic then vpath.compareCaseInsensitive else vpath.compareCaseSensitive.

Definition empty (ic : bool) : t := mk ic [].

Fixpoint get_from (cmp : string -> string -> comparison) (key : string)
         (l : list (string * addr)) : option addr :=
  match l with
  | [] => None
  | (k, v) :: l' => match cmp key k with Eq => Some v | _ => get_from cmp key l' end
  end.

Fixpoint set_in (cmp : string -> string -> comparison) (key : string) (value : addr)
         (l : list (string * addr)) : list (string * addr) :=
  match l with
  | [] => [(key, value)]
  | (k, v) :: l' =>
      match cmp key k with
      | Eq => (k, value) :: l'
      | Lt => (key, value) :: l
      | Gt => (k, v) :: set_in cmp key value l'
      end
  end.

(** A sorted map holds at most one entry per key, so dropping every
    entry that compares equal drops that entry. *)
Fixpoint delete_in (cmp : string -> string -> comparison) (key : string)
         (l : list (string * addr)) : list (string * addr) :=
  match l with
  | [] => []
  | (k, v) :: l' =>
      match cmp key k with
      | Eq => delete_in cmp key l'
      | _ => (k, v) :: delete_in cmp key l'
      end
  end.

Definition get (key : string) (m : t) : option addr :=
  get_from (comparer (caseInsensitive m)) key (entries m).
Definition set (key : string) (value : addr) (m : t) : t :=
  mk (caseInsensitive m) (set_in (comparer (caseInsensitive m)) key value (entries m)).
Definition delete (key : string) (m : t) : t :=
  mk (caseInsensitive m) (delete_in (comparer (caseInsensitive m)) key (entries m)).
Definition size (m : t) : nat := List.length (entries m).
Definition keys (m : t) : list string := List.map fst (entries m).

End SortedMap.

(** [Inode]: the three interfaces [FileInode], [DirectoryInode] and
    [SymlinkInode] are one object shape with optional fields; the [meta]
    field is not modelled. *)
Module Inode.

Record t := mk {
  dev : Z; ino : Z; mode : Z;
  atimeMs : Z; mtimeMs : Z; ctimeMs : Z; birthtimeMs : Z;
  nlink : Z;
  size : option Z;
  buffer : option Buffer;
  source : option string;
  resolver : option FileSystemResolver;
  links : option SortedMap.t;
  symlink : option string;
  shadowRoot : option addr
}.

Definition set_mtimeMs (v : Z) (i : t) : t :=
  mk (dev i) (ino i) (mode i) (atimeMs i) v (ctimeMs i) (birthtimeMs i) (nlink i)
     (size i) (buffer i) (source i) (resolver i) (links i) (symlink i) (shadowRoot i).
Definition set_ctimeMs (v : Z) (i : t) : t :=
  mk (dev i) (ino i) (mode i) (atimeMs i) (mtimeMs i) v (birthtimeMs i) (nlink i)
     (size i) (buffer i) (source i) (resolver i) (links i) (symlink i) (shadowRoot i).
Definition set_nlink (v : Z) (i : t) : t :=
  mk (dev i) (ino i) (mode i) (atimeMs i) (mtimeMs i) (ctimeMs i) (birthtimeMs i) v
     (size i) (buffer i) (source i) (resolver i) (links i) (symlink i) (shadowRoot i).
Definition set_size (v : option Z) (i : t) : t :=
  mk (dev i) (ino i) (mode i) (atimeMs i) (mtimeMs i) (ctimeMs i) (birthtimeMs i) (nlink i)
     v (buffer i) (source i) (resolver i) (links i) (symlink i) (shadowRoot i).
Definition set_buffer (v : option Buffer) (i : t) : t :=
  mk (dev i) (ino i) (mode i) (atimeMs i) (mtimeMs i) (ctimeMs i) (birthtimeMs i) (nlink i)
     (size i) v (source i) (resolver i) (links i) (symlink i) (shadowRoot i).
Definition set_source (v : option string) (i : t) : t :=
  mk (dev i) (ino i) (mode i) (atimeMs i) (mtimeMs i) (ctimeMs i) (birthtimeMs i) (nlink i)
     (size i) (buffer i) v (resolver i) (links i) (symlink i) (shadowRoot i).
Definition set_resolver (v : option FileSystemResolver) (i : t) : t :=
  mk (dev i) (ino i) (mode i) (atimeMs i) (mtimeMs i) (ctimeMs i) (birthtimeMs i) (nlink i)
     (size i) (buffer i) (source i) v (links i) (symlink i) (shadowRoot i).
Definition set_links (v : option SortedMap.t) (i : t) : t :=
  mk (dev i) (ino i) (mode i) (atimeMs i) (mtimeMs i) (ctimeMs i) (birthtimeMs i) (nlink i)
     (size i) (buffer i) (source i) (resolver i) v (symlink i) (shadowRoot i).
Definition set_symlink (v : option string) (i : t) : t :=
  mk (dev i) (ino i) (mode i) (atimeMs i) (mtimeMs i) (ctimeMs i) (birthtimeMs i) (nlink i)
     (size i) (buffer i) (source i) (resolver i) (links i) v (shadowRoot i).

(** What a read through a dangling reference yields; live references
    never dangle. *)
Definition blank : t :=
  mk 0 0 0 0 0 0 0 0 None None None None None None None.

End Inode.

(** [FileSystem]: [lazy_links] and [lazy_shadows] are the two fields of
    the [_lazy] object ([_lazy.meta] is not modelled); [frozen] records
    [Object.freeze(this)].  The clock [_time] is a number, [-1] meaning
    the wall clock. *)
Module FileSystem.

Record t := mk {
  ignoreCase : bool;
  lazy_links : option SortedMap.t;
  lazy_shadows : option (list (Z * addr));
  _cwd : string;
  _time : Z;
  _shadowRoot : option nat;
  _dirStack : option (list string);
  frozen : bool
}.

Definition set_lazy_links (v : option SortedMap.t) (f : t) : t :=
  mk (ignoreCase f) v (lazy_shadows f) (_cwd f) (_time f) (_shadowRoot f) (_dirStack f) (frozen f).
Definition set_lazy_shadows (v : option (list (Z * addr))) (f : t) : t :=
  mk (ignoreCase f) (lazy_links f) v (_cwd f) (_time f) (_shadowRoot f) (_dirStack f) (frozen f).
Definition set_cwd (v : string) (f : t) : t :=
  mk (ignoreCase f) (lazy_links f) (lazy_shadows f) v (_time f) (_shadowRoot f) (_dirStack f) (frozen f).
Definition set_time (v : Z) (f : t) : t :=
  mk (ignoreCase f) (lazy_links f) (lazy_shadows f) (_cwd f) v (_shadowRoot f) (_dirStack f) (frozen f).
Definition set_shadowRoot (v : option nat) (f : t) : t :=
  mk (ignoreCase f) (lazy_links f) (lazy_shadows f) (_cwd f) (_time f) v (_dirStack f) (frozen f).
Definition set_dirStack (v : option (list string)) (f : t) : t :=
  mk (ignoreCase f) (lazy_links f) (lazy_shadows f) (_cwd f) (_time f) (_shadowRoot f) v (frozen f).
Definition set_frozen (v : bool) (f : t) : t :=
  mk (ignoreCase f) (lazy_links f) (lazy_shadows f) (_cwd f) (_time f) (_shadowRoot f) (_dirStack f) v.

Definition blank : t := mk false None None "" (-1) None None false.

End FileSystem.

(** The store: every [FileSystem] object, every inode object, every
    buffer backing store, the two module-level counters and the wall
    clock read by [Date.now()]. *)
Record World := {
  fileSystems : list FileSystem.t;
  inodes : list Inode.t;
  stores : list (list Byte.byte);
  devCount : Z;
  inoCount : Z;
  now : Z
}.

Definition emptyWorld (now : Z) : World :=
  {| fileSystems := []; inodes := []; stores := []; devCount := 0; inoCount := 0; now := now |}.

Definition fs_at (w : World) (fs : nat) : FileSystem.t :=
  List.nth fs (fileSystems w) FileSystem.blank.
Definition inode_at (w : World) (a : addr) : Inode.t :=
  List.nth a (inodes w) Inode.blank.
Definition store_at (w : World) (s : nat) : list Byte.byte :=
  List.nth s (stores w) [].

Definition with_fileSystems (l : list FileSystem.t) (w : World) : World :=
  {| fileSystems := l; inodes := inodes w; stores := stores w;
     devCount := devCount w; inoCount := inoCount w; now := now w |}.
Definition with_inodes (l : list Inode.t) (w : World) : World :=
  {| fileSystems := fileSystems w; inodes := l; stores := stores w;
     devCount := devCount w; inoCount := inoCount w; now := now w |}.
Definition with_stores (l : list (list Byte.byte)) (w : World) : World :=
  {| fileSystems := fileSystems w; inodes := inodes w; stores := l;
     devCount := devCount w; inoCount := inoCount w; now := now w |}.
Definition with_devCount (v : Z) (w : World) : World :=
  {| fileSystems := fileSystems w; inodes := inodes w; stores := stores w;
     devCount := v; inoCount := inoCount w; now := now w |}.
Definition with_inoCount (v : Z) (w : World) : World :=
  {| fileSystems := fileSystems w; inodes := inodes w; stores := stores w;
     devCount := devCount w; inoCount := v; now := now w |}.

(** The bytes seen through a buffer, and an indexed write [buf[i] = v]
    by whoever holds the buffer. *)
Definition buffer_bytes (w : World) (b : Buffer) : list Byte.byte :=
  take (byteLength b) (drop (boffset b) (store_at w (bstore b))).

Definition buffer_write (b : Buffer) (i : nat) (v : Byte.byte) (w : World) : World :=
  if (i <? byteLength b)%nat
  then with_stores (<[bstore b := <[(boffset b + i)%nat := v]> (store_at w (bstore b))]> (stores w)) w
  else w.

(** ** Computations that return or throw *)

Inductive Result (A : Type) :=
| Ok (a : A)
| Throw (e : Exn).
Arguments Ok {A} a.
Arguments Throw {A} e.

Definition M (A : Type) : Type := World -> Result A * World.

Definition ret {A} (a : A) : M A := fun w => (Ok a, w).
Definition throw {A} (e : Exn) : M A := fun w => (Throw e, w).
Definition bind {A B} (c : M A) (k : A -> M B) : M B :=
  fun w => match c w with
           | (Ok a, w') => k a w'
           | (Throw e, w') => (Throw e, w')
           end.
Definition gets {A} (f : World -> A) : M A := fun w => (Ok (f w), w).
Definition modify (f : World -> World) : M unit := fun w => (Ok tt, f w).

Declare Scope vfs_scope.
Delimit Scope vfs_scope with vfs.
Notation "x <- c1 ;; c2" := (bind c1 (fun x => c2))
  (at level 100, c1 at next level, right associativity) : vfs_scope.
Notation "c1 ;; c2" := (bind c1 (fun _ => c2))
  (at level 100, right associativity) : vfs_scope.
Open Scope vfs_scope.

Definition getFS (fs : nat) : M FileSystem.t := gets (fun w => fs_at w fs).
(** [updFS fs f w]: the store after the fields of file system [fs] were
    assigned as [f] says; [updInode] likewise for an inode. *)
Definition updFS (fs : nat) (f : FileSystem.t -> FileSystem.t) (w : World) : World :=
  with_fileSystems (<[fs := f (fs_at w fs)]> (fileSystems w)) w.
Definition updInode (a : addr) (f : Inode.t -> Inode.t) (w : World) : World :=
  with_inodes (<[a := f (inode_at w a)]> (inodes w)) w.

Definition modFS (fs : nat) (f : FileSystem.t -> FileSystem.t) : M unit :=
  modify (updFS fs f).
Definition getInode (a : addr) : M Inode.t := gets (fun w => inode_at w a).
Definition modInode (a : addr) (f : Inode.t -> Inode.t) : M unit :=
  modify (updInode a f).

(** Object creation: the new object gets the next free address. *)
Definition allocInode (i : Inode.t) : M addr :=
  fun w => (Ok (List.length (inodes w)), with_inodes (inodes w ++ [i]) w).
Definition allocFS (f : FileSystem.t) : M nat :=
  fun w => (Ok (List.length (fileSystems w)), with_fileSystems (fileSystems w ++ [f]) w).
Definition allocBuffer (bytes : list Byte.byte) : M Buffer :=
  fun w => (Ok {| bstore := List.length (stores w); boffset := 0; byteLength := List.length bytes |},
            with_stores (stores w ++ [bytes]) w).

(** ** Inode predicates and references to name maps *)

(** [x !== undefined] *)
Definition defined {A} (o : option A) : bool :=
  match o with
  | Some _ => true
  | None => false
  end.

Definition isFile (node : option Inode.t) : bool :=
  match node with
  | Some i => Z.land (Inode.mode i) S_IFMT =? S_IFREG
  | None => false
  end.

Definition isDirectory (node : option Inode.t) : bool :=
  match node with
  | Some i => Z.land (Inode.mode i) S_IFMT =? S_IFDIR
  | None => false
  end.

Definition isSymlink (node : option Inode.t) : bool :=
  match node with
  | Some i => Z.land (Inode.mode i) S_IFMT =? S_IFLNK
  | None => false
  end.

(** The object behind an optional reference. *)
Definition deref (w : World) (node : option addr) : option Inode.t :=
  match node with
  | Some a => Some (inode_at w a)
  | None => None
  end.

(** A [SortedMap] object is created for one slot and stays there: the
    [_lazy.links] of a file system or the [links] of a directory inode.
    A reference to the map is the name of its slot. *)
Inductive LinksRef :=
| RootLinks (fs : nat)
| NodeLinks (node : addr).

Definition links_of (w : World) (r : LinksRef) : option SortedMap.t :=
  match r with
  | RootLinks fs => FileSystem.lazy_links (fs_at w fs)
  | NodeLinks a => Inode.links (inode_at w a)
  end.

Definition links_get (r : LinksRef) (key : string) : M (option addr) :=
  gets (fun w => match links_of w r with
                 | Some m => SortedMap.get key m
                 | None => None
                 end).

Definition links_update (r : LinksRef) (f : SortedMap.t -> SortedMap.t) : M unit :=
  match r with
  | RootLinks fs =>
      modFS fs (fun x => FileSystem.set_lazy_links (option_map f (FileSystem.lazy_links x)) x)
  | NodeLinks a =>
      modInode a (fun i => Inode.set_links (option_map f (Inode.links i)) i)
  end.

Definition links_set (r : LinksRef) (key : string) (value : addr) : M unit :=
  links_update r (SortedMap.set key value).
Definition links_delete (r : LinksRef) (key : string) : M unit :=
  links_update r (SortedMap.delete key).
Definition links_size (r : LinksRef) : M nat :=
  gets (fun w => match links_of w r with Some m => SortedMap.size m | None => O end).
Definition links_entries (r : LinksRef) : M (list (string * addr)) :=
  gets (fun w => match links_of w r with Some m => SortedMap.entries m | None => [] end).

Record WalkResult := {
  realpath : string;
  basename : string;
  parent : option addr;
  links : LinksRef;
  node : option addr
}.

Record Stats := {
  st_dev : Z; st_ino : Z; st_mode : Z; st_nlink : Z;
  st_uid : Z; st_gid : Z; st_rdev : Z; st_size : Z;
  st_blksize : Z; st_blocks : Z;
  st_atimeMs : Z; st_mtimeMs : Z; st_ctimeMs : Z; st_birthtimeMs : Z
}.

Definition st_isFile (s : Stats) : bool := Z.land (st_mode s) S_IFMT =? S_IFREG.
Definition st_isDirectory (s : Stats) : bool := Z.land (st_mode s) S_IFMT =? S_IFDIR.
Definition st_isSymbolicLink (s : Stats) : bool := Z.land (st_mode s) S_IFMT =? S_IFLNK.

(** JavaScript truthiness of an optional string. *)
Definition truthy (s : option string) : option string :=
  match s with
  | Some x => if String.eqb x "" then None else Some x
  | None => None
  end.

(** ** Private methods of [FileSystem] *)

Definition isReadonly (fs : nat) : M bool := gets (fun w => FileSystem.frozen (fs_at w fs)).

Definition makeReadonly (fs : nat) : M unit := modFS fs (FileSystem.set_frozen true).

(** [time(value?)]: the clock read, and set when [value] is given. *)
Definition time (fs : nat) (value : option Z) : M Z :=
  f <- getFS fs ;;
  if defined value && FileSystem.frozen f then throw (IOError EPERM)
  else
    wall <- gets now ;;
    let result := if FileSystem._time f =? -1 then wall else FileSystem._time f in
    match value with
    | Some v => modFS fs (FileSystem.set_time v)
    | None => ret tt
    end ;;
    ret result.

(** An omitted [time] argument defaults to [this.time()]. *)
Definition time_or_now (fs : nat) (t : option Z) : M Z :=
  match t with
  | Some v => ret v
  | None => time fs None
  end.

Definition _mknod (fs : nat) (dev type mode : Z) (t : option Z) : M addr :=
  tm <- time_or_now fs t ;;
  modify (fun w => with_inoCount (inoCount w + 1) w) ;;
  ino <- gets inoCount ;;
  allocInode
    (Inode.mk dev ino
       (Z.lor (Z.land (Z.land (Z.land mode (Z.lnot S_IFMT)) (Z.lnot 18)) 4095)
              (Z.land type S_IFMT))
       tm tm tm tm 0 None None None None None None None).

Definition _addLink (fs : nat) (parent : option addr) (links : LinksRef)
           (name : string) (node : addr) (t : option Z) : M unit :=
  tm <- time_or_now fs t ;;
  links_set links name node ;;
  modInode node (fun i => Inode.set_nlink (Inode.nlink i + 1) i) ;;
  modInode node (Inode.set_ctimeMs tm) ;;
  match parent with
  | Some p => modInode p (Inode.set_mtimeMs tm)
  | None => ret tt
  end ;;
  f <- getFS fs ;;
  if negb (defined parent) && String.eqb (FileSystem._cwd f) ""
  then modFS fs (FileSystem.set_cwd name)
  else ret tt.

Definition _removeLink (fs : nat) (parent : option addr) (links : LinksRef)
           (name : string) (node : addr) (t : option Z) : M unit :=
  tm <- time_or_now fs t ;;
  links_delete links name ;;
  modInode node (fun i => Inode.set_nlink (Inode.nlink i - 1) i) ;;
  modInode node (Inode.set_ctimeMs tm) ;;
  match parent with
  | Some p => modInode p (Inode.set_mtimeMs tm)
  | None => ret tt
  end.

Definition _replaceLink (fs : nat) (oldParent : addr) (oldLinks : LinksRef) (oldName : string)
           (newParent : addr) (newLinks : LinksRef) (newName : string)
           (node : addr) (tm : Z) : M unit :=
  if negb (Nat.eqb oldParent newParent) then
    _removeLink fs (Some oldParent) oldLinks oldName node (Some tm) ;;
    _addLink fs (Some newParent) newLinks newName node (Some tm)
  else
    links_delete oldLinks oldName ;;
    links_set oldLinks newName node ;;
    modInode oldParent (Inode.set_mtimeMs tm) ;;
    modInode newParent (Inode.set_mtimeMs tm).

(** [Map.prototype.get] on [_lazy.shadows]. *)
Fixpoint shadows_get (key : Z) (l : list (Z * addr)) : option addr :=
  match l with
  | [] => None
  | (k, v) :: l' => if k =? key then Some v else shadows_get key l'
  end.

Definition _getShadow (fs : nat) (root : addr) : M addr :=
  f <- getFS fs ;;
  match FileSystem.lazy_shadows f with
  | Some _ => ret tt
  | None => modFS fs (FileSystem.set_lazy_shadows (Some []))
  end ;;
  f <- getFS fs ;;
  let shadows := default [] (FileSystem.lazy_shadows f) in
  r <- getInode root ;;
  match shadows_get (Inode.ino r) shadows with
  | Some shadow => ret shadow
  | None =>
      shadow <- allocInode
        (Inode.mk (Inode.dev r) (Inode.ino r) (Inode.mode r)
           (Inode.atimeMs r) (Inode.mtimeMs r) (Inode.ctimeMs r) (Inode.birthtimeMs r)
           (Inode.nlink r) None None None None None
           (if isSymlink (Some r) then Inode.symlink r else None)
           (Some root)) ;;
      modFS fs (FileSystem.set_lazy_shadows (Some (shadows ++ [(Inode.ino r, shadow)])%list)) ;;
      ret shadow
  end.

Fixpoint _copyShadowLinks (fs : nat) (source : list (string * addr)) (target : SortedMap.t)
  : M SortedMap.t :=
  match source with
  | [] => ret target
  | (name, root) :: source' =>
      shadow <- _getShadow fs root ;;
      _copyShadowLinks fs source' (SortedMap.set name shadow target)
  end.

(** [_getRootLinks], [_getLinks], [_getSize] and [_getBuffer] call
    themselves on [this._shadowRoot]; [k] bounds the length of that
    chain.  A file system made by [shadow()] is younger than the one it
    shadows, so [S fs] is enough for file system number [fs]. *)
Fixpoint _getRootLinks_rec (k : nat) (fs : nat) : M LinksRef :=
  match k with
  | O => throw RangeError
  | S k' =>
      f <- getFS fs ;;
      match FileSystem.lazy_links f with
      | Some _ => ret (RootLinks fs)
      | None =>
          let fresh := SortedMap.empty (FileSystem.ignoreCase f) in
          modFS fs (FileSystem.set_lazy_links (Some fresh)) ;;
          match FileSystem._shadowRoot f with
          | Some sr =>
              src <- _getRootLinks_rec k' sr ;;
              source <- links_entries src ;;
              filled <- _copyShadowLinks fs source fresh ;;
              modFS fs (FileSystem.set_lazy_links (Some filled))
          | None => ret tt
          end ;;
          ret (RootLinks fs)
      end
  end.

Definition _getRootLinks (fs : nat) : M LinksRef := _getRootLinks_rec (S fs) fs.

(** The loop body of the mount expansion in [_getLinks].  The new map
    is installed in [node.links] before the loop instead of after it;
    nothing in between reads [node.links]. *)
Fixpoint expandMount (fs : nat) (node : addr) (source : string)
         (resolver : FileSystemResolver) (names : list string) : M unit :=
  match names with
  | [] => ret tt
  | name :: names' =>
      let path := vpath.combine source name in
      let stats := r_statSync resolver path in
      n <- getInode node ;;
      (if Z.land (fst stats) S_IFMT =? S_IFDIR then
         dir <- _mknod fs (Inode.dev n) S_IFDIR 511 None ;;
         modInode dir (Inode.set_source (Some (vpath.combine source name))) ;;
         modInode dir (Inode.set_resolver (Some resolver)) ;;
         _addLink fs (Some node) (NodeLinks node) name dir None
       else if Z.land (fst stats) S_IFMT =? S_IFREG then
         file <- _mknod fs (Inode.dev n) S_IFREG 438 None ;;
         modInode file (Inode.set_source (Some (vpath.combine source name))) ;;
         modInode file (Inode.set_resolver (Some resolver)) ;;
         modInode file (Inode.set_size (Some (snd stats))) ;;
         _addLink fs (Some node) (NodeLinks node) name file None
       else ret tt) ;;
      expandMount fs node source resolver names'
  end.

Fixpoint _getLinks_rec (k : nat) (fs : nat) (node : addr) : M LinksRef :=
  match k with
  | O => throw RangeError
  | S k' =>
      n <- getInode node ;;
      match Inode.links n with
      | Some _ => ret (NodeLinks node)
      | None =>
          f <- getFS fs ;;
          let fresh := SortedMap.empty (FileSystem.ignoreCase f) in
          match truthy (Inode.source n), Inode.resolver n with
          | Some source, Some resolver =>
              modInode node (Inode.set_source None) ;;
              modInode node (Inode.set_resolver None) ;;
              modInode node (Inode.set_links (Some fresh)) ;;
              expandMount fs node source resolver (r_readdirSync resolver source)
          | _, _ =>
              match FileSystem._shadowRoot f, Inode.shadowRoot n with
              | Some sr, Some root =>
                  src <- _getLinks_rec k' sr root ;;
                  source <- links_entries src ;;
                  filled <- _copyShadowLinks fs source fresh ;;
                  modInode node (Inode.set_links (Some filled))
              | _, _ => modInode node (Inode.set_links (Some fresh))
              end
          end ;;
          ret (NodeLinks node)
      end
  end.

Definition _getLinks (fs : nat) (node : addr) : M LinksRef := _getLinks_rec (S fs) fs node.

Fixpoint _getSize_rec (k : nat) (fs : nat) (node : addr) : M Z :=
  match k with
  | O => throw RangeError
  | S k' =>
      n <- getInode node ;;
      f <- getFS fs ;;
      match Inode.buffer n with
      | Some b => ret (Z.of_nat (byteLength b))
      | None =>
          match Inode.size n with
          | Some sz => ret sz
          | None =>
              match truthy (Inode.source n), Inode.resolver n with
              | Some source, Some resolver =>
                  let sz := snd (r_statSync resolver source) in
                  modInode node (Inode.set_size (Some sz)) ;;
                  ret sz
              | _, _ =>
                  match FileSystem._shadowRoot f, Inode.shadowRoot n with
                  | Some sr, Some root =>
                      sz <- _getSize_rec k' sr root ;;
                      modInode node (Inode.set_size (Some sz)) ;;
                      ret sz
                  | _, _ => ret 0
                  end
              end
          end
      end
  end.

Definition _getSize (fs : nat) (node : addr) : M Z := _getSize_rec (S fs) fs node.

Fixpoint _getBuffer_rec (k : nat) (fs : nat) (node : addr) : M Buffer :=
  match k with
  | O => throw RangeError
  | S k' =>
      n <- getInode node ;;
      f <- getFS fs ;;
      match Inode.buffer n with
      | Some b => ret b
      | None =>
          match truthy (Inode.source n), Inode.resolver n with
          | Some source, Some resolver =>
              modInode node (Inode.set_source None) ;;
              modInode node (Inode.set_resolver None) ;;
              modInode node (Inode.set_size None) ;;
              b <- allocBuffer (r_readFileSync resolver source) ;;
              modInode node (Inode.set_buffer (Some b)) ;;
              ret b
          | _, _ =>
              match FileSystem._shadowRoot f, Inode.shadowRoot n with
              | Some sr, Some root =>
                  b <- _getBuffer_rec k' sr root ;;
                  modInode node (Inode.set_buffer (Some b)) ;;
                  ret b
              | _, _ =>
                  b <- allocBuffer [] ;;
                  modInode node (Inode.set_buffer (Some b)) ;;
                  ret b
              end
          end
      end
  end.

Definition _getBuffer (fs : nat) (node : addr) : M Buffer := _getBuffer_rec (S fs) fs node.

(** ** The path walker *)

(** One pass of the [while (true)] loop of [_walk], from a (re)start at
    the root map up to the next return, throw or symlink splice.  [seen]
    is [components.slice(0, step)] and [rest] is [components.slice(step)].
    A splice hands back the new component list ([inr]). *)
Fixpoint walk_steps (fs : nat) (noFollow : bool) (links : LinksRef) (parent : option addr)
         (seen rest : list string) : M (WalkResult + list string) :=
  match rest with
  | [] => throw (IOError ENOENT)
  | basename :: rest' =>
      let lastStep := match rest' with [] => true | _ => false end in
      node <- links_get links basename ;;
      n <- gets (fun w => deref w node) ;;
      if lastStep && (noFollow || negb (isSymlink n)) then
        ret (inl {| realpath := vpath.format (seen ++ basename :: rest');
                    basename := basename; parent := parent; links := links; node := node |})
      else
        match node with
        | None => throw (IOError ENOENT)
        | Some a =>
            if isSymlink n then
              let dirname := vpath.format seen in
              let symlink := vpath.resolve dirname (default "" (n ≫= Inode.symlink)) in
              ret (inr (vpath.parse symlink ++ rest')%list)
            else if isDirectory n then
              links' <- _getLinks fs a ;;
              walk_steps fs noFollow links' (Some a) (seen ++ [basename]) rest'
            else throw (IOError ENOTDIR)
        end
  end.

(** The outer loop: [limit] is what is left of the budget of symlink
    splices, [limit = 0] is [depth >= 40]. *)
Fixpoint walk_loop (limit : nat) (fs : nat) (noFollow : bool) (components : list string)
  : M WalkResult :=
  match limit with
  | O => throw (IOError ELOOP)
  | S limit' =>
      links <- _getRootLinks fs ;;
      r <- walk_steps fs noFollow links None [] components ;;
      match r with
      | inl result => ret result
      | inr components' => walk_loop limit' fs noFollow components'
      end
  end.

Definition maxDepth : nat := 40.

Definition _walk (fs : nat) (path : string) (noFollow : bool) : M WalkResult :=
  walk_loop maxDepth fs noFollow (vpath.parse path).

Definition validated (path : string) (flags : vpath.ValidationFlags) : M string :=
  match vpath.validate path flags with
  | Some p => ret p
  | None => throw (IOError ENOENT)
  end.

Definition _resolve (fs : nat) (path : string) : M string :=
  f <- getFS fs ;;
  if negb (String.eqb (FileSystem._cwd f) "") then
    p <- validated path vpath.RelativeOrAbsolute ;;
    ret (vpath.resolve (FileSystem._cwd f) p)
  else validated path vpath.Absolute.

(** ** Public methods of [FileSystem] *)

(** [new FileSystem(ignoreCase, { time })]: no [files], [cwd] or [meta]. *)
Definition newFileSystem (ignoreCase : bool) (tm : Z) : M nat :=
  allocFS (FileSystem.mk ignoreCase None None "" tm None None false).

(** [shadow(ignoreCase = this.ignoreCase)] *)
Definition shadow (fs : nat) (ignoreCase : option bool) : M nat :=
  f <- getFS fs ;;
  let ic := default (FileSystem.ignoreCase f) ignoreCase in
  if negb (FileSystem.frozen f) then throw (Error "Cannot shadow a mutable file system.")
  else if ic && negb (FileSystem.ignoreCase f)
  then throw (Error "Cannot create a case-insensitive file system from a case-sensitive one.")
  else
    fs' <- newFileSystem ic (FileSystem._time f) ;;
    modFS fs' (FileSystem.set_shadowRoot (Some fs)) ;;
    modFS fs' (FileSystem.set_cwd (FileSystem._cwd f)) ;;
    ret fs'.

Definition chdir (fs : nat) (path : string) : M unit :=
  ro <- isReadonly fs ;;
  if ro then throw (IOError EPERM) else
  path <- _resolve fs path ;;
  r <- _walk fs path false ;;
  n <- gets (fun w => deref w (node r)) ;;
  if negb (defined n) then throw (IOError ENOENT)
  else if negb (isDirectory n) then throw (IOError ENOTDIR)
  else modFS fs (FileSystem.set_cwd path).

Definition pushd (fs : nat) (path : option string) : M unit :=
  ro <- isReadonly fs ;;
  if ro then throw (IOError EPERM) else
  path <- match truthy path with
          | Some p => p' <- _resolve fs p ;; ret (Some p')
          | None => ret path
          end ;;
  f <- getFS fs ;;
  (if negb (String.eqb (FileSystem._cwd f) "") then
     modFS fs (fun x => FileSystem.set_dirStack
                          (Some (default [] (FileSystem._dirStack x) ++ [FileSystem._cwd x])%list) x)
   else ret tt) ;;
  match truthy path with
  | Some p => if negb (String.eqb p (FileSystem._cwd f)) then chdir fs p else ret tt
  | None => ret tt
  end.

Definition popd (fs : nat) : M unit :=
  ro <- isReadonly fs ;;
  if ro then throw (IOError EPERM) else
  f <- getFS fs ;;
  match FileSystem._dirStack f with
  | Some stack =>
      match List.rev stack with
      | top :: below =>
          modFS fs (FileSystem.set_dirStack (Some (List.rev below))) ;;
          if negb (String.eqb top "") then chdir fs top else ret tt
      | [] => ret tt
      end
  | None => ret tt
  end.

Definition _stat (fs : nat) (entry : WalkResult) : M Stats :=
  match node entry with
  | None => throw (IOError ENOENT)
  | Some a =>
      n <- getInode a ;;
      sz <- (if isFile (Some n) then _getSize fs a
             else if isSymlink (Some n)
                  then ret (Z.of_nat (String.length (default "" (Inode.symlink n))))
                  else ret 0) ;;
      n <- getInode a ;;
      ret {| st_dev := Inode.dev n; st_ino := Inode.ino n; st_mode := Inode.mode n;
             st_nlink := Inode.nlink n; st_uid := 0; st_gid := 0; st_rdev := 0;
             st_size := sz; st_blksize := 4096; st_blocks := 0;
             st_atimeMs := Inode.atimeMs n; st_mtimeMs := Inode.mtimeMs n;
             st_ctimeMs := Inode.ctimeMs n; st_birthtimeMs := Inode.birthtimeMs n |}
  end.

Definition statSync (fs : nat) (path : string) : M Stats :=
  p <- _resolve fs path ;;
  r <- _walk fs p false ;;
  _stat fs r.

Definition lstatSync (fs : nat) (path : string) : M Stats :=
  p <- _resolve fs path ;;
  r <- _walk fs p true ;;
  _stat fs r.

Definition readdirSync (fs : nat) (path : string) : M (list string) :=
  p <- _resolve fs path ;;
  r <- _walk fs p false ;;
  n <- gets (fun w => deref w (node r)) ;;
  match node r with
  | None => throw (IOError ENOENT)
  | Some a =>
      if negb (isDirectory n) then throw (IOError ENOTDIR)
      else
        l <- _getLinks fs a ;;
        entries <- links_entries l ;;
        ret (List.map fst entries)
  end.

(** [parent ? parent.dev : ++devCount] *)
Definition dev_for (parent : option addr) : M Z :=
  match parent with
  | Some p => i <- getInode p ;; ret (Inode.dev i)
  | None => modify (fun w => with_devCount (devCount w + 1) w) ;; gets devCount
  end.

Definition mountSync (fs : nat) (source target : string) (resolver : FileSystemResolver)
  : M unit :=
  ro <- isReadonly fs ;;
  if ro then throw (IOError EROFS) else
  source <- validated source vpath.Absolute ;;
  p <- _resolve fs target ;;
  r <- _walk fs p true ;;
  if defined (node r) then throw (IOError EEXIST) else
  tm <- time fs None ;;
  dev <- dev_for (parent r) ;;
  nd <- _mknod fs dev S_IFDIR 511 (Some tm) ;;
  modInode nd (Inode.set_source (Some source)) ;;
  modInode nd (Inode.set_resolver (Some resolver)) ;;
  _addLink fs (parent r) (links r) (basename r) nd (Some tm).

Definition mkdirSync (fs : nat) (path : string) : M unit :=
  ro <- isReadonly fs ;;
  if ro then throw (IOError EROFS) else
  p <- _resolve fs path ;;
  r <- _walk fs p true ;;
  if defined (node r) then throw (IOError EEXIST) else
  tm <- time fs None ;;
  dev <- dev_for (parent r) ;;
  nd <- _mknod fs dev S_IFDIR 511 (Some tm) ;;
  _addLink fs (parent r) (links r) (basename r) nd (Some tm).

Definition rmdirSync (fs : nat) (path : string) : M unit :=
  ro <- isReadonly fs ;;
  if ro then throw (IOError EROFS) else
  p <- _resolve fs path ;;
  r <- _walk fs p true ;;
  match parent r with
  | None => throw (IOError EPERM)
  | Some _ =>
      n <- gets (fun w => deref w (node r)) ;;
      match node r with
      | Some a =>
          if negb (isDirectory n) then throw (IOError ENOTDIR) else
          l <- _getLinks fs a ;;
          sz <- links_size l ;;
          if negb (Nat.eqb sz 0) then throw (IOError ENOTEMPTY)
          else _removeLink fs (parent r) (links r) (basename r) a None
      | None => throw (IOError ENOTDIR)
      end
  end.

Definition linkSync (fs : nat) (oldpath newpath : string) : M unit :=
  ro <- isReadonly fs ;;
  if ro then throw (IOError EROFS) else
  po <- _resolve fs oldpath ;;
  ro <- _walk fs po false ;;
  match node ro with
  | None => throw (IOError ENOENT)
  | Some a =>
      n <- getInode a ;;
      if isDirectory (Some n) then throw (IOError EPERM) else
      pn <- _resolve fs newpath ;;
      rn <- _walk fs pn true ;;
      if negb (defined (parent rn)) then throw (IOError EPERM)
      else if defined (node rn) then throw (IOError EEXIST)
      else _addLink fs (parent rn) (links rn) (basename rn) a None
  end.

Definition unlinkSync (fs : nat) (path : string) : M unit :=
  ro <- isReadonly fs ;;
  if ro then throw (IOError EROFS) else
  p <- _resolve fs path ;;
  r <- _walk fs p true ;;
  if negb (defined (parent r)) then throw (IOError EPERM) else
  match node r with
  | None => throw (IOError ENOENT)
  | Some a =>
      n <- getInode a ;;
      if isDirectory (Some n) then throw (IOError EISDIR)
      else _removeLink fs (parent r) (links r) (basename r) a None
  end.

Definition renameSync (fs : nat) (oldpath newpath : string) : M unit :=
  ro <- isReadonly fs ;;
  if ro then throw (IOError EROFS) else
  po <- _resolve fs oldpath ;;
  rold <- _walk fs po true ;;
  match parent rold with
  | None => throw (IOError EPERM)
  | Some oldParent =>
      match node rold with
      | None => throw (IOError ENOENT)
      | Some nd =>
          pn <- _resolve fs newpath ;;
          rnew <- _walk fs pn true ;;
          match parent rnew with
          | None => throw (IOError EPERM)
          | Some newParent =>
              tm <- time fs None ;;
              match node rnew with
              | Some existingNode =>
                  n <- getInode nd ;;
                  e <- getInode existingNode ;;
                  (if isDirectory (Some n) then
                     if negb (isDirectory (Some e)) then throw (IOError ENOTDIR) else
                     l <- _getLinks fs existingNode ;;
                     sz <- links_size l ;;
                     if (0 <? sz)%nat then throw (IOError ENOTEMPTY) else ret tt
                   else
                     if isDirectory (Some e) then throw (IOError EISDIR) else ret tt) ;;
                  _removeLink fs (Some newParent) (links rnew) (basename rnew) existingNode (Some tm)
              | None => ret tt
              end ;;
              _replaceLink fs oldParent (links rold) (basename rold)
                           newParent (links rnew) (basename rnew) nd tm
          end
      end
  end.

Definition symlinkSync (fs : nat) (target linkpath : string) : M unit :=
  ro <- isReadonly fs ;;
  if ro then throw (IOError EROFS) else
  p <- _resolve fs linkpath ;;
  r <- _walk fs p true ;;
  match parent r with
  | None => throw (IOError EPERM)
  | Some par =>
      if defined (node r) then throw (IOError EEXIST) else
      tm <- time fs None ;;
      pi <- getInode par ;;
      nd <- _mknod fs (Inode.dev pi) S_IFLNK 438 (Some tm) ;;
      text <- validated target vpath.RelativeOrAbsolute ;;
      modInode nd (Inode.set_symlink (Some text)) ;;
      _addLink fs (parent r) (links r) (basename r) nd (Some tm)
  end.

Definition readlinkSync (fs : nat) (path : string) : M string :=
  p <- _resolve fs path ;;
  r <- _walk fs p true ;;
  match node r with
  | None => throw (IOError ENOENT)
  | Some a =>
      n <- getInode a ;;
      if negb (isSymlink (Some n)) then throw (IOError EINVAL)
      else ret (default "" (Inode.symlink n))
  end.

Definition realpathSync (fs : nat) (path : string) : M string :=
  p <- _resolve fs path ;;
  r <- _walk fs p false ;;
  ret (realpath r).

(** What [readFileSync] hands back: the buffer, or its text when an
    encoding is given. *)
Inductive FileData :=
| DBuffer (b : Buffer)
| DString (s : string).

Definition readFileSync (fs : nat) (path : string) (encoding : option string) : M FileData :=
  p <- _resolve fs path ;;
  r <- _walk fs p false ;;
  match node r with
  | None => throw (IOError ENOENT)
  | Some a =>
      n <- getInode a ;;
      if isDirectory (Some n) then throw (IOError EISDIR)
      else if negb (isFile (Some n)) then throw (IOError EBADF)
      else
        stored <- _getBuffer fs a ;;
        (* [.slice()]: a new view on the same store *)
        let buffer := {| bstore := bstore stored; boffset := boffset stored;
                         byteLength := byteLength stored |} in
        match truthy encoding with
        | Some _ => bytes <- gets (fun w => buffer_bytes w buffer) ;;
                    ret (DString (string_of_list_byte bytes))
        | None => ret (DBuffer buffer)
        end
  end.

Definition writeFileSync (fs : nat) (path : string) (data : FileData) (encoding : option string)
  : M unit :=
  ro <- isReadonly fs ;;
  if ro then throw (IOError EROFS) else
  p <- _resolve fs path ;;
  r <- _walk fs p false ;;
  match parent r with
  | None => throw (IOError EPERM)
  | Some par =>
      tm <- time fs None ;;
      nd <- match node r with
            | Some a => ret a
            | None =>
                pi <- getInode par ;;
                a <- _mknod fs (Inode.dev pi) S_IFREG 438 (Some tm) ;;
                _addLink fs (parent r) (links r) (basename r) a (Some tm) ;;
                ret a
            end ;;
      n <- getInode nd ;;
      if isDirectory (Some n) then throw (IOError EISDIR)
      else if negb (isFile (Some n)) then throw (IOError EBADF)
      else
        buffer <- match data with
                  | DBuffer b =>
                      (* [data.slice()]: a new view on the caller's store *)
                      ret {| bstore := bstore b; boffset := boffset b; byteLength := byteLength b |}
                  | DString s => allocBuffer (list_byte_of_string s)
                  end ;;
        modInode nd (Inode.set_buffer (Some buffer)) ;;
        modInode nd (Inode.set_size (Some (Z.of_nat (byteLength buffer)))) ;;
        modInode nd (Inode.set_mtimeMs tm) ;;
        modInode nd (Inode.set_ctimeMs tm)
  end.

(** * Notions used in the statements *)

(** The canonical form of a key under a comparer. *)
Definition canon (ic : bool) (s : string) : string :=
  if ic then vpath.fold_case s else s.

(** Two keys name the same entry of a map. *)
Definition same_key (m : SortedMap.t) (a b : string) : Prop :=
  SortedMap.comparer (SortedMap.caseInsensitive m) a b = Eq.

(** Every lookup that succeeds in [m] succeeds in [m'] with the same
    inode. *)
Definition sub_map (m m' : SortedMap.t) : Prop :=
  forall k v, SortedMap.get k m = Some v -> SortedMap.get k m' = Some v.

(** [sees_but X w w']: what a walk can read in [w] it reads unchanged in
    [w'].  Existing inodes keep their identity fields, a name map that
    exists keeps its lookups (the maps in the slots [X] excepted), and
    the fields of a file system other than its lazily built ones stay. *)
Record sees_but (X : LinksRef -> Prop) (w w' : World) : Prop := {
  sb_len : (List.length (inodes w) <= List.length (inodes w'))%nat;
  sb_fslen : List.length (fileSystems w) = List.length (fileSystems w');
  sb_id : forall a, (a < List.length (inodes w))%nat ->
    Inode.mode (inode_at w' a) = Inode.mode (inode_at w a) /\
    Inode.symlink (inode_at w' a) = Inode.symlink (inode_at w a) /\
    Inode.ino (inode_at w' a) = Inode.ino (inode_at w a) /\
    Inode.dev (inode_at w' a) = Inode.dev (inode_at w a) /\
    Inode.shadowRoot (inode_at w' a) = Inode.shadowRoot (inode_at w a);
  sb_links : forall a m,
    Inode.links (inode_at w a) = Some m ->
    exists m', Inode.links (inode_at w' a) = Some m' /\ (~ X (NodeLinks a) -> sub_map m m');
  sb_root : forall fs m,
    FileSystem.lazy_links (fs_at w fs) = Some m ->
    exists m', FileSystem.lazy_links (fs_at w' fs) = Some m' /\ (~ X (RootLinks fs) -> sub_map m m');
  sb_fs : forall fs,
    FileSystem._cwd (fs_at w' fs) = FileSystem._cwd (fs_at w fs) /\
    FileSystem.frozen (fs_at w' fs) = FileSystem.frozen (fs_at w fs) /\
    FileSystem.ignoreCase (fs_at w' fs) = FileSystem.ignoreCase (fs_at w fs) /\
    FileSystem._time (fs_at w' fs) = FileSystem._time (fs_at w fs) /\
    FileSystem._shadowRoot (fs_at w' fs) = FileSystem._shadowRoot (fs_at w fs) /\
    FileSystem._dirStack (fs_at w' fs) = FileSystem._dirStack (fs_at w fs);
  sb_storeslen : (List.length (stores w) <= List.length (stores w'))%nat;
  sb_stores : forall s, (s < List.length (stores w))%nat -> store_at w' s = store_at w s;
  sb_now : now w' = now w
}.

Definition sees : World -> World -> Prop := sees_but (fun _ => False).

(** A computation whose every run relates the state before to the state
    after. *)
Definition keeps {A} (R : World -> World -> Prop) (c : M A) : Prop :=
  forall w, R w (snd (c w)).

(** Splitting a run of [bind] in a hypothesis. *)
Ltac mstep H :=
  match type of H with
  | bind ?c ?k ?w = _ =>
      let E := fresh "E" in
      let a := fresh "a" in
      let e := fresh "e" in
      let w1 := fresh "w" in
      unfold bind at 1 in H;
      destruct (c w) as [[a|e] w1] eqn:E;
      [ | try (inversion H; fail) ]
  end.

(** A walk result with another final node. *)
Definition with_node (r : WalkResult) (x : option addr) : WalkResult :=
  {| realpath := realpath r; basename := basename r; parent := parent r;
     links := links r; node := x |}.

(** What [links.get(key)] reads in a state. *)
Definition lookup_in (w : World) (r : LinksRef) (key : string) : option addr :=
  match links_of w r with
  | Some m => SortedMap.get key m
  | None => None
  end.

(** The file system [fs] exists in the store. *)
Definition fs_valid (w : World) (fs : nat) : Prop :=
  (fs < List.length (fileSystems w))%nat.

(** The slot of the map in which a walk looks up the name below
    [parent]. *)
Definition slot_of (fs : nat) (parent : option addr) : LinksRef :=
  match parent with
  | Some p => NodeLinks p
  | None => RootLinks fs
  end.

(** What holds of the result [r] of a walk that ended in state [w]. *)
Definition walk_result_ok (fs : nat) (nf : bool) (w : World) (r : WalkResult) : Prop :=
  node r = lookup_in w (links r) (basename r) /\
  (nf = true \/ isSymlink (deref w (node r)) = false) /\
  links r = slot_of fs (parent r) /\
  (exists m, links_of w (links r) = Some m) /\
  (forall p, parent r = Some p -> isDirectory (Some (inode_at w p)) = true).

(** ** Link counting *)

(** How often inode [a] is a value of the map [m]. *)
Definition count_in (a : addr) (m : option SortedMap.t) : nat :=
  match m with
  | Some m => List.length (List.filter (fun e => Nat.eqb (snd e) a) (SortedMap.entries m))
  | None => O
  end.

(** The number of name-map entries of the store that refer to inode
    [a]: over the root map of every file system and the [links] of
    every inode. *)
Definition entry_count (w : World) (a : addr) : nat :=
  (list_sum (List.map (fun f => count_in a (FileSystem.lazy_links f)) (fileSystems w)) +
   list_sum (List.map (fun i => count_in a (Inode.links i)) (inodes w)))%nat.

(** ** Symlink splices *)

(** One pass of the walker from the root map. *)
Definition walk_pass (fs : nat) (nf : bool) (cs : list string) : M (WalkResult + list string) :=
  links <- _getRootLinks fs ;;
  walk_steps fs nf links None [] cs.

(** [splices fs nf n cs w]: resolving the components [cs] in state [w]
    goes through at least [n] symlink splices. *)
Inductive splices (fs : nat) (nf : bool) : nat -> list string -> World -> Prop :=
| splices_O cs w : splices fs nf O cs w
| splices_S n cs w cs' w' :
    walk_pass fs nf cs w = (Ok (inr cs'), w') ->
    splices fs nf n cs' w' ->
    splices fs nf (S n) cs w.

(** [resolves_after fs nf n cs w r w']: resolving [cs] in state [w]
    takes exactly [n] splices and then ends with result [r] in state
    [w']. *)
Inductive resolves_after (fs : nat) (nf : bool) : nat -> list string -> World -> WalkResult -> World -> Prop :=
| resolves_O cs w r w' :
    walk_pass fs nf cs w = (Ok (inl r), w') ->
    resolves_after fs nf O cs w r w'
| resolves_S n cs w cs' w1 r w' :
    walk_pass fs nf cs w = (Ok (inr cs'), w1) ->
    resolves_after fs nf n cs' w1 r w' ->
    resolves_after fs nf (S n) cs w r w'.

(** ** Example stores *)

(** The state a computation leaves, and what it returns. *)
Definition exec {A} (c : M A) (w : World) : World := snd (c w).
Definition eval {A} (c : M A) (w : World) : Result A := fst (c w).

(** A case-sensitive file system (number 0) with [/a/b.txt] holding
    ["hi"], clock fixed at 7. *)
Definition populated : World :=
  exec (fs <- newFileSystem false 7 ;;
        mkdirSync fs "/" ;;
        mkdirSync fs "/a" ;;
        writeFileSync fs "/a/b.txt" (DString "hi") None) (emptyWorld 100).

(** The same with a second directory [/c]. *)
Definition twoDirs : World := exec (mkdirSync 0%nat "/c") populated.

(** The same, made read-only. *)
Definition frozenWorld : World := exec (makeReadonly 0%nat) populated.

(** Two symlinks pointing at each other: [/x -> /y] and [/y -> /x]. *)
Definition cycleWorld : World :=
  exec (symlinkSync 0%nat "/y" "/x" ;; symlinkSync 0%nat "/x" "/y") populated.

(** [n] symlinks in a row: [/l1 -> /l2 -> ... -> /ln -> /a/b.txt], made
    from the last one down. *)
Fixpoint decimal_from (fuel n : nat) (acc : string) : string :=
  match fuel with
  | O => acc
  | S fuel' =>
      let acc' := String (ascii_of_nat (48 + n mod 10)) acc in
      if Nat.eqb (n / 10) 0 then acc' else decimal_from fuel' (n / 10) acc'
  end.

Definition link_name (i : nat) : string := "/l" +:+ decimal_from (S i) i "".

Fixpoint make_chain (fs : nat) (n : nat) (target : string) : M unit :=
  match n with
  | O => ret tt
  | S n' => symlinkSync fs target (link_name n) ;; make_chain fs n' (link_name n)
  end.

Definition chainWorld (n : nat) : World := exec (make_chain 0%nat n "/a/b.txt") populated.

(** The name map of inode [a], when it has been built. *)
Definition links_at (w : World) (a : addr) : option SortedMap.t := Inode.links (inode_at w a).

(** An update of an inode that leaves its name map alone. *)
Definition keeps_links (f : Inode.t -> Inode.t) : Prop :=
  forall i, Inode.links (f i) = Inode.links i.

(** An update of an inode that leaves [ino], [mode] and [symlink] alone. *)
Definition keeps_identity (f : Inode.t -> Inode.t) : Prop :=
  forall i, Inode.ino (f i) = Inode.ino i /\ Inode.mode (f i) = Inode.mode i /\
            Inode.symlink (f i) = Inode.symlink i.

(** [links.delete(name)] and [links.set(name, node)] on the map of a
    directory inode, as updates of that inode. *)
Definition delete_entry (name : string) (i : Inode.t) : Inode.t :=
  Inode.set_links (option_map (SortedMap.delete name) (Inode.links i)) i.
Definition set_entry (name : string) (a : addr) (i : Inode.t) : Inode.t :=
  Inode.set_links (option_map (SortedMap.set name a) (Inode.links i)) i.
Definition nlink_add (d : Z) (i : Inode.t) : Inode.t :=
  Inode.set_nlink (Inode.nlink i + d) i.

(** What [time()] reads. *)
Definition clock (w : World) (fs : nat) : Z :=
  if FileSystem._time (fs_at w fs) =? -1 then now w else FileSystem._time (fs_at w fs).

(** ** Data handed to [writeFileSync] *)

(** A buffer whose store exists and holds all its bytes. *)
Definition buffer_ok (w : World) (b : Buffer) : Prop :=
  (bstore b < List.length (stores w))%nat /\
  (boffset b + byteLength b <= List.length (store_at w (bstore b)))%nat.

Definition data_ok (w : World) (d : FileData) : Prop :=
  match d with
  | DBuffer b => buffer_ok w b
  | DString _ => True
  end.

(** The bytes of the data: those a buffer holds, or those of a string. *)
Definition data_bytes (w : World) (d : FileData) : list Byte.byte :=
  match d with
  | DBuffer b => buffer_bytes w b
  | DString s => list_byte_of_string s
  end.

(** ** Well-formed component lists *)

Fixpoint sep_free (s : string) : bool :=
  match s with
  | EmptyString => true
  | String c s' => negb (vpath.is_sep c) && sep_free s'
  end.

(** A name between separators; with [dots = false] it is neither [.]
    nor [..]. *)
Definition name_ok (dots : bool) (n : string) : bool :=
  negb (String.eqb n "") && sep_free n &&
  (dots || negb (String.eqb n "." || String.eqb n "..")).

(** The components of an absolute path: the root, then names. *)
Definition comps_ok (dots : bool) (cs : list string) : bool :=
  match cs with
  | root :: names => String.eqb root "/" && forallb (name_ok dots) names
  | [] => false
  end.

(** No entry of the root map of [fs] is a symbolic link. *)
Definition roots_not_symlinks (w : World) (fs : nat) : Prop :=
  forall k a, lookup_in w (RootLinks fs) k = Some a -> isSymlink (Some (inode_at w a)) = false.

(** The working directory is unset or an absolute path. *)
Definition cwd_ok (w : World) (fs : nat) : Prop :=
  FileSystem._cwd (fs_at w fs) = "" \/ vpath.isAbsolute (FileSystem._cwd (fs_at w fs)) = true.

(** [fades w w']: a name that resolved in [w] resolves to the same inode
    in [w'] or to nothing; apart from that, what a walk reads in [w] it
    reads in [w']. *)
Definition fades (w w' : World) : Prop :=
  sees_but (fun _ => True) w w' /\
  forall r k a, lookup_in w r k = Some a ->
                lookup_in w' r k = Some a \/ lookup_in w' r k = None.

(** ** Calls of the public methods *)

Inductive Call :=
| CMkdir (p : string) | CRmdir (p : string) | CLink (p q : string) | CUnlink (p : string)
| CRename (p q : string) | CSymlink (t p : string)
| CWrite (p : string) (d : FileData) (e : option string)
| CMount (s t : string) (r : FileSystemResolver)
| CChdir (p : string) | CPushd (p : option string) | CPopd
| CTime (v : option Z) | CShadow (ic : option bool) | CMakeReadonly
| CStat (p : string) | CLstat (p : string) | CReaddir (p : string)
| CReadlink (p : string) | CRealpath (p : string) | CReadFile (p : string) (e : option string).

(** The state a call leaves, whether it returns or throws. *)
Definition call (fs : nat) (c : Call) : World -> World :=
  match c with
  | CMkdir p => exec (mkdirSync fs p)
  | CRmdir p => exec (rmdirSync fs p)
  | CLink p q => exec (linkSync fs p q)
  | CUnlink p => exec (unlinkSync fs p)
  | CRename p q => exec (renameSync fs p q)
  | CSymlink t p => exec (symlinkSync fs t p)
  | CWrite p d e => exec (writeFileSync fs p d e)
  | CMount s t r => exec (mountSync fs s t r)
  | CChdir p => exec (chdir fs p)
  | CPushd p => exec (pushd fs p)
  | CPopd => exec (popd fs)
  | CTime v => exec (time fs v)
  | CShadow ic => exec (shadow fs ic)
  | CMakeReadonly => exec (makeReadonly fs)
  | CStat p => exec (statSync fs p)
  | CLstat p => exec (lstatSync fs p)
  | CReaddir p => exec (readdirSync fs p)
  | CReadlink p => exec (readlinkSync fs p)
  | CRealpath p => exec (realpathSync fs p)
  | CReadFile p e => exec (readFileSync fs p e)
  end.

(** A sequence of calls, each on a file system of its own. *)
Fixpoint calls (l : list (nat * Call)) (w : World) : World :=
  match l with
  | [] => w
  | (fs, c) :: l' => calls l' (call fs c w)
  end.

(** Every file system that is read-only in [w] is read-only in [w']. *)
Definition stays_readonly (w w' : World) : Prop :=
  forall fs, FileSystem.frozen (fs_at w fs) = true -> FileSystem.frozen (fs_at w' fs) = true.
(** ** Notions for a shadow and the file system it shadows *)

(** Every inode a name map refers to is older, or younger, than [n0]. *)
Definition old_vals (n0 : nat) (m : SortedMap.t) : Prop :=
  Forall (fun e => snd e < n0)%nat (SortedMap.entries m).
Definition new_vals (n0 : nat) (m : SortedMap.t) : Prop :=
  Forall (fun e => n0 <= snd e)%nat (SortedMap.entries m).

(** [owned n0 A B w]: file system [B] shadows [A], which shadows nothing;
    the inodes below [n0] are the ones that existed when [B] was made.
    Of those none is a mount still to be read and their name maps stay
    among them; the name maps of [B] and of the younger inodes hold
    younger inodes only. *)
Record owned (n0 A B : nat) (w : World) : Prop := {
  ow_AB : A <> B;
  ow_A : (A < List.length (fileSystems w))%nat;
  ow_B : (B < List.length (fileSystems w))%nat;
  ow_shadow : FileSystem._shadowRoot (fs_at w B) = Some A;
  ow_plain : FileSystem._shadowRoot (fs_at w A) = None;
  ow_len : (n0 <= List.length (inodes w))%nat;
  ow_nosrc : forall a, (a < n0)%nat -> Inode.source (inode_at w a) = None;
  ow_old : forall a m, (a < n0)%nat -> Inode.links (inode_at w a) = Some m -> old_vals n0 m;
  ow_oldroot : forall m, FileSystem.lazy_links (fs_at w A) = Some m -> old_vals n0 m;
  ow_buf : forall a b, (a < n0)%nat -> Inode.buffer (inode_at w a) = Some b ->
                       (bstore b < List.length (stores w))%nat;
  ow_newroot : forall m, FileSystem.lazy_links (fs_at w B) = Some m -> new_vals n0 m;
  ow_reg : forall reg, FileSystem.lazy_shadows (fs_at w B) = Some reg ->
                       Forall (fun e => n0 <= snd e)%nat reg;
  ow_new : forall a m, (n0 <= a)%nat -> Inode.links (inode_at w a) = Some m -> new_vals n0 m
}.

(** [kept n0 B w w']: from [w] to [w'] an inode below [n0] changed at
    most by getting its name map made, a file system other than [B] at
    most by getting its root map made, and no buffer store changed. *)
Record kept (n0 B : nat) (w w' : World) : Prop := {
  k_len : (List.length (inodes w) <= List.length (inodes w'))%nat;
  k_fslen : (List.length (fileSystems w) <= List.length (fileSystems w'))%nat;
  k_stlen : (List.length (stores w) <= List.length (stores w'))%nat;
  k_inode : forall a, (a < n0)%nat ->
      Inode.set_links None (inode_at w' a) = Inode.set_links None (inode_at w a);
  k_links : forall a m, (a < n0)%nat ->
      Inode.links (inode_at w a) = Some m -> Inode.links (inode_at w' a) = Some m;
  k_fs : forall fs, fs <> B ->
      FileSystem.set_lazy_links None (fs_at w' fs) = FileSystem.set_lazy_links None (fs_at w fs);
  k_root : forall fs m, fs <> B ->
      FileSystem.lazy_links (fs_at w fs) = Some m -> FileSystem.lazy_links (fs_at w' fs) = Some m;
  k_store : forall s, (s < List.length (stores w))%nat -> store_at w' s = store_at w s;
  k_now : now w' = now w
}.

(** [hoare n0 A B c Q]: run where [owned] holds, [c] keeps it, changes
    the older part of the store as [kept] allows, and what it returns
    satisfies [Q]. *)
Definition hoare (n0 A B : nat) {T} (c : M T) (Q : T -> Prop) : Prop :=
  forall w, owned n0 A B w ->
    kept n0 B w (snd (c w)) /\ owned n0 A B (snd (c w)) /\
    forall a, fst (c w) = Ok a -> Q a.



















(** [mirrors n0 w mB mA]: under every key, the map [mB] holds a copy of
    what [mA] holds, or both hold nothing. *)
Definition mirrors (n0 : nat) (w : World) (mB mA : SortedMap.t) : Prop :=
  forall k, match SortedMap.get k mB with
            | Some y => (n0 <= y)%nat /\ (y < List.length (inodes w))%nat /\
                        exists a, SortedMap.get k mA = Some a /\
                                  Inode.shadowRoot (inode_at w y) = Some a
            | None => SortedMap.get k mA = None
            end.




(** [grows w w']: the inodes of [w] are in [w'] as they were, and so is
    every root map. *)
Definition grows (w w' : World) : Prop :=
  (List.length (inodes w) <= List.length (inodes w'))%nat /\
  (forall x, (x < List.length (inodes w))%nat -> inode_at w' x = inode_at w x) /\
  (forall fs, FileSystem.lazy_links (fs_at w' fs) = FileSystem.lazy_links (fs_at w fs)).

(** [stays w w']: the inodes of [w] are copies of the same inodes in
    [w'], and every root map is as it was. *)
Definition stays (w w' : World) : Prop :=
  (List.length (inodes w) <= List.length (inodes w'))%nat /\
  (forall x, (x < List.length (inodes w))%nat ->
             Inode.shadowRoot (inode_at w' x) = Inode.shadowRoot (inode_at w x)) /\
  (forall fs, FileSystem.lazy_links (fs_at w' fs) = FileSystem.lazy_links (fs_at w fs)).












(** ** The entries a walk reads *)







(** [steady w w']: the inodes of [w] keep their kind, link text,
    numbers, link count, shadow root and all times but [mtimeMs], which
    they keep when their name map was built; every name map of [w] is in
    [w'] as it was, and working directories stay. *)
Record steady (w w' : World) : Prop := {
  sd_len : (List.length (inodes w) <= List.length (inodes w'))%nat;
  sd_fslen : List.length (fileSystems w) = List.length (fileSystems w');
  sd_id : forall a, (a < List.length (inodes w))%nat ->
    Inode.mode (inode_at w' a) = Inode.mode (inode_at w a) /\
    Inode.symlink (inode_at w' a) = Inode.symlink (inode_at w a) /\
    Inode.ino (inode_at w' a) = Inode.ino (inode_at w a) /\
    Inode.nlink (inode_at w' a) = Inode.nlink (inode_at w a) /\
    Inode.dev (inode_at w' a) = Inode.dev (inode_at w a) /\
    Inode.atimeMs (inode_at w' a) = Inode.atimeMs (inode_at w a) /\
    Inode.ctimeMs (inode_at w' a) = Inode.ctimeMs (inode_at w a) /\
    Inode.birthtimeMs (inode_at w' a) = Inode.birthtimeMs (inode_at w a) /\
    Inode.shadowRoot (inode_at w' a) = Inode.shadowRoot (inode_at w a);
  sd_links : forall lk m, links_of w lk = Some m -> links_of w' lk = Some m;
  sd_mtime : forall a m, Inode.links (inode_at w a) = Some m ->
    Inode.mtimeMs (inode_at w' a) = Inode.mtimeMs (inode_at w a);
  sd_cwd : forall fs, FileSystem._cwd (fs_at w' fs) = FileSystem._cwd (fs_at w fs)
}.

(** What an update of an inode leaves alone. *)
Definition keeps_fixed (f : Inode.t -> Inode.t) : Prop :=
  forall i,
    Inode.mode (f i) = Inode.mode i /\ Inode.symlink (f i) = Inode.symlink i /\
    Inode.ino (f i) = Inode.ino i /\ Inode.nlink (f i) = Inode.nlink i /\
    Inode.dev (f i) = Inode.dev i /\ Inode.atimeMs (f i) = Inode.atimeMs i /\
    Inode.ctimeMs (f i) = Inode.ctimeMs i /\ Inode.birthtimeMs (f i) = Inode.birthtimeMs i /\
    Inode.shadowRoot (f i) = Inode.shadowRoot i.

(** A computation that, run in any state that is [steady] with respect
    to [w0], leaves such a state. *)
Definition steadily (w0 : World) {A} (c : M A) : Prop :=
  forall w, steady w0 w -> steady w0 (snd (c w)).

(** * Properties *)

(** ** The path algebra at work *)

Example parse_abs : vpath.parse "/a//b/" = ["/"; "a"; "b"].
Proof. reflexivity. Qed.
Example parse_rel : vpath.parse "a/b" = [""; "a"; "b"].
Proof. reflexivity. Qed.
Example format_abs : vpath.format ["/"; "a"; "b"] = "/a/b".
Proof. reflexivity. Qed.
Example resolve_dots : vpath.resolve "/a/b" "../../../c/./d" = "/c/d".
Proof. reflexivity. Qed.
Example resolve_abs : vpath.resolve "/a/b" "/x/y/" = "/x/y".
Proof. reflexivity. Qed.

(** ** Name maps *)

Lemma string_compare_refl (s : string) : String.compare s s = Eq.
Proof.
  pose proof (String.compare_antisym s s) as H.
  destruct (String.compare s s); simpl in H; congruence.
Qed.


Lemma comparer_Eq ic a b :
  SortedMap.comparer ic a b = Eq <-> canon ic a = canon ic b.
Proof.
  unfold SortedMap.comparer, canon, vpath.compareCaseInsensitive, vpath.compareCaseSensitive.
  destruct ic; split; intros H;
    try (apply String.compare_eq_iff in H; exact H);
    rewrite H; apply string_compare_refl.
Qed.

Lemma comparer_refl ic a : SortedMap.comparer ic a a = Eq.
Proof. apply comparer_Eq. reflexivity. Qed.

Section get_set.
Variable ic : bool.
Let cmp := SortedMap.comparer ic.

Lemma get_from_set_in_same k k' v l :
    cmp k' k = Eq -> SortedMap.get_from cmp k' (SortedMap.set_in cmp k v l) = Some v.
Proof.
    intros Hk. induction l as [|[k0 v0] l IH]; simpl.
    - rewrite Hk. reflexivity.
    - destruct (cmp k k0) eqn:E; simpl.
      + assert (cmp k' k0 = Eq) as ->; [|reflexivity].
        apply comparer_Eq. apply comparer_Eq in Hk, E. congruence.
      + rewrite Hk. reflexivity.
      + assert (cmp k' k0 <> Eq) as Hne.
        { intros H. apply comparer_Eq in H, Hk.
          assert (cmp k k0 = Eq) as H' by (apply comparer_Eq; congruence).
          unfold cmp in *. congruence. }
        destruct (cmp k' k0); [congruence| |]; exact IH.
Qed.

Lemma get_from_set_in_other k k' v l :
    cmp k' k <> Eq -> SortedMap.get_from cmp k' (SortedMap.set_in cmp k v l) = SortedMap.get_from cmp k' l.
Proof.
    intros Hk. induction l as [|[k0 v0] l IH]; simpl.
    - destruct (cmp k' k); [congruence| |]; reflexivity.
    - destruct (cmp k k0) eqn:E; simpl.
      + assert (cmp k' k0 <> Eq) as Hne.
        { intros H. apply Hk. apply comparer_Eq. apply comparer_Eq in H, E. congruence. }
        destruct (cmp k' k0); [congruence| |]; reflexivity.
      + destruct (cmp k' k); [congruence| |]; reflexivity.
      + destruct (cmp k' k0); [reflexivity| |]; exact IH.
Qed.

Lemma get_from_delete_in_same k k' l :
    cmp k' k = Eq -> SortedMap.get_from cmp k' (SortedMap.delete_in cmp k l) = None.
Proof.
    intros Hk. induction l as [|[k0 v0] l IH]; simpl; [reflexivity|].
    destruct (cmp k k0) eqn:E; simpl; try exact IH.
    - assert (cmp k' k0 <> Eq) as Hne.
      { intros H. apply comparer_Eq in H, Hk.
        assert (cmp k k0 = Eq) as H' by (apply comparer_Eq; congruence).
        unfold cmp in *. congruence. }
      destruct (cmp k' k0); [congruence| |]; exact IH.
    - assert (cmp k' k0 <> Eq) as Hne.
      { intros H. apply comparer_Eq in H, Hk.
        assert (cmp k k0 = Eq) as H' by (apply comparer_Eq; congruence).
        unfold cmp in *. congruence. }
      destruct (cmp k' k0); [congruence| |]; exact IH.
Qed.

Lemma get_from_delete_in_other k k' l :
    cmp k' k <> Eq -> SortedMap.get_from cmp k' (SortedMap.delete_in cmp k l) = SortedMap.get_from cmp k' l.
Proof.
    intros Hk. induction l as [|[k0 v0] l IH]; simpl; [reflexivity|].
    destruct (cmp k k0) eqn:E; simpl.
    - assert (cmp k' k0 <> Eq) as Hne.
      { intros H. apply Hk. apply comparer_Eq. apply comparer_Eq in H, E. congruence. }
      destruct (cmp k' k0); [congruence| |]; exact IH.
    - destruct (cmp k' k0); [reflexivity| |]; exact IH.
    - destruct (cmp k' k0); [reflexivity| |]; exact IH.
Qed.
End get_set.


Lemma get_set_same m k k' v :
  same_key m k' k -> SortedMap.get k' (SortedMap.set k v m) = Some v.
Proof. intros H. unfold SortedMap.get, SortedMap.set. simpl. apply get_from_set_in_same, H. Qed.

Lemma get_set_other m k k' v :
  ~ same_key m k' k -> SortedMap.get k' (SortedMap.set k v m) = SortedMap.get k' m.
Proof. intros H. unfold SortedMap.get, SortedMap.set. simpl. apply get_from_set_in_other, H. Qed.

Lemma get_delete_same m k k' :
  same_key m k' k -> SortedMap.get k' (SortedMap.delete k m) = None.
Proof. intros H. unfold SortedMap.get, SortedMap.delete. simpl. apply get_from_delete_in_same, H. Qed.

Lemma get_delete_other m k k' :
  ~ same_key m k' k -> SortedMap.get k' (SortedMap.delete k m) = SortedMap.get k' m.
Proof. intros H. unfold SortedMap.get, SortedMap.delete. simpl. apply get_from_delete_in_other, H. Qed.

Lemma same_key_refl m k : same_key m k k.
Proof. apply comparer_refl. Qed.

Lemma same_key_sym m a b : same_key m a b -> same_key m b a.
Proof. unfold same_key. rewrite !comparer_Eq. congruence. Qed.

Lemma same_key_dec m a b : {same_key m a b} + {~ same_key m a b}.
Proof.
  unfold same_key. destruct (SortedMap.comparer _ a b); [left|right|right]; congruence.
Qed.



(** ** Reading the store after an update *)

Lemma inode_at_insert w a b i :
  inode_at (with_inodes (<[a := i]> (inodes w)) w) b =
  if decide (a = b /\ (a < List.length (inodes w))%nat) then i else inode_at w b.
Proof.
  unfold inode_at, with_inodes; simpl.
  rewrite !nth_lookup.
  destruct (decide (a = b /\ (a < List.length (inodes w))%nat)) as [[-> Hlt]|Hn].
  - rewrite list_lookup_insert_eq by exact Hlt. reflexivity.
  - destruct (decide (a = b)) as [->|Hne].
    + rewrite list_insert_ge by lia. reflexivity.
    + rewrite list_lookup_insert_ne by exact Hne. reflexivity.
Qed.

Lemma inode_at_insert_same w a i :
  (a < List.length (inodes w))%nat ->
  inode_at (with_inodes (<[a := i]> (inodes w)) w) a = i.
Proof. intros H. rewrite inode_at_insert. destruct (decide _) as [|Hn]; [reflexivity|]. tauto. Qed.

Lemma inode_at_insert_other w a b i :
  a <> b -> inode_at (with_inodes (<[a := i]> (inodes w)) w) b = inode_at w b.
Proof. intros H. rewrite inode_at_insert. destruct (decide _) as [[? ?]|Hn]; [tauto|reflexivity]. Qed.

Lemma inode_at_app_old w a i :
  (a < List.length (inodes w))%nat ->
  inode_at (with_inodes (inodes w ++ [i]) w) a = inode_at w a.
Proof. intros H. unfold inode_at, with_inodes; simpl. apply app_nth1, H. Qed.


Lemma inode_at_dangling w a :
  (List.length (inodes w) <= a)%nat -> inode_at w a = Inode.blank.
Proof. intros H. unfold inode_at. apply nth_overflow, H. Qed.

Lemma fs_at_insert w a b f :
  fs_at (with_fileSystems (<[a := f]> (fileSystems w)) w) b =
  if decide (a = b /\ (a < List.length (fileSystems w))%nat) then f else fs_at w b.
Proof.
  unfold fs_at, with_fileSystems; simpl.
  rewrite !nth_lookup.
  destruct (decide (a = b /\ (a < List.length (fileSystems w))%nat)) as [[-> Hlt]|Hn].
  - rewrite list_lookup_insert_eq by exact Hlt. reflexivity.
  - destruct (decide (a = b)) as [->|Hne].
    + rewrite list_insert_ge by lia. reflexivity.
    + rewrite list_lookup_insert_ne by exact Hne. reflexivity.
Qed.

Lemma fs_at_dangling w a :
  (List.length (fileSystems w) <= a)%nat -> fs_at w a = FileSystem.blank.
Proof. intros H. unfold fs_at. apply nth_overflow, H. Qed.

Lemma isDirectory_valid w a :
  isDirectory (Some (inode_at w a)) = true -> (a < List.length (inodes w))%nat.
Proof.
  intros H. destruct (Nat.lt_ge_cases a (List.length (inodes w))) as [?|Hge]; [assumption|].
  rewrite inode_at_dangling in H by exact Hge. discriminate H.
Qed.

Lemma isSymlink_valid w a :
  isSymlink (Some (inode_at w a)) = true -> (a < List.length (inodes w))%nat.
Proof.
  intros H. destruct (Nat.lt_ge_cases a (List.length (inodes w))) as [?|Hge]; [assumption|].
  rewrite inode_at_dangling in H by exact Hge. discriminate H.
Qed.

Lemma isFile_valid w a :
  isFile (Some (inode_at w a)) = true -> (a < List.length (inodes w))%nat.
Proof.
  intros H. destruct (Nat.lt_ge_cases a (List.length (inodes w))) as [?|Hge]; [assumption|].
  rewrite inode_at_dangling in H by exact Hge. discriminate H.
Qed.

(** ** Runs of [bind] *)

Lemma bind_Ok {A B} (c : M A) (k : A -> M B) w a w1 :
  c w = (Ok a, w1) -> bind c k w = k a w1.
Proof. intros H. unfold bind. rewrite H. reflexivity. Qed.

Lemma bind_Throw {A B} (c : M A) (k : A -> M B) w e w1 :
  c w = (Throw e, w1) -> bind c k w = (Throw e, w1).
Proof. intros H. unfold bind. rewrite H. reflexivity. Qed.

(** ** [keeps] and the relation [sees_but] *)

Lemma sub_map_refl m : sub_map m m.
Proof. intros k v H. exact H. Qed.

Lemma sub_map_trans m1 m2 m3 : sub_map m1 m2 -> sub_map m2 m3 -> sub_map m1 m3.
Proof. intros H1 H2 k v H. apply H2, H1, H. Qed.

Lemma sub_map_empty ic m : sub_map (SortedMap.empty ic) m.
Proof. intros k v H. discriminate H. Qed.

Lemma sub_map_set m k v :
  SortedMap.get k m = None -> sub_map m (SortedMap.set k v m).
Proof.
  intros Hnone k' v' H.
  destruct (same_key_dec m k' k) as [Hs|Hs].
  - exfalso. unfold SortedMap.get in *. unfold same_key in Hs.
    assert (SortedMap.get_from (SortedMap.comparer (SortedMap.caseInsensitive m)) k' (SortedMap.entries m)
            = SortedMap.get_from (SortedMap.comparer (SortedMap.caseInsensitive m)) k (SortedMap.entries m)) as Heq.
    { clear -Hs. induction (SortedMap.entries m) as [|[k0 v0] l IH]; simpl; [reflexivity|].
      assert (SortedMap.comparer (SortedMap.caseInsensitive m) k' k0 = Eq <->
              SortedMap.comparer (SortedMap.caseInsensitive m) k k0 = Eq) as Hiff.
      { rewrite !comparer_Eq. apply comparer_Eq in Hs. split; congruence. }
      destruct (SortedMap.comparer _ k' k0) eqn:E1, (SortedMap.comparer _ k k0) eqn:E2;
        try reflexivity; try exact IH;
        try (destruct Hiff as [H1 H2]; try (specialize (H1 eq_refl); discriminate H1);
             try (specialize (H2 eq_refl); discriminate H2)). }
    congruence.
  - rewrite get_set_other by exact Hs. exact H.
Qed.

Lemma sees_but_refl X w : sees_but X w w.
Proof.
  constructor; intros; try tauto; try lia; eauto using sub_map_refl.
Qed.

Lemma sees_but_trans X w1 w2 w3 :
  sees_but X w1 w2 -> sees_but X w2 w3 -> sees_but X w1 w3.
Proof.
  intros H1 H2. constructor.
  - pose proof (sb_len _ _ _ H1). pose proof (sb_len _ _ _ H2). lia.
  - rewrite (sb_fslen _ _ _ H1). apply (sb_fslen _ _ _ H2).
  - intros a Ha.
    pose proof (sb_len _ _ _ H1) as Hl.
    destruct (sb_id _ _ _ H1 a Ha) as (?&?&?&?&?).
    destruct (sb_id _ _ _ H2 a ltac:(lia)) as (?&?&?&?&?).
    repeat split; congruence.
  - intros a m Hm.
    destruct (sb_links _ _ _ H1 a m Hm) as (m2 & Hm2 & Hs2).
    destruct (sb_links _ _ _ H2 a m2 Hm2) as (m3 & Hm3 & Hs3).
    exists m3. split; [exact Hm3|]. intros Hx. eapply sub_map_trans; eauto.
  - intros fs m Hm.
    destruct (sb_root _ _ _ H1 fs m Hm) as (m2 & Hm2 & Hs2).
    destruct (sb_root _ _ _ H2 fs m2 Hm2) as (m3 & Hm3 & Hs3).
    exists m3. split; [exact Hm3|]. intros Hx. eapply sub_map_trans; eauto.
  - intros fs.
    destruct (sb_fs _ _ _ H1 fs) as (?&?&?&?&?&?).
    destruct (sb_fs _ _ _ H2 fs) as (?&?&?&?&?&?).
    repeat split; congruence.
  - pose proof (sb_storeslen _ _ _ H1). pose proof (sb_storeslen _ _ _ H2). lia.
  - intros s Hs.
    pose proof (sb_storeslen _ _ _ H1) as Hl.
    rewrite (sb_stores _ _ _ H2) by lia. apply (sb_stores _ _ _ H1), Hs.
  - rewrite (sb_now _ _ _ H2). apply (sb_now _ _ _ H1).
Qed.

Section keeps_sees.
Variable X : LinksRef -> Prop.

Lemma keeps_ret {A} (a : A) : keeps (sees_but X) (ret a).
Proof. intros w. apply sees_but_refl. Qed.

Lemma keeps_throw {A} e : keeps (sees_but X) (@throw A e).
Proof. intros w. apply sees_but_refl. Qed.

Lemma keeps_gets {A} (f : World -> A) : keeps (sees_but X) (gets f).
Proof. intros w. apply sees_but_refl. Qed.

Lemma keeps_bind {A B} (c : M A) (k : A -> M B) :
  keeps (sees_but X) c -> (forall a, keeps (sees_but X) (k a)) -> keeps (sees_but X) (bind c k).
Proof.
  intros Hc Hk w. unfold bind. specialize (Hc w).
  destruct (c w) as [[a|e] w1]; simpl in *; [|exact Hc].
  eapply sees_but_trans; [exact Hc|]. apply Hk.
Qed.

(** An update of one inode that leaves alone what a walk reads. *)
Lemma keeps_modInode a (f : Inode.t -> Inode.t) :
  (forall i, Inode.mode (f i) = Inode.mode i /\ Inode.symlink (f i) = Inode.symlink i /\
             Inode.ino (f i) = Inode.ino i /\ Inode.dev (f i) = Inode.dev i /\
             Inode.shadowRoot (f i) = Inode.shadowRoot i) ->
  (forall i m, Inode.links i = Some m ->
               exists m', Inode.links (f i) = Some m' /\ (~ X (NodeLinks a) -> sub_map m m')) ->
  keeps (sees_but X) (modInode a f).
Proof.
  intros Hid Hlinks w. unfold modInode, modify, updInode; simpl.
  constructor; simpl; try reflexivity; try tauto; try lia.
  - rewrite length_insert. lia.
  - intros b Hb. rewrite inode_at_insert.
    destruct (decide _) as [[-> _]|_]; [apply Hid|tauto].
  - intros b m Hm. rewrite inode_at_insert.
    destruct (decide _) as [[-> _]|_]; [apply Hlinks; assumption|].
    exists m. split; [exact Hm|intros; apply sub_map_refl].
  - intros fs m Hm. exists m. split; [exact Hm|intros; apply sub_map_refl].
Qed.

Lemma keeps_allocInode i : keeps (sees_but X) (allocInode i).
Proof.
  intros w. unfold allocInode; simpl.
  constructor; simpl; try reflexivity; try tauto; try lia.
  - rewrite length_app. lia.
  - intros a Ha. rewrite inode_at_app_old by exact Ha. tauto.
  - intros a m Hm.
    assert (a < List.length (inodes w))%nat as Ha.
    { destruct (Nat.lt_ge_cases a (List.length (inodes w))) as [?|Hge]; [assumption|].
      rewrite inode_at_dangling in Hm by exact Hge. discriminate Hm. }
    rewrite inode_at_app_old by exact Ha. exists m. split; [exact Hm|intros; apply sub_map_refl].
  - intros fs m Hm. exists m. split; [exact Hm|intros; apply sub_map_refl].
Qed.

Lemma keeps_allocBuffer bytes : keeps (sees_but X) (allocBuffer bytes).
Proof.
  intros w. unfold allocBuffer; simpl.
  constructor; simpl; try reflexivity; try tauto; try lia.
  - intros a m Hm. exists m. split; [exact Hm|intros; apply sub_map_refl].
  - intros fs m Hm. exists m. split; [exact Hm|intros; apply sub_map_refl].
  - rewrite length_app. lia.
  - intros s Hs. unfold store_at; simpl. apply app_nth1, Hs.
Qed.

(** An update of one file system that touches its lazily built fields
    only, and only grows its root map. *)
Lemma keeps_modFS fs (f : FileSystem.t -> FileSystem.t) :
  (forall g, FileSystem._cwd (f g) = FileSystem._cwd g /\
             FileSystem.frozen (f g) = FileSystem.frozen g /\
             FileSystem.ignoreCase (f g) = FileSystem.ignoreCase g /\
             FileSystem._time (f g) = FileSystem._time g /\
             FileSystem._shadowRoot (f g) = FileSystem._shadowRoot g /\
             FileSystem._dirStack (f g) = FileSystem._dirStack g) ->
  (forall g m, FileSystem.lazy_links g = Some m ->
               exists m', FileSystem.lazy_links (f g) = Some m' /\ (~ X (RootLinks fs) -> sub_map m m')) ->
  keeps (sees_but X) (modFS fs f).
Proof.
  intros Hid Hlinks w. unfold modFS, modify, updFS; simpl.
  constructor; simpl; try reflexivity; try tauto; try lia.
  - rewrite length_insert. reflexivity.
  - intros a m Hm. exists m. split; [exact Hm|intros; apply sub_map_refl].
  - intros fs' m Hm. rewrite fs_at_insert.
    destruct (decide _) as [[-> _]|_]; [apply Hlinks; assumption|].
    exists m. split; [exact Hm|intros; apply sub_map_refl].
  - intros fs'. rewrite fs_at_insert.
    destruct (decide _) as [[-> _]|_]; [apply Hid|tauto].
Qed.

Lemma keeps_modify_counter (f : World -> World) :
  (forall w, fileSystems (f w) = fileSystems w /\ inodes (f w) = inodes w /\
             stores (f w) = stores w /\ now (f w) = now w) ->
  keeps (sees_but X) (modify f).
Proof.
  intros Hf w. unfold modify; simpl. destruct (Hf w) as (Hfs & Hi & Hs & Hn).
  constructor; unfold inode_at, fs_at, store_at; rewrite ?Hfs, ?Hi, ?Hs, ?Hn;
    try reflexivity; try tauto; try lia.
  - intros a m Hm. exists m. split; [exact Hm|intros; apply sub_map_refl].
  - intros fs m Hm. exists m. split; [exact Hm|intros; apply sub_map_refl].
Qed.

End keeps_sees.

(** Proof steps for goals [keeps (sees_but X) c], chosen by the head of
    the computation: split a bind, close a state-free primitive, case on
    the scrutinee of a [match]. *)
Ltac keeps_links_goal :=
  intros [] ? ?; simpl in *;
  first [ eexists; split; [eassumption|intros; apply sub_map_refl]
        | eexists; split; [reflexivity|intros; first [contradiction|apply sub_map_refl|apply sub_map_empty]]
        | match goal with H : ?l = Some _ |- _ => subst l; simpl;
            eexists; split; [reflexivity|intros Hn; exfalso; apply Hn; reflexivity] end
        | congruence ].

Ltac keeps_step :=
  lazymatch goal with
  | |- keeps _ (bind _ _) => apply keeps_bind; [ | intros ? ]
  | |- keeps _ (ret _) => apply keeps_ret
  | |- keeps _ (throw _) => apply keeps_throw
  | |- keeps _ (gets _) => apply keeps_gets
  | |- keeps _ (getFS _) => apply keeps_gets
  | |- keeps _ (getInode _) => apply keeps_gets
  | |- keeps _ (isReadonly _) => apply keeps_gets
  | |- keeps _ (links_get _ _) => apply keeps_gets
  | |- keeps _ (links_size _) => apply keeps_gets
  | |- keeps _ (links_entries _) => apply keeps_gets
  | |- keeps _ (allocInode _) => apply keeps_allocInode
  | |- keeps _ (allocBuffer _) => apply keeps_allocBuffer
  | |- keeps _ (modInode _ _) =>
      apply keeps_modInode; [ intros []; simpl; tauto | keeps_links_goal ]
  | |- keeps _ (modFS _ _) =>
      apply keeps_modFS; [ intros []; simpl; tauto | keeps_links_goal ]
  | |- keeps _ (modify _) => apply keeps_modify_counter; intros []; simpl; tauto
  | |- keeps _ (match ?e with _ => _ end) => destruct e
  end.

Ltac keeps_tac := repeat keeps_step.

(** ** Reading through [updInode] and [updFS] *)

Lemma inode_at_updInode a f w b :
  inode_at (updInode a f w) b =
  if decide (a = b /\ (a < List.length (inodes w))%nat) then f (inode_at w a) else inode_at w b.
Proof. apply inode_at_insert. Qed.

Lemma inode_at_updInode_same a f w :
  (a < List.length (inodes w))%nat -> inode_at (updInode a f w) a = f (inode_at w a).
Proof. apply inode_at_insert_same. Qed.

Lemma inode_at_updInode_other a f w b :
  a <> b -> inode_at (updInode a f w) b = inode_at w b.
Proof. apply inode_at_insert_other. Qed.

Lemma inodes_length_updInode a f w :
  List.length (inodes (updInode a f w)) = List.length (inodes w).
Proof. unfold updInode; simpl. apply length_insert. Qed.

Lemma fs_at_updInode a f w fs : fs_at (updInode a f w) fs = fs_at w fs.
Proof. reflexivity. Qed.

Lemma fileSystems_updInode a f w : fileSystems (updInode a f w) = fileSystems w.
Proof. reflexivity. Qed.

Lemma stores_updInode a f w : stores (updInode a f w) = stores w.
Proof. reflexivity. Qed.

Lemma fs_at_updFS fs f w fs' :
  fs_at (updFS fs f w) fs' =
  if decide (fs = fs' /\ (fs < List.length (fileSystems w))%nat) then f (fs_at w fs) else fs_at w fs'.
Proof. apply fs_at_insert. Qed.

Lemma fs_at_updFS_same fs f w :
  (fs < List.length (fileSystems w))%nat -> fs_at (updFS fs f w) fs = f (fs_at w fs).
Proof.
  intros H. rewrite fs_at_updFS. destruct (decide _) as [|Hn]; [reflexivity|]. tauto.
Qed.


Lemma fileSystems_length_updFS fs f w :
  List.length (fileSystems (updFS fs f w)) = List.length (fileSystems w).
Proof. unfold updFS; simpl. apply length_insert. Qed.

Lemma inode_at_updFS fs f w a : inode_at (updFS fs f w) a = inode_at w a.
Proof. reflexivity. Qed.

Lemma inodes_updFS fs f w : inodes (updFS fs f w) = inodes w.
Proof. reflexivity. Qed.


(** ** Running the primitives *)

Lemma bind_gets {A B} (f : World -> A) (k : A -> M B) w : bind (gets f) k w = k (f w) w.
Proof. reflexivity. Qed.

Lemma bind_ret {A B} (a : A) (k : A -> M B) w : bind (ret a) k w = k a w.
Proof. reflexivity. Qed.

Lemma bind_throw {A B} e (k : A -> M B) w : bind (throw e) k w = (Throw e, w).
Proof. reflexivity. Qed.

Lemma bind_modify {B} (f : World -> World) (k : unit -> M B) w : bind (modify f) k w = k tt (f w).
Proof. reflexivity. Qed.

Lemma bind_bind {A B C} (c : M A) (k : A -> M B) (h : B -> M C) w :
  bind (bind c k) h w = bind c (fun a => bind (k a) h) w.
Proof. unfold bind. destruct (c w) as [[a|e] w1]; reflexivity. Qed.

Lemma run_modify (f : World -> World) w : modify f w = (Ok tt, f w).
Proof. reflexivity. Qed.

Lemma run_gets {A} (f : World -> A) w : gets f w = (Ok (f w), w).
Proof. reflexivity. Qed.

Lemma run_ret {A} (a : A) w : ret a w = (Ok a, w).
Proof. reflexivity. Qed.

Lemma run_throw {A} e w : @throw A e w = (Throw e, w).
Proof. reflexivity. Qed.

(** Stepping a hypothesis or the goal through the primitives at the
    head of a computation. *)
Ltac mrun_in H :=
  repeat first
    [ progress unfold getFS, getInode, isReadonly, links_get, links_size, links_entries,
        modInode, modFS in H
    | rewrite bind_gets in H | rewrite bind_ret in H | rewrite bind_modify in H
    | rewrite bind_throw in H
    | rewrite run_modify in H | rewrite run_gets in H | rewrite run_ret in H
    | rewrite run_throw in H ].

Ltac mrun :=
  repeat first
    [ progress unfold getFS, getInode, isReadonly, links_get, links_size, links_entries,
        modInode, modFS
    | rewrite bind_gets | rewrite bind_ret | rewrite bind_modify | rewrite bind_throw
    | rewrite run_modify | rewrite run_gets | rewrite run_ret | rewrite run_throw ].

(** ** The getters and the walker only add to what can be seen *)

Lemma keeps_time_read X fs : keeps (sees_but X) (time fs None).
Proof. unfold time. keeps_tac. Qed.

Lemma keeps_time_or_now X fs t : keeps (sees_but X) (time_or_now fs t).
Proof. unfold time_or_now. destruct t; [apply keeps_ret|apply keeps_time_read]. Qed.

Lemma keeps_mknod X fs dev type mode t : keeps (sees_but X) (_mknod fs dev type mode t).
Proof.
  unfold _mknod. apply keeps_bind; [apply keeps_time_or_now|intros ?]. keeps_tac.
Qed.

Lemma keeps_validated X p flags : keeps (sees_but X) (validated p flags).
Proof. unfold validated. keeps_tac. Qed.

Lemma keeps_resolve X fs p : keeps (sees_but X) (_resolve fs p).
Proof.
  unfold _resolve. apply keeps_bind; [keeps_step|intros f].
  destruct (negb _); [|apply keeps_validated].
  apply keeps_bind; [apply keeps_validated|intros ?]. keeps_step.
Qed.

Lemma keeps_links_update (X : LinksRef -> Prop) r f :
  X r -> keeps (sees_but X) (links_update r f).
Proof.
  intros HX. destruct r as [fs|a]; unfold links_update.
  - apply keeps_modFS; [intros []; simpl; tauto|].
    intros [] m Hm; simpl in *. subst. simpl. eexists. split; [reflexivity|]. intros Hn. contradiction.
  - apply keeps_modInode; [intros []; simpl; tauto|].
    intros [] m Hm; simpl in *. subst. simpl. eexists. split; [reflexivity|]. intros Hn. contradiction.
Qed.

Lemma keeps_addLink (X : LinksRef -> Prop) fs p links name node t :
  X links -> keeps (sees_but X) (_addLink fs (Some p) links name node t).
Proof.
  intros HX. unfold _addLink, links_set. simpl.
  apply keeps_bind; [apply keeps_time_or_now|intros ?].
  apply keeps_bind; [apply keeps_links_update, HX|intros ?].
  keeps_tac.
Qed.

Lemma keeps_getShadow X fs root : keeps (sees_but X) (_getShadow fs root).
Proof. unfold _getShadow. keeps_tac. Qed.

Lemma keeps_copyShadowLinks X fs source target :
  keeps (sees_but X) (_copyShadowLinks fs source target).
Proof.
  revert target. induction source as [|[name root] source IH]; intros target; simpl.
  - apply keeps_ret.
  - apply keeps_bind; [apply keeps_getShadow|]. intros shadow. apply IH.
Qed.

Lemma sees_but_weaken (X Y : LinksRef -> Prop) w w' :
  (forall r, X r -> Y r) -> sees_but X w w' -> sees_but Y w w'.
Proof.
  intros HXY H. constructor; try apply H.
  - intros a m Hm. destruct (sb_links _ _ _ H a m Hm) as (m' & ? & ?). exists m'. split; auto.
  - intros fs m Hm. destruct (sb_root _ _ _ H fs m Hm) as (m' & ? & ?). exists m'. split; auto.
Qed.

Lemma keeps_weaken {A} (X Y : LinksRef -> Prop) (c : M A) :
  (forall r, X r -> Y r) -> keeps (sees_but X) c -> keeps (sees_but Y) c.
Proof. intros HXY H w. eapply sees_but_weaken; [exact HXY|apply H]. Qed.

(** An excepted slot that held no map does not count. *)
Lemma sees_but_close (X : LinksRef -> Prop) w w' :
  (forall r, X r -> links_of w r = None) -> sees_but X w w' -> sees w w'.
Proof.
  intros Hnone H. constructor; try apply H.
  - intros a m Hm. destruct (sb_links _ _ _ H a m Hm) as (m' & ? & Hs). exists m'. split; [assumption|].
    intros _. apply Hs. intros HX. apply Hnone in HX. simpl in HX. congruence.
  - intros fs m Hm. destruct (sb_root _ _ _ H fs m Hm) as (m' & ? & Hs). exists m'. split; [assumption|].
    intros _. apply Hs. intros HX. apply Hnone in HX. simpl in HX. congruence.
Qed.

Lemma sees_refl w : sees w w.
Proof. apply sees_but_refl. Qed.

Lemma sees_trans w1 w2 w3 : sees w1 w2 -> sees w2 w3 -> sees w1 w3.
Proof. apply sees_but_trans. Qed.

Lemma sees_any X w w' : sees w w' -> sees_but X w w'.
Proof. apply sees_but_weaken. intros r []. Qed.

Lemma keeps_any {A} X (c : M A) : keeps sees c -> keeps (sees_but X) c.
Proof. apply keeps_weaken. intros r []. Qed.

Lemma keeps_getRootLinks_rec k fs : keeps sees (_getRootLinks_rec k fs).
Proof.
  revert fs. induction k as [|k IH]; intros fs; simpl.
  - apply keeps_throw.
  - intros w. unfold bind at 1, getFS, gets. simpl.
    destruct (FileSystem.lazy_links (fs_at w fs)) eqn:Hl.
    + apply sees_refl.
    + apply (sees_but_close (fun r => r = RootLinks fs)).
      { intros r ->. exact Hl. }
      match goal with |- sees_but _ _ (snd (?c w)) =>
        enough (keeps (sees_but (fun r => r = RootLinks fs)) c) as Hk by apply Hk end.
      apply keeps_bind; [keeps_step|intros ?].
      apply keeps_bind; [|intros ?; keeps_step].
      destruct (FileSystem._shadowRoot (fs_at w fs)) as [sr|]; [|keeps_step].
      apply keeps_bind; [apply keeps_any, IH|intros ?].
      apply keeps_bind; [keeps_step|intros ?].
      apply keeps_bind; [apply keeps_copyShadowLinks|intros ?].
      keeps_step.
Qed.

Lemma keeps_getRootLinks fs : keeps sees (_getRootLinks fs).
Proof. apply keeps_getRootLinks_rec. Qed.

Lemma keeps_expandMount fs node source resolver names :
  keeps (sees_but (fun r => r = NodeLinks node)) (expandMount fs node source resolver names).
Proof.
  induction names as [|name names IH]; simpl.
  - apply keeps_ret.
  - apply keeps_bind; [keeps_step|intros n].
    apply keeps_bind; [|intros ?; exact IH].
    destruct (_ =? S_IFDIR).
    + apply keeps_bind; [apply keeps_mknod|intros ?].
      apply keeps_bind; [keeps_step|intros ?].
      apply keeps_bind; [keeps_step|intros ?].
      apply keeps_addLink. reflexivity.
    + destruct (_ =? S_IFREG); [|keeps_step].
      apply keeps_bind; [apply keeps_mknod|intros ?].
      apply keeps_bind; [keeps_step|intros ?].
      apply keeps_bind; [keeps_step|intros ?].
      apply keeps_bind; [keeps_step|intros ?].
      apply keeps_addLink. reflexivity.
Qed.

Lemma keeps_getLinks_rec k fs node : keeps sees (_getLinks_rec k fs node).
Proof.
  revert fs node. induction k as [|k IH]; intros fs node; simpl.
  - apply keeps_throw.
  - intros w. unfold bind at 1, getInode, gets. simpl.
    destruct (Inode.links (inode_at w node)) eqn:Hl.
    + apply sees_refl.
    + apply (sees_but_close (fun r => r = NodeLinks node)).
      { intros r ->. exact Hl. }
      match goal with |- sees_but _ _ (snd (?c w)) =>
        enough (keeps (sees_but (fun r => r = NodeLinks node)) c) as Hk by apply Hk end.
      apply keeps_bind; [keeps_step|intros f].
      apply keeps_bind; [|intros ?; keeps_step].
      assert (keeps (sees_but (fun r => r = NodeLinks node))
                match FileSystem._shadowRoot f, Inode.shadowRoot (inode_at w node) with
                | Some sr, Some root =>
                    (src <- _getLinks_rec k sr root ;;
                     source <- links_entries src ;;
                     filled <- _copyShadowLinks fs source (SortedMap.empty (FileSystem.ignoreCase f)) ;;
                     modInode node (Inode.set_links (Some filled)))
                | _, _ => modInode node (Inode.set_links (Some (SortedMap.empty (FileSystem.ignoreCase f))))
                end) as Hshadow.
      { destruct (FileSystem._shadowRoot f) as [sr|]; [|keeps_step].
        destruct (Inode.shadowRoot (inode_at w node)) as [root|]; [|keeps_step].
        apply keeps_bind; [apply keeps_any, IH|intros ?].
        apply keeps_bind; [keeps_step|intros ?].
        apply keeps_bind; [apply keeps_copyShadowLinks|intros ?].
        keeps_step. }
      destruct (truthy (Inode.source (inode_at w node))) as [source|]; [|exact Hshadow].
      destruct (Inode.resolver (inode_at w node)) as [resolver|]; [|exact Hshadow].
      apply keeps_bind; [keeps_step|intros ?].
      apply keeps_bind; [keeps_step|intros ?].
      apply keeps_bind; [keeps_step|intros ?].
      apply keeps_expandMount.
Qed.

Lemma keeps_getLinks fs node : keeps sees (_getLinks fs node).
Proof. apply keeps_getLinks_rec. Qed.

Lemma keeps_getSize_rec X k fs node : keeps (sees_but X) (_getSize_rec k fs node).
Proof.
  revert fs node. induction k as [|k IH]; intros fs node; simpl.
  - apply keeps_throw.
  - apply keeps_bind; [keeps_step|intros n]. apply keeps_bind; [keeps_step|intros f].
    destruct (Inode.buffer n); [keeps_step|]. destruct (Inode.size n); [keeps_step|].
    assert (keeps (sees_but X)
              match FileSystem._shadowRoot f, Inode.shadowRoot n with
              | Some sr, Some root =>
                  (sz <- _getSize_rec k sr root ;; modInode node (Inode.set_size (Some sz)) ;; ret sz)
              | _, _ => ret 0
              end) as Hshadow.
    { destruct (FileSystem._shadowRoot f); [|keeps_step].
      destruct (Inode.shadowRoot n); [|keeps_step].
      apply keeps_bind; [apply IH|intros ?]. keeps_tac. }
    destruct (truthy (Inode.source n)); [|exact Hshadow].
    destruct (Inode.resolver n); [|exact Hshadow]. keeps_tac.
Qed.

Lemma keeps_getBuffer_rec X k fs node : keeps (sees_but X) (_getBuffer_rec k fs node).
Proof.
  revert fs node. induction k as [|k IH]; intros fs node; simpl.
  - apply keeps_throw.
  - apply keeps_bind; [keeps_step|intros n]. apply keeps_bind; [keeps_step|intros f].
    destruct (Inode.buffer n); [keeps_step|].
    assert (keeps (sees_but X)
              match FileSystem._shadowRoot f, Inode.shadowRoot n with
              | Some sr, Some root =>
                  (b <- _getBuffer_rec k sr root ;; modInode node (Inode.set_buffer (Some b)) ;; ret b)
              | _, _ =>
                  (b <- allocBuffer [] ;; modInode node (Inode.set_buffer (Some b)) ;; ret b)
              end) as Hshadow.
    { destruct (FileSystem._shadowRoot f); [|keeps_tac].
      destruct (Inode.shadowRoot n); [|keeps_tac].
      apply keeps_bind; [apply IH|intros ?]. keeps_tac. }
    destruct (truthy (Inode.source n)); [|exact Hshadow].
    destruct (Inode.resolver n); [|exact Hshadow]. keeps_tac.
Qed.

Lemma keeps_walk_steps fs nf links parent seen rest :
  keeps sees (walk_steps fs nf links parent seen rest).
Proof.
  revert links parent seen. induction rest as [|basename rest IH]; intros links parent seen; simpl.
  - apply keeps_throw.
  - apply keeps_bind; [keeps_step|intros node]. apply keeps_bind; [keeps_step|intros n].
    destruct (_ && _); [keeps_step|]. destruct node as [a|]; [|keeps_step].
    destruct (isSymlink n); [keeps_step|]. destruct (isDirectory n); [|keeps_step].
    apply keeps_bind; [apply keeps_getLinks|intros ?]. apply IH.
Qed.

Lemma keeps_walk_loop limit fs nf components :
  keeps sees (walk_loop limit fs nf components).
Proof.
  revert components. induction limit as [|limit IH]; intros components; simpl.
  - apply keeps_throw.
  - apply keeps_bind; [apply keeps_getRootLinks|intros ?].
    apply keeps_bind; [apply keeps_walk_steps|intros [r|cs]]; [keeps_step|apply IH].
Qed.

Lemma keeps_walk fs path nf : keeps sees (_walk fs path nf).
Proof. apply keeps_walk_loop. Qed.

(** Consequences for single runs. *)
Lemma run_sees {A} (c : M A) w r w' : keeps sees c -> c w = (r, w') -> sees w w'.
Proof. intros H E. specialize (H w). rewrite E in H. exact H. Qed.

(** ** A map that exists is returned as it is *)

Lemma getLinks_materialized fs a w m :
  Inode.links (inode_at w a) = Some m -> _getLinks fs a w = (Ok (NodeLinks a), w).
Proof.
  intros H. unfold _getLinks. simpl. mrun. rewrite H. reflexivity.
Qed.

Lemma getRootLinks_materialized fs w m :
  FileSystem.lazy_links (fs_at w fs) = Some m -> _getRootLinks fs w = (Ok (RootLinks fs), w).
Proof.
  intros H. unfold _getRootLinks. simpl. mrun. rewrite H. reflexivity.
Qed.

Lemma links_some_kept X w w' r m :
  sees_but X w w' -> links_of w r = Some m -> exists m', links_of w' r = Some m'.
Proof.
  intros H Hm. destruct r as [fs|a]; simpl in *.
  - destruct (sb_root _ _ _ H fs m Hm) as (m' & ? & _). eauto.
  - destruct (sb_links _ _ _ H a m Hm) as (m' & ? & _). eauto.
Qed.

Lemma lookup_kept w w' r key a :
  sees w w' -> lookup_in w r key = Some a -> lookup_in w' r key = Some a.
Proof.
  intros H. unfold lookup_in. destruct (links_of w r) as [m|] eqn:Hm; [|discriminate].
  intros Hget. destruct r as [fs|b]; simpl in *.
  - destruct (sb_root _ _ _ H fs m Hm) as (m' & -> & Hs). apply Hs; [tauto|exact Hget].
  - destruct (sb_links _ _ _ H b m Hm) as (m' & -> & Hs). apply Hs; [tauto|exact Hget].
Qed.

(** A run of [c] that keeps [sees_but X]: a map that exists before
    exists after, whatever the slot. *)
Lemma run_some_kept {A} X (c : M A) w r w' a m :
  keeps (sees_but X) c -> c w = (r, w') ->
  Inode.links (inode_at w a) = Some m ->
  exists m', Inode.links (inode_at w' a) = Some m'.
Proof.
  intros Hk E Hm. specialize (Hk w). rewrite E in Hk. simpl in Hk.
  destruct (sb_links _ _ _ Hk a m Hm) as (m' & ? & _). eauto.
Qed.

Lemma run_len {A} X (c : M A) w r w' :
  keeps (sees_but X) c -> c w = (r, w') ->
  (List.length (inodes w) <= List.length (inodes w'))%nat /\
  List.length (fileSystems w) = List.length (fileSystems w').
Proof.
  intros Hk E. specialize (Hk w). rewrite E in Hk. simpl in Hk.
  split; [apply (sb_len _ _ _ Hk)|apply (sb_fslen _ _ _ Hk)].
Qed.

Lemma getLinks_rec_post k fs a w l w' :
  _getLinks_rec k fs a w = (Ok l, w') ->
  (a < List.length (inodes w))%nat ->
  l = NodeLinks a /\ exists m, Inode.links (inode_at w' a) = Some m.
Proof.
  destruct k as [|k]; simpl; [discriminate|].
  intros H Ha. mrun_in H.
  destruct (Inode.links (inode_at w a)) as [m|] eqn:Hl.
  - inversion H; subst. eauto.
  - mrun_in H. mstep H. mrun_in H. inversion H; subst. split; [reflexivity|]. clear H.
    assert (match FileSystem._shadowRoot (fs_at w fs), Inode.shadowRoot (inode_at w a) with
            | Some sr, Some root =>
                (src <- _getLinks_rec k sr root ;;
                 source <- links_entries src ;;
                 filled <- _copyShadowLinks fs source (SortedMap.empty (FileSystem.ignoreCase (fs_at w fs))) ;;
                 modInode a (Inode.set_links (Some filled)))
            | _, _ => modInode a (Inode.set_links (Some (SortedMap.empty (FileSystem.ignoreCase (fs_at w fs)))))
            end w = (Ok a0, w') ->
            exists m, Inode.links (inode_at w' a) = Some m) as Hshadow.
    { intros H.
      destruct (FileSystem._shadowRoot (fs_at w fs)) as [sr|];
        [destruct (Inode.shadowRoot (inode_at w a)) as [root|]|].
      - mstep H. mstep H. mstep H. mrun_in H. inversion H; subst.
        destruct (run_len _ _ _ _ _ (keeps_getLinks_rec k sr root) E0) as [L1 _].
        destruct (run_len (fun _ => False) _ _ _ _ (keeps_gets _ _) E1) as [L2 _].
        destruct (run_len _ _ _ _ _ (keeps_copyShadowLinks (fun _ => False) fs _ _) E2) as [L3 _].
        rewrite inode_at_updInode_same by lia. simpl. eauto.
      - mrun_in H. inversion H; subst.
        rewrite inode_at_updInode_same by lia. simpl. eauto.
      - mrun_in H. inversion H; subst.
        rewrite inode_at_updInode_same by lia. simpl. eauto. }
    destruct (truthy (Inode.source (inode_at w a))) as [source|]; [|exact (Hshadow E)].
    destruct (Inode.resolver (inode_at w a)) as [resolver|]; [|exact (Hshadow E)].
    clear Hshadow. mrun_in E.
    eapply (run_some_kept _ _ _ _ _ a _ (keeps_expandMount fs a source resolver _) E).
    rewrite inode_at_updInode_same; [reflexivity|].
    rewrite !inodes_length_updInode. exact Ha.
Qed.

Lemma getLinks_post fs a w l w' :
  _getLinks fs a w = (Ok l, w') ->
  (a < List.length (inodes w))%nat ->
  l = NodeLinks a /\ exists m, Inode.links (inode_at w' a) = Some m.
Proof. apply getLinks_rec_post. Qed.

Lemma getRootLinks_post fs w l w' :
  _getRootLinks fs w = (Ok l, w') ->
  fs_valid w fs ->
  l = RootLinks fs /\ exists m, FileSystem.lazy_links (fs_at w' fs) = Some m.
Proof.
  unfold _getRootLinks, fs_valid. simpl. intros H Hv. mrun_in H.
  destruct (FileSystem.lazy_links (fs_at w fs)) as [m|] eqn:Hl.
  - inversion H; subst. eauto.
  - mrun_in H. mstep H. mrun_in H. inversion H; subst. split; [reflexivity|]. clear H.
    destruct (FileSystem._shadowRoot (fs_at w fs)) as [sr|] eqn:Hsr.
    + mstep E. mstep E. mstep E. mrun_in E. inversion E; subst.
      destruct (run_len _ _ _ _ _ (keeps_getRootLinks_rec fs sr) E0) as [_ L1].
      destruct (run_len (fun _ => False) _ _ _ _ (keeps_gets _ _) E1) as [_ L2].
      destruct (run_len _ _ _ _ _ (keeps_copyShadowLinks (fun _ => False) fs _ _) E2) as [_ L3].
      rewrite fileSystems_length_updFS in L1.
      rewrite fs_at_updFS_same by lia. simpl. eauto.
    + mrun_in E. inversion E; subst.
      rewrite fs_at_updFS_same by exact Hv. simpl. eauto.
Qed.

(** ** Walking again where the first walk's reads are still there *)

Lemma deref_kept w w' a :
  sees w w' -> (a < List.length (inodes w))%nat ->
  isSymlink (Some (inode_at w' a)) = isSymlink (Some (inode_at w a)) /\
  isDirectory (Some (inode_at w' a)) = isDirectory (Some (inode_at w a)) /\
  isFile (Some (inode_at w' a)) = isFile (Some (inode_at w a)) /\
  Inode.symlink (inode_at w' a) = Inode.symlink (inode_at w a).
Proof.
  intros H Ha. destruct (sb_id _ _ _ H a Ha) as (Hm & Hs & _).
  unfold isSymlink, isDirectory, isFile. rewrite Hm, Hs. tauto.
Qed.

(** One unfolding of [walk_steps]. *)
Lemma walk_steps_cons fs nf lk par seen b rest w :
  walk_steps fs nf lk par seen (b :: rest) w =
  let lastStep := match rest with [] => true | _ => false end in
  let nd := lookup_in w lk b in
  let n := deref w nd in
  if lastStep && (nf || negb (isSymlink n)) then
    (Ok (inl {| realpath := vpath.format (seen ++ b :: rest); basename := b;
                parent := par; links := lk; node := nd |}), w)
  else
    match nd with
    | None => (Throw (IOError ENOENT), w)
    | Some a =>
        if isSymlink n then
          (Ok (inr (vpath.parse (vpath.resolve (vpath.format seen)
                                   (default "" (n ≫= Inode.symlink))) ++ rest)%list), w)
        else if isDirectory n then
          bind (_getLinks fs a)
               (fun links' => walk_steps fs nf links' (Some a) (seen ++ [b])%list rest) w
        else (Throw (IOError ENOTDIR), w)
    end.
Proof.
  simpl. mrun. fold (lookup_in w lk b).
  destruct (_ && _); [reflexivity|].
  destruct (lookup_in w lk b) as [a|]; [|reflexivity].
  destruct (isSymlink _); [reflexivity|].
  destruct (isDirectory _); reflexivity.
Qed.

Lemma walk_steps_replay fs nf rest :
  forall lk par seen w o w1,
    walk_steps fs nf lk par seen rest w = (Ok o, w1) ->
    (exists m, links_of w lk = Some m) ->
    forall w', sees w1 w' ->
      match o with
      | inr cs => walk_steps fs nf lk par seen rest w' = (Ok (inr cs), w')
      | inl r =>
          (nf = true \/ isSymlink (deref w' (lookup_in w' (links r) (basename r))) = false) ->
          walk_steps fs nf lk par seen rest w' =
            (Ok (inl (with_node r (lookup_in w' (links r) (basename r)))), w')
      end.
Proof.
  induction rest as [|b rest IH]; intros lk par seen w o w1 H Hmat w' Hsees.
  - discriminate H.
  - pose proof (run_sees _ _ _ _ (keeps_walk_steps fs nf lk par seen (b :: rest)) H) as Hw.
    assert (sees w w') as Hww' by (eapply sees_trans; eassumption).
    rewrite walk_steps_cons in H. rewrite walk_steps_cons. cbv zeta in *.
    set (lastStep := match rest with [] => true | _ :: _ => false end) in *.
    destruct (lastStep && (nf || negb (isSymlink (deref w (lookup_in w lk b))))) eqn:Hcond.
    + (* the walk returned here *)
      inversion H; subst. simpl.
      intros Hx.
      assert (lastStep && (nf || negb (isSymlink (deref w' (lookup_in w' lk b)))) = true) as ->.
      { apply andb_prop in Hcond. destruct Hcond as [-> _]. simpl.
        destruct Hx as [-> | ->]; [reflexivity|]. apply orb_true_r. }
      reflexivity.
    + destruct (lookup_in w lk b) as [a|] eqn:Hlook; [|discriminate H].
      cbn [deref mbind option_bind] in H, Hcond.
      assert (lookup_in w' lk b = Some a) as Hlook' by (eapply lookup_kept; eassumption).
      rewrite Hlook'. cbn [deref mbind option_bind].
      destruct (isSymlink (Some (inode_at w a))) eqn:Hsym.
      * (* a splice *)
        inversion H; subst.
        destruct (deref_kept w1 w' a Hww' (isSymlink_valid _ _ Hsym)) as (Hs' & _ & _ & Htxt).
        rewrite Hs', Hsym, Htxt, Hcond. reflexivity.
      * destruct (isDirectory (Some (inode_at w a))) eqn:Hdir; [|discriminate H].
        mstep H.
        pose proof (isDirectory_valid _ _ Hdir) as Hva.
        destruct (getLinks_post _ _ _ _ _ E Hva) as (-> & m2 & Hm2).
        pose proof (run_sees _ _ _ _ (keeps_getLinks fs a) E) as Hw2.
        pose proof (run_sees _ _ _ _ (keeps_walk_steps fs nf _ _ _ _) H) as Hw3.
        destruct (deref_kept w w' a Hww' Hva) as (Hs' & Hd' & _ & _).
        specialize (IH (NodeLinks a) (Some a) (seen ++ [b])%list w0 o w1 H
                      ltac:(simpl; eauto) w' Hsees).
        assert (exists m3, Inode.links (inode_at w' a) = Some m3) as (m3 & Hm3).
        { assert (sees w0 w') as H0' by (eapply sees_trans; eassumption).
          destruct (sb_links _ _ _ H0' a m2 Hm2) as (m3 & ? & _). eauto. }
        rewrite Hs', Hd', Hsym, Hdir, Hcond.
        rewrite (bind_Ok _ _ _ _ _ (getLinks_materialized fs a w' m3 Hm3)). exact IH.
Qed.

Lemma walk_loop_replay fs nf limit :
  forall cs w r w1,
    walk_loop limit fs nf cs w = (Ok r, w1) ->
    fs_valid w fs ->
    forall w', sees w1 w' ->
      (nf = true \/ isSymlink (deref w' (lookup_in w' (links r) (basename r))) = false) ->
      walk_loop limit fs nf cs w' =
        (Ok (with_node r (lookup_in w' (links r) (basename r))), w').
Proof.
  induction limit as [|limit IH]; intros cs w r w1 H Hv w' Hsees Hx; simpl in H.
  - discriminate H.
  - mstep H. mstep H.
    destruct (getRootLinks_post _ _ _ _ E Hv) as (-> & m & Hm).
    pose proof (run_sees _ _ _ _ (keeps_getRootLinks fs) E) as Hw0.
    pose proof (run_sees _ _ _ _ (keeps_walk_steps fs nf _ _ _ _) E0) as Hw2.
    assert (sees w2 w') as Hw2'.
    { destruct a0 as [res|cs'].
      - mrun_in H. inversion H; subst. exact Hsees.
      - eapply sees_trans; [|exact Hsees].
        exact (run_sees _ _ _ _ (keeps_walk_loop limit fs nf cs') H). }
    assert (exists m', FileSystem.lazy_links (fs_at w' fs) = Some m') as (m' & Hm').
    { assert (sees w0 w') as H0' by (eapply sees_trans; eassumption).
      destruct (sb_root _ _ _ H0' fs m Hm) as (m' & ? & _). eauto. }
    pose proof (walk_steps_replay fs nf cs (RootLinks fs) None [] w0 a0 w2 E0
                  ltac:(simpl; eauto) w' Hw2') as Hrep.
    simpl.
    rewrite (bind_Ok _ _ _ _ _ (getRootLinks_materialized fs w' m' Hm')).
    destruct a0 as [res|cs'].
    + mrun_in H. inversion H; subst.
      rewrite (bind_Ok _ _ _ _ _ (Hrep Hx)). reflexivity.
    + rewrite (bind_Ok _ _ _ _ _ Hrep).
      apply (IH cs' w2 r w1 H); [|exact Hsees|exact Hx].
      unfold fs_valid in *.
      rewrite <- (sb_fslen _ _ _ Hw2), <- (sb_fslen _ _ _ Hw0). exact Hv.
Qed.

(** ** What a walk returns *)

Lemma walk_steps_inl fs nf rest :
  forall lk par seen w r w1,
    walk_steps fs nf lk par seen rest w = (Ok (inl r), w1) ->
    lk = slot_of fs par ->
    (forall p, par = Some p -> isDirectory (Some (inode_at w p)) = true) ->
    (exists m, links_of w lk = Some m) ->
    walk_result_ok fs nf w1 r /\
    realpath r = vpath.format (seen ++ rest) /\
    (parent r = None -> par = None /\ rest = [basename r]) /\
    (exists pre, rest = (pre ++ [basename r])%list).
Proof.
  induction rest as [|b rest IH]; intros lk par seen w r w1 H Hslot Hpar Hmat.
  - discriminate H.
  - rewrite walk_steps_cons in H. cbv zeta in H.
    destruct ((match rest with [] => true | _ :: _ => false end) &&
              (nf || negb (isSymlink (deref w (lookup_in w lk b))))) eqn:Hcond.
    + inversion H; subst. simpl.
      apply andb_prop in Hcond. destruct Hcond as [Hlast Hc].
      assert (rest = []) as -> by (destruct rest; [reflexivity|discriminate Hlast]).
      split; [|split; [reflexivity|split; [tauto|exists []; reflexivity]]].
      unfold walk_result_ok; cbn [node links basename parent]. split; [reflexivity|].
      split; [|tauto].
      apply orb_prop in Hc. destruct Hc as [-> | Hc]; [tauto|].
      right. apply negb_true_iff in Hc. exact Hc.
    + destruct (lookup_in w lk b) as [a|] eqn:Hlook; [|discriminate H].
      cbn [deref] in H.
      destruct (isSymlink (Some (inode_at w a))) eqn:Hsym; [discriminate H|].
      destruct (isDirectory (Some (inode_at w a))) eqn:Hdir; [|discriminate H].
      mstep H.
      pose proof (isDirectory_valid _ _ Hdir) as Hva.
      destruct (getLinks_post _ _ _ _ _ E Hva) as (-> & m2 & Hm2).
      pose proof (run_sees _ _ _ _ (keeps_getLinks fs a) E) as Hw0.
      destruct (deref_kept w w0 a Hw0 Hva) as (_ & Hd' & _ & _).
      destruct (IH (NodeLinks a) (Some a) (seen ++ [b])%list w0 r w1 H eq_refl)
        as (Hok & Hrp & Hnone & pre & Hpre).
      { intros p [= <-]. rewrite Hd'. exact Hdir. }
      { simpl. eauto. }
      split; [exact Hok|]. split; [rewrite Hrp, <- app_assoc; reflexivity|].
      split.
      * intros Hp. destruct (Hnone Hp) as [Habs _]. discriminate Habs.
      * exists (b :: pre). rewrite Hpre. reflexivity.
Qed.

Lemma fs_valid_sees w w' fs : sees w w' -> fs_valid w fs -> fs_valid w' fs.
Proof. intros H. unfold fs_valid. rewrite (sb_fslen _ _ _ H). tauto. Qed.

Lemma walk_loop_result fs nf limit :
  forall cs w r w1,
    walk_loop limit fs nf cs w = (Ok r, w1) ->
    fs_valid w fs ->
    walk_result_ok fs nf w1 r /\
    exists comps w0,
      sees w w0 /\
      (exists m, FileSystem.lazy_links (fs_at w0 fs) = Some m) /\
      walk_steps fs nf (RootLinks fs) None [] comps w0 = (Ok (inl r), w1) /\
      realpath r = vpath.format comps.
Proof.
  induction limit as [|limit IH]; intros cs w r w1 H Hv; simpl in H.
  - discriminate H.
  - mstep H. mstep H.
    destruct (getRootLinks_post _ _ _ _ E Hv) as (-> & m & Hm).
    pose proof (run_sees _ _ _ _ (keeps_getRootLinks fs) E) as Hw0.
    pose proof (run_sees _ _ _ _ (keeps_walk_steps fs nf _ _ _ _) E0) as Hw2.
    destruct a0 as [res|cs'].
    + mrun_in H. inversion H; subst.
      destruct (walk_steps_inl fs nf cs (RootLinks fs) None [] w0 r w1 E0 eq_refl) as (Hok & Hrp & _).
      { intros p Hp; discriminate Hp. }
      { simpl; eauto. }
      split; [exact Hok|]. exists cs, w0.
      split; [exact Hw0|]. split; [eauto|]. split; [exact E0|exact Hrp].
    + destruct (IH cs' w2 r w1 H) as (Hok & comps & w3 & Hs3 & Hm3 & Hst & Hrp).
      { eapply fs_valid_sees; [exact Hw2|]. eapply fs_valid_sees; [exact Hw0|exact Hv]. }
      split; [exact Hok|]. exists comps, w3.
      split; [|split; [exact Hm3|split; [exact Hst|exact Hrp]]].
      eapply sees_trans; [exact Hw0|]. eapply sees_trans; [exact Hw2|exact Hs3].
Qed.

(** Walking the same path again right away changes nothing. *)
Lemma walk_loop_again fs nf limit cs w r w1 :
  walk_loop limit fs nf cs w = (Ok r, w1) ->
  fs_valid w fs ->
  walk_loop limit fs nf cs w1 = (Ok r, w1).
Proof.
  intros H Hv.
  destruct (walk_loop_result fs nf limit cs w r w1 H Hv) as ((Hnode & Hsym & _) & _).
  pose proof (walk_loop_replay fs nf limit cs w r w1 H Hv w1 (sees_refl w1)) as Hrep.
  rewrite <- Hnode in Hrep.
  rewrite Hrep by exact Hsym. destruct r; reflexivity.
Qed.

(** ** The read-only guard *)

(** C1 (as stated, refuted): on a read-only file system [chdir] throws
    [EPERM], not [EROFS]. *)
Lemma chdir_readonly_not_EROFS :
  FileSystem.frozen (fs_at frozenWorld 0) = true /\
  chdir 0%nat "/a" frozenWorld = (Throw (IOError EPERM), frozenWorld) /\
  eval (chdir 0%nat "/a") frozenWorld <> Throw (IOError EROFS).
Proof.
  split; [reflexivity|]. split; [reflexivity|]. vm_compute. discriminate.
Qed.

(** C1 (amended): on a read-only file system, [mkdirSync], [rmdirSync],
    [linkSync], [unlinkSync], [renameSync], [symlinkSync],
    [writeFileSync] and [mountSync] throw [EROFS]; [chdir], [pushd],
    [popd] and [time] with a new clock throw [EPERM]; in every case the
    store is left exactly as it was. *)
Theorem readonly_guard (w : World) (fs : nat) :
  FileSystem.frozen (fs_at w fs) = true ->
  (forall p, mkdirSync fs p w = (Throw (IOError EROFS), w)) /\
  (forall p, rmdirSync fs p w = (Throw (IOError EROFS), w)) /\
  (forall p q, linkSync fs p q w = (Throw (IOError EROFS), w)) /\
  (forall p, unlinkSync fs p w = (Throw (IOError EROFS), w)) /\
  (forall p q, renameSync fs p q w = (Throw (IOError EROFS), w)) /\
  (forall t p, symlinkSync fs t p w = (Throw (IOError EROFS), w)) /\
  (forall p d e, writeFileSync fs p d e w = (Throw (IOError EROFS), w)) /\
  (forall s t r, mountSync fs s t r w = (Throw (IOError EROFS), w)) /\
  (forall p, chdir fs p w = (Throw (IOError EPERM), w)) /\
  (forall p, pushd fs p w = (Throw (IOError EPERM), w)) /\
  popd fs w = (Throw (IOError EPERM), w) /\
  (forall v, time fs (Some v) w = (Throw (IOError EPERM), w)).
Proof.
  intros H.
  repeat split; intros;
    unfold mkdirSync, rmdirSync, linkSync, unlinkSync, renameSync, symlinkSync,
      writeFileSync, mountSync, chdir, pushd, popd, time;
    mrun; rewrite H; reflexivity.
Qed.

Lemma readonly_guard_witness :
  FileSystem.frozen (fs_at frozenWorld 0) = true /\
  mkdirSync 0%nat "/c" frozenWorld = (Throw (IOError EROFS), frozenWorld) /\
  popd 0%nat frozenWorld = (Throw (IOError EPERM), frozenWorld).
Proof.
  split; [reflexivity|].
  pose proof (readonly_guard frozenWorld 0%nat eq_refl) as H.
  split; [apply H|apply H].
Defined.

(** ** Buffers are views *)

(** C2 (the code breaks it): [writeFileSync] keeps [data.slice()] and
    [readFileSync] hands out [buffer.slice()], both views on the store
    of the buffer they come from.  After writing the caller's buffer
    holding [1; 2; 3] to [/a/f], overwriting the first byte of that
    buffer changes what [readFileSync] returns; and overwriting the first
    byte of a buffer returned by [readFileSync] changes what the next
    [readFileSync] returns. *)
Theorem slice_shares_the_store :
  let data := {| bstore := 1%nat; boffset := 0%nat; byteLength := 3%nat |} in
  let w0 := exec (allocBuffer [Byte.x01; Byte.x02; Byte.x03]) populated in
  let w1 := exec (writeFileSync 0%nat "/a/f" (DBuffer data) None) w0 in
  let bytes_read w :=
    match readFileSync 0%nat "/a/f" None w with
    | (Ok (DBuffer b), w') => Some (buffer_bytes w' b)
    | _ => None
    end in
  buffer_bytes w0 data = [Byte.x01; Byte.x02; Byte.x03] /\
  bytes_read w1 = Some [Byte.x01; Byte.x02; Byte.x03] /\
  bytes_read (buffer_write data 0 Byte.x09 w1) = Some [Byte.x09; Byte.x02; Byte.x03] /\
  (exists b w2,
      readFileSync 0%nat "/a/f" None w1 = (Ok (DBuffer b), w2) /\
      bytes_read (buffer_write b 0 Byte.x09 w2) = Some [Byte.x09; Byte.x02; Byte.x03]).
Proof.
  cbv zeta. split; [reflexivity|]. split; [vm_compute; reflexivity|].
  split; [vm_compute; reflexivity|].
  eexists. eexists. split; [vm_compute; reflexivity|]. vm_compute. reflexivity.
Qed.

(** ** Link counts *)

(** C6 (the code breaks it): renaming a file onto its own name detaches
    the entry, which takes one off [nlink], and puts it back without
    adding one.  After [renameSync("/a/b.txt", "/a/b.txt")] the inode is
    still reachable under that name, one map entry refers to it, and its
    [nlink] is 0. *)
Theorem rename_onto_itself_drops_nlink :
  let w := exec (renameSync 0%nat "/a/b.txt" "/a/b.txt") populated in
  exists r w' a,
    _walk 0%nat "/a/b.txt" true w = (Ok r, w') /\
    node r = Some a /\
    entry_count w' a = 1%nat /\
    Inode.nlink (inode_at w' a) = 0 /\
    eval (lstatSync 0%nat "/a/b.txt") populated
      = Ok {| st_dev := 1; st_ino := 3; st_mode := 33188; st_nlink := 1; st_uid := 0;
              st_gid := 0; st_rdev := 0; st_size := 2; st_blksize := 4096; st_blocks := 0;
              st_atimeMs := 7; st_mtimeMs := 7; st_ctimeMs := 7; st_birthtimeMs := 7 |} /\
    eval (renameSync 0%nat "/a/b.txt" "/a/b.txt") populated = Ok tt.
Proof.
  cbv zeta. eexists. eexists. eexists.
  split; [vm_compute; reflexivity|].
  split; [reflexivity|].
  split; [vm_compute; reflexivity|].
  split; [vm_compute; reflexivity|].
  split; vm_compute; reflexivity.
Qed.

(** ** The depth limit of the walker *)

Lemma walk_loop_S limit fs nf cs w :
  walk_loop (S limit) fs nf cs w =
  match walk_pass fs nf cs w with
  | (Ok (inl r), w') => (Ok r, w')
  | (Ok (inr cs'), w') => walk_loop limit fs nf cs' w'
  | (Throw e, w') => (Throw e, w')
  end.
Proof.
  simpl. unfold walk_pass. rewrite <- bind_bind. unfold bind at 1.
  destruct (bind (_getRootLinks fs) _ w) as [[[r|cs']|e] w']; reflexivity.
Qed.

Lemma splices_ELOOP fs nf limit :
  forall cs w, splices fs nf limit cs w ->
    exists w', walk_loop limit fs nf cs w = (Throw (IOError ELOOP), w').
Proof.
  induction limit as [|limit IH]; intros cs w H.
  - exists w. reflexivity.
  - inversion H as [|n cs0 w0 cs' w' Hpass Hrest]; subst.
    rewrite walk_loop_S, Hpass. apply IH, Hrest.
Qed.

Lemma resolves_after_Ok fs nf n :
  forall limit cs w r w', (n < limit)%nat -> resolves_after fs nf n cs w r w' ->
    walk_loop limit fs nf cs w = (Ok r, w').
Proof.
  induction n as [|n IH]; intros limit cs w r w' Hlt H;
    (destruct limit as [|limit]; [lia|]); rewrite walk_loop_S.
  - inversion H as [cs0 w0 r0 w0' Hpass|]; subst. rewrite Hpass. reflexivity.
  - inversion H as [|n0 cs0 w0 cs' w1 r0 w0' Hpass Hrest]; subst.
    rewrite Hpass. apply IH; [lia|exact Hrest].
Qed.

(** C3: a path whose resolution goes through 40 or more symlink splices
    fails with [ELOOP], and one that ends after at most 39 splices is
    resolved with the result of its last pass.  A cycle of two symlinks
    fails with [ELOOP]; a chain of 39 symlinks in front of a file
    resolves, a chain of 40 does not. *)
Theorem symlink_depth_limit :
  (forall fs nf path w,
      splices fs nf 40 (vpath.parse path) w ->
      exists w', _walk fs path nf w = (Throw (IOError ELOOP), w')) /\
  (forall fs nf path w n r w',
      (n <= 39)%nat ->
      resolves_after fs nf n (vpath.parse path) w r w' ->
      _walk fs path nf w = (Ok r, w')) /\
  eval (statSync 0%nat "/x") cycleWorld = Throw (IOError ELOOP) /\
  eval (realpathSync 0%nat "/l1") (chainWorld 39) = Ok "/a/b.txt" /\
  eval (realpathSync 0%nat "/l1") (chainWorld 40) = Throw (IOError ELOOP).
Proof.
  split; [|split; [|split; [|split]]].
  - intros fs nf path w H. unfold _walk, maxDepth. apply splices_ELOOP, H.
  - intros fs nf path w n r w' Hn H. unfold _walk, maxDepth.
    eapply resolves_after_Ok; [|exact H]. lia.
  - vm_compute. reflexivity.
  - vm_compute. reflexivity.
  - vm_compute. reflexivity.
Qed.

Ltac splice_step := eapply splices_S; [vm_compute; reflexivity|].
Ltac resolve_step := eapply resolves_S; [vm_compute; reflexivity|].

Lemma symlink_depth_limit_witness :
  (exists w', _walk 0%nat "/x" false cycleWorld = (Throw (IOError ELOOP), w')) /\
  (exists r w', _walk 0%nat "/l1" false (chainWorld 39) = (Ok r, w') /\
                realpath r = "/a/b.txt").
Proof.
  destruct symlink_depth_limit as (Hloop & Hres & _).
  split.
  - apply Hloop. do 40 splice_step. apply splices_O.
  - eexists. eexists. split.
    + apply (Hres 0%nat false "/l1" (chainWorld 39) 39%nat); [lia|].
      do 39 resolve_step. apply resolves_O. vm_compute. reflexivity.
    + reflexivity.
Defined.

(** ** Walking one component further *)

(** The walk of [rest ++ [n]] is the (symlink-following) walk of [rest]
    followed by one step into the directory it found. *)
Lemma walk_steps_snoc fs nf n rest :
  rest <> [] ->
  forall lk par seen w,
    walk_steps fs nf lk par seen (rest ++ [n]) w =
    match walk_steps fs false lk par seen rest w with
    | (Ok (inl r), w1) =>
        match node r with
        | None => (Throw (IOError ENOENT), w1)
        | Some a =>
            if isDirectory (Some (inode_at w1 a))
            then bind (_getLinks fs a)
                      (fun l' => walk_steps fs nf l' (Some a) (seen ++ rest) [n]) w1
            else (Throw (IOError ENOTDIR), w1)
        end
    | (Ok (inr cs'), w1) => (Ok (inr (cs' ++ [n])%list), w1)
    | (Throw e, w1) => (Throw e, w1)
    end.
Proof.
  induction rest as [|b rest IH]; intros Hne lk par seen w; [congruence|].
  change ((b :: rest) ++ [n])%list with (b :: (rest ++ [n]))%list.
  rewrite !walk_steps_cons. cbv zeta.
  destruct rest as [|b2 rest].
  - (* [b] is the last component of [rest] *)
    cbn [app andb orb].
    destruct (lookup_in w lk b) as [a|] eqn:Hlook; cbn [deref].
    + destruct (isSymlink (Some (inode_at w a))) eqn:Hsym; cbn [negb].
      * cbn [mbind option_bind]. rewrite <- app_assoc. reflexivity.
      * cbn [node]. destruct (isDirectory (Some (inode_at w a))); reflexivity.
    + reflexivity.
  - cbn [andb app].
    destruct (lookup_in w lk b) as [a|] eqn:Hlook; [|reflexivity].
    cbn [deref].
    destruct (isSymlink (Some (inode_at w a))) eqn:Hsym.
    + cbn [mbind option_bind]. rewrite <- app_assoc. reflexivity.
    + destruct (isDirectory (Some (inode_at w a))) eqn:Hdir; [|reflexivity].
      destruct (_getLinks fs a w) as [[l'|e] w0] eqn:E.
      * rewrite !(bind_Ok _ _ _ _ _ E).
        rewrite (IH ltac:(congruence)).
        rewrite <- app_assoc. reflexivity.
      * rewrite !(bind_Throw _ _ _ _ _ E). reflexivity.
Qed.

Lemma walk_steps_realpath fs nf rest :
  forall lk par seen w r w1,
    walk_steps fs nf lk par seen rest w = (Ok (inl r), w1) ->
    realpath r = vpath.format (seen ++ rest).
Proof.
  induction rest as [|b rest IH]; intros lk par seen w r w1 H; [discriminate H|].
  rewrite walk_steps_cons in H. cbv zeta in H.
  destruct (_ && _).
  - inversion H; subst. reflexivity.
  - destruct (lookup_in w lk b) as [a|]; [|discriminate H]. cbn [deref] in H.
    destruct (isSymlink _); [discriminate H|].
    destruct (isDirectory _); [|discriminate H].
    mstep H. rewrite (IH _ _ _ _ _ _ H), <- app_assoc. reflexivity.
Qed.

Lemma parse_nonempty path : vpath.parse path <> [].
Proof.
  unfold vpath.parse. destruct path as [|c rest]; [discriminate|].
  destruct (vpath.is_sep c); discriminate.
Qed.

Lemma walk_steps_inr_nonempty fs nf rest :
  forall lk par seen w cs1 w1,
    walk_steps fs nf lk par seen rest w = (Ok (inr cs1), w1) -> cs1 <> [].
Proof.
  induction rest as [|b rest IH]; intros lk par seen w cs1 w1 H; [discriminate H|].
  rewrite walk_steps_cons in H. cbv zeta in H.
  destruct (_ && _); [discriminate H|].
  destruct (lookup_in w lk b) as [a|]; [|discriminate H]. cbn [deref] in H.
  destruct (isSymlink _).
  - inversion H; subst. intros Happ. apply app_eq_nil in Happ. destruct Happ as [Hp _].
    exact (parse_nonempty _ Hp).
  - destruct (isDirectory _); [|discriminate H].
    mstep H. exact (IH _ _ _ _ _ _ H).
Qed.

Lemma walk_loop_snoc fs nf n limit :
  forall cs w r w1 d l w2,
    cs <> [] ->
    walk_loop limit fs false cs w = (Ok r, w1) ->
    node r = Some d ->
    isDirectory (Some (inode_at w1 d)) = true ->
    _getLinks fs d w1 = (Ok l, w2) ->
    (nf = true \/ isSymlink (deref w2 (lookup_in w2 l n)) = false) ->
    exists comps,
      realpath r = vpath.format comps /\
      walk_loop limit fs nf (cs ++ [n]) w =
        (Ok {| realpath := vpath.format (comps ++ [n]); basename := n;
               parent := Some d; links := l; node := lookup_in w2 l n |}, w2).
Proof.
  induction limit as [|limit IH]; intros cs w r w1 d l w2 Hne H Hnode Hdir Hget Hx;
    [discriminate H|].
  rewrite walk_loop_S in H. rewrite walk_loop_S.
  unfold walk_pass in *.
  destruct (_getRootLinks fs w) as [[lr|e] w0] eqn:Eroot;
    [|rewrite (bind_Throw _ _ _ _ _ Eroot) in H; discriminate H].
  rewrite (bind_Ok _ _ _ _ _ Eroot) in H. rewrite (bind_Ok _ _ _ _ _ Eroot).
  rewrite (walk_steps_snoc fs nf n cs Hne).
  destruct (walk_steps fs false lr None [] cs w0) as [[[r'|cs']|e] w'] eqn:Est;
    [| |discriminate H].
  - inversion H; subst r' w'. rewrite Hnode, Hdir.
    rewrite (bind_Ok _ _ _ _ _ Hget). rewrite walk_steps_cons. cbv zeta.
    assert (true && (nf || negb (isSymlink (deref w2 (lookup_in w2 l n)))) = true) as ->.
    { destruct Hx as [-> | ->]; [reflexivity|]. simpl. apply orb_true_r. }
    exists cs. split; [apply (walk_steps_realpath _ _ _ _ _ _ _ _ _ Est)|reflexivity].
  - pose proof (walk_steps_inr_nonempty _ _ _ _ _ _ _ _ _ Est) as Hne'.
    apply (IH cs' w' r w1 d l w2 Hne' H Hnode Hdir Hget Hx).
Qed.

(** [_resolve] reads the working directory and changes nothing. *)
Lemma resolve_pure fs p w r w' : _resolve fs p w = (r, w') -> w' = w.
Proof.
  unfold _resolve, validated. mrun. intros H.
  destruct (negb _).
  - destruct (vpath.validate p vpath.RelativeOrAbsolute); mrun_in H; inversion H; reflexivity.
  - destruct (vpath.validate p vpath.Absolute); mrun_in H; inversion H; reflexivity.
Qed.

(** ** A missing last component *)



(** C9: on a writable file system, when the ancestors of [p] resolve to
    a directory [d] that has no entry for the last component [n],
    [rmdirSync(p)] throws [ENOTDIR] (the absent node fails the directory
    test), not [ENOENT]. *)
Theorem rmdir_of_missing_leaf fs w p q dir n rd w1 d l w2 :
  FileSystem.frozen (fs_at w fs) = false ->
  _resolve fs p w = (Ok q, w) ->
  vpath.parse q = (vpath.parse dir ++ [n])%list ->
  _walk fs dir false w = (Ok rd, w1) ->
  node rd = Some d ->
  isDirectory (Some (inode_at w1 d)) = true ->
  _getLinks fs d w1 = (Ok l, w2) ->
  lookup_in w2 l n = None ->
  rmdirSync fs p w = (Throw (IOError ENOTDIR), w2).
Proof.
  intros Hrw Hres Hparse Hwalk Hnode Hdir Hget Hnone.
  unfold _walk in Hwalk.
  destruct (walk_loop_snoc fs true n maxDepth (vpath.parse dir) w rd w1 d l w2
              (parse_nonempty dir) Hwalk Hnode Hdir Hget) as (comps & Hrp & Hloop).
  { left. reflexivity. }
  unfold rmdirSync. mrun. rewrite Hrw. rewrite (bind_Ok _ _ _ _ _ Hres).
  unfold _walk. rewrite Hparse. rewrite (bind_Ok _ _ _ _ _ Hloop).
  cbn [parent node]. mrun. rewrite Hnone. reflexivity.
Qed.

Lemma rmdir_of_missing_leaf_witness :
  rmdirSync 0%nat "/a/zz" populated = (Throw (IOError ENOTDIR), populated).
Proof.
  apply (rmdir_of_missing_leaf 0%nat populated "/a/zz" "/a/zz" "/a" "zz"
           {| realpath := "/a"; basename := "a"; parent := Some 0%nat;
              links := NodeLinks 0%nat; node := Some 1%nat |}
           populated 1%nat (NodeLinks 1%nat) populated);
    vm_compute; reflexivity.
Defined.

(** ** Attaching and detaching entries *)

Lemma links_at_updInode a f w b :
  links_at (updInode a f w) b =
  if decide (a = b /\ (a < List.length (inodes w))%nat) then Inode.links (f (inode_at w a))
  else links_at w b.
Proof. unfold links_at. rewrite inode_at_updInode. destruct (decide _); reflexivity. Qed.

Lemma links_at_valid w a m : links_at w a = Some m -> (a < List.length (inodes w))%nat.
Proof.
  intros H. destruct (Nat.lt_ge_cases a (List.length (inodes w))) as [?|Hge]; [assumption|].
  unfold links_at in H. rewrite inode_at_dangling in H by exact Hge. discriminate H.
Qed.

Lemma links_at_keep a f w b : keeps_links f -> links_at (updInode a f w) b = links_at w b.
Proof.
  intros Hf. rewrite links_at_updInode. destruct (decide _) as [[-> _]|_]; [apply Hf|reflexivity].
Qed.

Lemma links_at_delete_entry p name w q m :
  links_at w p = Some m ->
  links_at (updInode p (delete_entry name) w) q =
  if decide (p = q) then Some (SortedMap.delete name m) else links_at w q.
Proof.
  intros Hm. rewrite links_at_updInode.
  pose proof (links_at_valid _ _ _ Hm).
  destruct (decide (p = q)) as [->|Hne].
  - destruct (decide _) as [_|Hn]; [|tauto]. unfold delete_entry. simpl.
    unfold links_at in Hm. rewrite Hm. reflexivity.
  - destruct (decide _) as [[? _]|_]; [tauto|reflexivity].
Qed.

Lemma links_at_set_entry p name a w q m :
  links_at w p = Some m ->
  links_at (updInode p (set_entry name a) w) q =
  if decide (p = q) then Some (SortedMap.set name a m) else links_at w q.
Proof.
  intros Hm. rewrite links_at_updInode.
  pose proof (links_at_valid _ _ _ Hm).
  destruct (decide (p = q)) as [->|Hne].
  - destruct (decide _) as [_|Hn]; [|tauto]. unfold set_entry. simpl.
    unfold links_at in Hm. rewrite Hm. reflexivity.
  - destruct (decide _) as [[? _]|_]; [tauto|reflexivity].
Qed.

Lemma identity_updInode a f w b :
  keeps_identity f ->
  Inode.ino (inode_at (updInode a f w) b) = Inode.ino (inode_at w b) /\
  Inode.mode (inode_at (updInode a f w) b) = Inode.mode (inode_at w b) /\
  Inode.symlink (inode_at (updInode a f w) b) = Inode.symlink (inode_at w b).
Proof.
  intros Hf. rewrite inode_at_updInode. destruct (decide _) as [[-> _]|_]; [apply Hf|tauto].
Qed.

Lemma nlink_updInode a f w b :
  Inode.nlink (inode_at (updInode a f w) b) =
  if decide (a = b /\ (a < List.length (inodes w))%nat) then Inode.nlink (f (inode_at w a))
  else Inode.nlink (inode_at w b).
Proof. rewrite inode_at_updInode. destruct (decide _); reflexivity. Qed.

Lemma keeps_links_mtime t : keeps_links (Inode.set_mtimeMs t).
Proof. intros []; reflexivity. Qed.
Lemma keeps_links_ctime t : keeps_links (Inode.set_ctimeMs t).
Proof. intros []; reflexivity. Qed.
Lemma keeps_links_nlink d : keeps_links (nlink_add d).
Proof. intros []; reflexivity. Qed.
Lemma keeps_identity_mtime t : keeps_identity (Inode.set_mtimeMs t).
Proof. intros []; simpl; tauto. Qed.
Lemma keeps_identity_ctime t : keeps_identity (Inode.set_ctimeMs t).
Proof. intros []; simpl; tauto. Qed.
Lemma keeps_identity_nlink d : keeps_identity (nlink_add d).
Proof. intros []; simpl; tauto. Qed.
Lemma keeps_identity_delete n : keeps_identity (delete_entry n).
Proof. intros []; simpl; tauto. Qed.

(** What [_removeLink] and [_addLink] below a parent directory do to the
    store. *)
Lemma removeLink_run fs p name nd tm w :
  _removeLink fs (Some p) (NodeLinks p) name nd (Some tm) w =
  (Ok tt, updInode p (Inode.set_mtimeMs tm)
            (updInode nd (Inode.set_ctimeMs tm)
               (updInode nd (nlink_add (-1))
                  (updInode p (delete_entry name) w)))).
Proof. reflexivity. Qed.

Lemma addLink_run fs p name nd tm w :
  _addLink fs (Some p) (NodeLinks p) name nd (Some tm) w =
  (Ok tt, updInode p (Inode.set_mtimeMs tm)
            (updInode nd (Inode.set_ctimeMs tm)
               (updInode nd (nlink_add 1)
                  (updInode p (set_entry name nd) w)))).
Proof. reflexivity. Qed.

Lemma time_read fs w : time fs None w = (Ok (clock w fs), w).
Proof. reflexivity. Qed.

Lemma lookup_in_NodeLinks w p k :
  lookup_in w (NodeLinks p) k =
  match links_at w p with Some m => SortedMap.get k m | None => None end.
Proof. reflexivity. Qed.

(** ** Walks that do not follow the last symlink *)

Lemma walk_steps_nofollow_inr fs rest :
  forall lk par seen w cs1 w1,
    walk_steps fs true lk par seen rest w = (Ok (inr cs1), w1) ->
    (2 <= List.length cs1)%nat.
Proof.
  induction rest as [|b rest IH]; intros lk par seen w cs1 w1 H; [discriminate H|].
  rewrite walk_steps_cons in H. cbv zeta in H.
  destruct rest as [|b2 rest].
  - cbn [andb orb] in H. discriminate H.
  - cbn [andb] in H.
    destruct (lookup_in w lk b) as [a|]; [|discriminate H]. cbn [deref] in H.
    destruct (isSymlink _).
    + inversion H; subst. rewrite length_app. simpl.
      pose proof (parse_nonempty (vpath.resolve (vpath.format seen)
                    (default "" (Some (inode_at w1 a) ≫= Inode.symlink)))) as Hp.
      destruct (vpath.parse _); [congruence|simpl; lia].
    + destruct (isDirectory _); [|discriminate H].
      mstep H. exact (IH _ _ _ _ _ _ H).
Qed.

Lemma walk_steps_parent_none fs nf rest :
  forall lk par seen w r w1,
    walk_steps fs nf lk par seen rest w = (Ok (inl r), w1) ->
    parent r = None -> par = None /\ rest = [basename r].
Proof.
  induction rest as [|b rest IH]; intros lk par seen w r w1 H Hp; [discriminate H|].
  rewrite walk_steps_cons in H. cbv zeta in H.
  destruct (_ && _) eqn:Hcond.
  - inversion H; subst. simpl in *. apply andb_prop in Hcond. destruct Hcond as [Hl _].
    destruct rest; [tauto|discriminate Hl].
  - destruct (lookup_in w lk b) as [a|]; [|discriminate H]. cbn [deref] in H.
    destruct (isSymlink _); [discriminate H|].
    destruct (isDirectory _); [|discriminate H].
    mstep H. destruct (IH _ _ _ _ _ _ H Hp) as [Habs _]. discriminate Habs.
Qed.

(** Without following the last symlink, a walk ends without a parent
    exactly when the path is a single component (a root). *)
Lemma walk_nofollow_root fs limit :
  forall cs w r w1,
    walk_loop limit fs true cs w = (Ok r, w1) ->
    (parent r = None <-> exists c, cs = [c]).
Proof.
  induction limit as [|limit IH]; intros cs w r w1 H; [discriminate H|].
  rewrite walk_loop_S in H. unfold walk_pass in H.
  destruct (_getRootLinks fs w) as [[lr|e] w0] eqn:Eroot;
    [|rewrite (bind_Throw _ _ _ _ _ Eroot) in H; discriminate H].
  rewrite (bind_Ok _ _ _ _ _ Eroot) in H.
  destruct (walk_steps fs true lr None [] cs w0) as [[[r'|cs']|e] w'] eqn:Est;
    [| |discriminate H].
  - inversion H; subst r' w'. split.
    + intros Hp. destruct (walk_steps_parent_none _ _ _ _ _ _ _ _ _ Est Hp) as [_ ->]. eauto.
    + intros [c ->]. rewrite walk_steps_cons in Est. cbv zeta in Est.
      cbn [andb orb] in Est. inversion Est; subst. reflexivity.
  - pose proof (walk_steps_nofollow_inr _ _ _ _ _ _ _ _ Est) as Hlen.
    destruct (IH _ _ _ _ H) as [Hto _]. split.
    + intros Hp. destruct (Hto Hp) as [c ->]. simpl in Hlen. lia.
    + intros [c ->]. rewrite walk_steps_cons in Est. cbv zeta in Est.
      cbn [andb orb] in Est. discriminate Est.
Qed.

Lemma removeLink_effect fs p name nd tm w m :
  links_at w p = Some m ->
  exists w',
    _removeLink fs (Some p) (NodeLinks p) name nd (Some tm) w = (Ok tt, w') /\
    (forall q mq, links_at w q = Some mq -> exists mq', links_at w' q = Some mq') /\
    (forall a, Inode.ino (inode_at w' a) = Inode.ino (inode_at w a)).
Proof.
  intros Hm. eexists. split; [apply removeLink_run|]. split.
  - intros q mq Hq.
    rewrite (links_at_keep _ _ _ _ (keeps_links_mtime tm)),
      (links_at_keep _ _ _ _ (keeps_links_ctime tm)),
      (links_at_keep _ _ _ _ (keeps_links_nlink (-1))),
      (links_at_delete_entry _ _ _ _ _ Hm).
    destruct (decide (p = q)); eauto.
  - intros a.
    rewrite (proj1 (identity_updInode _ _ _ _ (keeps_identity_mtime tm))),
      (proj1 (identity_updInode _ _ _ _ (keeps_identity_ctime tm))),
      (proj1 (identity_updInode _ _ _ _ (keeps_identity_nlink (-1)))),
      (proj1 (identity_updInode _ _ _ _ (keeps_identity_delete name))).
    reflexivity.
Qed.



(** ** Writing a file and reading it back *)

Lemma isFile_not_symlink i : isFile (Some i) = true -> isSymlink (Some i) = false.
Proof. simpl. intros H. apply Z.eqb_eq in H. rewrite H. reflexivity. Qed.

Lemma isFile_not_directory i : isFile (Some i) = true -> isDirectory (Some i) = false.
Proof. simpl. intros H. apply Z.eqb_eq in H. rewrite H. reflexivity. Qed.

Lemma resolve_sees fs p w w' :
  sees w w' -> _resolve fs p w' = (fst (_resolve fs p w), w').
Proof.
  intros Hs. unfold _resolve. mrun.
  destruct (sb_fs _ _ _ Hs fs) as (-> & _).
  destruct (negb _).
  - unfold validated. destruct (vpath.validate _ _); reflexivity.
  - unfold validated. destruct (vpath.validate _ _); reflexivity.
Qed.

(** The four assignments that end [writeFileSync]. *)
Lemma store_buffer_effect nd buf tm w w' :
  (nd < List.length (inodes w))%nat ->
  (modInode nd (Inode.set_buffer (Some buf)) ;;
   modInode nd (Inode.set_size (Some (Z.of_nat (byteLength buf)))) ;;
   modInode nd (Inode.set_mtimeMs tm) ;;
   modInode nd (Inode.set_ctimeMs tm)) w = (Ok tt, w') ->
  sees w w' /\
  Inode.buffer (inode_at w' nd) = Some buf /\
  Inode.mode (inode_at w' nd) = Inode.mode (inode_at w nd) /\
  stores w' = stores w.
Proof.
  intros Hnd H. split.
  - assert (keeps sees (modInode nd (Inode.set_buffer (Some buf)) ;;
                        modInode nd (Inode.set_size (Some (Z.of_nat (byteLength buf)))) ;;
                        modInode nd (Inode.set_mtimeMs tm) ;;
                        modInode nd (Inode.set_ctimeMs tm))) as Hk by keeps_tac.
    exact (run_sees _ _ _ _ Hk H).
  - mrun_in H. inversion H; subst w'. clear H.
    rewrite !inode_at_updInode_same by (rewrite ?inodes_length_updInode; exact Hnd).
    destruct (inode_at w nd); simpl. auto.
Qed.

Lemma buffer_bytes_length w b : buffer_ok w b -> List.length (buffer_bytes w b) = byteLength b.
Proof.
  intros [_ Hlen]. unfold buffer_bytes. rewrite length_take, length_drop. lia.
Qed.

Lemma buffer_bytes_sees w w' b :
  sees w w' -> buffer_ok w b -> buffer_bytes w' b = buffer_bytes w b.
Proof.
  intros Hs [Hst _]. unfold buffer_bytes. rewrite (sb_stores _ _ _ Hs _ Hst). reflexivity.
Qed.

(** What the end of [writeFileSync] (the kind tests and the assignments)
    leaves behind for node [nd] when it returns. *)
Lemma write_data_effect nd data tm w0 w w' :
  sees w0 w -> data_ok w0 data ->
  (n <- getInode nd ;;
   if isDirectory (Some n) then throw (IOError EISDIR)
   else if negb (isFile (Some n)) then throw (IOError EBADF)
   else
     buffer <- match data with
               | DBuffer b =>
                   ret {| bstore := bstore b; boffset := boffset b; byteLength := byteLength b |}
               | DString s => allocBuffer (list_byte_of_string s)
               end ;;
     modInode nd (Inode.set_buffer (Some buffer)) ;;
     modInode nd (Inode.set_size (Some (Z.of_nat (byteLength buffer)))) ;;
     modInode nd (Inode.set_mtimeMs tm) ;;
     modInode nd (Inode.set_ctimeMs tm)) w = (Ok tt, w') ->
  sees w w' /\
  isFile (Some (inode_at w' nd)) = true /\
  exists buf, Inode.buffer (inode_at w' nd) = Some buf /\
              buffer_bytes w' buf = data_bytes w0 data /\
              byteLength buf = List.length (data_bytes w0 data).
Proof.
  intros Hs0 Hok H. mrun_in H.
  destruct (isDirectory _); [discriminate H|].
  destruct (isFile (Some (inode_at w nd))) eqn:Hfile; [|discriminate H].
  cbn [negb] in H. pose proof (isFile_valid _ _ Hfile) as Hnd.
  destruct data as [b|s].
  - mrun_in H.
    destruct (store_buffer_effect nd _ tm w w' Hnd H) as (Hs & Hbuf & Hmode & Hst).
    split; [exact Hs|]. split.
    { simpl in *. rewrite Hmode. exact Hfile. }
    eexists. split; [exact Hbuf|]. simpl in Hok. split.
    + transitivity (buffer_bytes w' b); [destruct b; reflexivity|]. simpl.
      apply buffer_bytes_sees; [|exact Hok]. eapply sees_trans; eassumption.
    + simpl. symmetry. apply buffer_bytes_length, Hok.
  - mstep H. unfold allocBuffer in E. inversion E; subst a w1. clear E.
    assert (nd < List.length (inodes (with_stores (stores w ++ [list_byte_of_string s]) w)))%nat
      as Hnd' by exact Hnd.
    destruct (store_buffer_effect nd _ tm _ w' Hnd' H) as (Hs & Hbuf & Hmode & Hst).
    split.
    { eapply sees_trans; [|exact Hs]. apply (keeps_allocBuffer _ (list_byte_of_string s) w). }
    split.
    { simpl in *. rewrite Hmode. exact Hfile. }
    eexists. split; [exact Hbuf|]. split; [|reflexivity].
    unfold buffer_bytes, store_at. rewrite Hst. simpl.
    rewrite nth_middle. rewrite drop_0. apply firstn_all.
Qed.

(** A new name in a directory map: what was there is still seen. *)
Lemma sees_set_entry p name a w m :
  links_at w p = Some m -> SortedMap.get name m = None ->
  sees w (updInode p (set_entry name a) w).
Proof.
  intros Hm Hnone. unfold updInode.
  constructor; simpl; try reflexivity; try tauto; try lia.
  - rewrite length_insert. lia.
  - intros b Hb. rewrite inode_at_insert.
    destruct (decide _) as [[-> _]|_]; [|tauto].
    destruct (inode_at w b); simpl; tauto.
  - intros b mb Hb. rewrite inode_at_insert.
    destruct (decide _) as [[-> _]|_].
    + unfold links_at in Hm. rewrite Hm in Hb. inversion Hb; subst mb.
      exists (SortedMap.set name a m). split.
      * unfold set_entry. destruct (inode_at w b); simpl in *. rewrite Hm. reflexivity.
      * intros _. apply sub_map_set, Hnone.
    + exists mb. split; [exact Hb|intros; apply sub_map_refl].
  - intros fs mr Hr. exists mr. split; [exact Hr|intros; apply sub_map_refl].
Qed.

Lemma sees_updInode_fields a f w :
  keeps_links f -> keeps_identity f ->
  (forall i, Inode.dev (f i) = Inode.dev i /\ Inode.shadowRoot (f i) = Inode.shadowRoot i) ->
  sees w (updInode a f w).
Proof.
  intros Hl Hi Hd.
  apply (keeps_modInode (fun _ => False) a f).
  - intros i. destruct (Hi i) as (? & ? & ?). destruct (Hd i). tauto.
  - intros i m Hm. exists m. split; [rewrite Hl; exact Hm|intros; apply sub_map_refl].
Qed.

(** [_mknod] leaves the inodes that exist as they are. *)
Lemma mknod_old fs dev type mode tm w a w' b :
  _mknod fs dev type mode (Some tm) w = (Ok a, w') ->
  (b < List.length (inodes w))%nat -> inode_at w' b = inode_at w b.
Proof.
  intros H Hb. unfold _mknod in H. simpl in H. mrun_in H. unfold allocInode in H.
  inversion H; subst. unfold inode_at. simpl. apply app_nth1. exact Hb.
Qed.

(** Creating the file and attaching it under the missing name. *)
Lemma create_entry_effect fs par name tm dev w m a w' :
  links_at w par = Some m -> SortedMap.get name m = None ->
  (a <- _mknod fs dev S_IFREG 438 (Some tm) ;;
   _addLink fs (Some par) (NodeLinks par) name a (Some tm) ;;
   ret a) w = (Ok a, w') ->
  sees w w' /\ lookup_in w' (NodeLinks par) name = Some a.
Proof.
  intros Hm Hnone H. mstep H.
  pose proof (run_sees _ _ _ _ (keeps_mknod _ fs dev S_IFREG 438 (Some tm)) E) as Hs1.
  assert (links_at w0 par = Some m) as Hm1.
  { unfold links_at. rewrite (mknod_old _ _ _ _ _ _ _ _ _ E (links_at_valid _ _ _ Hm)). exact Hm. }
  rewrite (bind_Ok _ _ _ _ _ (addLink_run fs par name a0 tm w0)) in H.
  mrun_in H. inversion H; subst a0 w'. clear H.
  split.
  - eapply sees_trans; [exact Hs1|].
    eapply sees_trans; [apply (sees_set_entry par name a w0 m Hm1 Hnone)|].
    eapply sees_trans; [apply sees_updInode_fields;
                        [apply keeps_links_nlink|apply keeps_identity_nlink|intros []; simpl; tauto]|].
    eapply sees_trans; [apply sees_updInode_fields;
                        [apply keeps_links_ctime|apply keeps_identity_ctime|intros []; simpl; tauto]|].
    apply sees_updInode_fields;
      [apply keeps_links_mtime|apply keeps_identity_mtime|intros []; simpl; tauto].
  - rewrite lookup_in_NodeLinks.
    rewrite (links_at_keep _ _ _ _ (keeps_links_mtime tm)),
      (links_at_keep _ _ _ _ (keeps_links_ctime tm)),
      (links_at_keep _ _ _ _ (keeps_links_nlink 1)),
      (links_at_set_entry _ _ _ _ _ _ Hm1).
    destruct (decide (par = par)); [|congruence].
    apply get_set_same, same_key_refl.
Qed.

(** What a successful [writeFileSync] leaves: the walk of the same path
    now ends at a regular file whose buffer holds the data. *)
Lemma write_leaves_file fs w p data w' :
  fs_valid w fs -> data_ok w data ->
  writeFileSync fs p data None w = (Ok tt, w') ->
  exists q r nd buf,
    _resolve fs p w' = (Ok q, w') /\
    _walk fs q false w' = (Ok r, w') /\
    node r = Some nd /\
    isFile (Some (inode_at w' nd)) = true /\
    Inode.buffer (inode_at w' nd) = Some buf /\
    buffer_bytes w' buf = data_bytes w data /\
    byteLength buf = List.length (data_bytes w data).
Proof.
  intros Hv Hok H. unfold writeFileSync, isReadonly in H. rewrite bind_gets in H.
  destruct (FileSystem.frozen (fs_at w fs)); [discriminate H|].
  destruct (_resolve fs p w) as [[q|e] wq] eqn:E;
    [|rewrite (bind_Throw _ _ _ _ _ E) in H; discriminate H].
  pose proof (resolve_pure _ _ _ _ _ E) as ->.
  rewrite (bind_Ok _ _ _ _ _ E) in H.
  destruct (_walk fs q false w) as [[r|e] w1] eqn:E0;
    [|rewrite (bind_Throw _ _ _ _ _ E0) in H; discriminate H].
  rewrite (bind_Ok _ _ _ _ _ E0) in H.
  pose proof (run_sees _ _ _ _ (keeps_walk fs q false) E0) as Hs1.
  destruct (walk_loop_result fs false maxDepth _ _ _ _ E0 Hv)
    as ((Hnode & Hsym & Hslot & (m & Hm) & _) & _).
  destruct (parent r) as [par|] eqn:Hpar; [|discriminate H].
  simpl in Hslot.
  rewrite (bind_Ok _ _ _ _ _ (time_read fs w1)) in H.
  match type of H with bind ?c _ _ = _ =>
    destruct (c w1) as [[nd|e] w2] eqn:E1;
      [|rewrite (bind_Throw _ _ _ _ _ E1) in H; discriminate H]
  end.
  rewrite (bind_Ok _ _ _ _ _ E1) in H.
  assert (sees w1 w2 /\ lookup_in w2 (links r) (basename r) = Some nd) as (Hs2 & Hlook).
  { destruct (node r) as [a|] eqn:Hn.
    - inversion E1; subst. split; [apply sees_refl|congruence].
    - rewrite Hslot in *. unfold getInode in E1. rewrite bind_gets in E1.
      unfold lookup_in in Hnode. rewrite Hm in Hnode. cbn [links_of] in Hm.
      exact (create_entry_effect fs par (basename r) (clock w1 fs) _ w1 m nd w2 Hm
               (eq_sym Hnode) E1). }
  assert (sees w w2) as Hs02 by (eapply sees_trans; eassumption).
  destruct (write_data_effect nd data (clock w1 fs) w w2 w' Hs02 Hok H)
    as (Hs3 & Hfile & buf & Hbuf & Hbytes & Hlen).
  assert (sees w1 w') as Hs13 by (eapply sees_trans; eassumption).
  assert (lookup_in w' (links r) (basename r) = Some nd) as Hlook'
      by (apply (lookup_kept w2 w'); assumption).
  exists q, (with_node r (Some nd)), nd, buf.
  split.
  { rewrite (resolve_sees fs p w w') by (eapply sees_trans; eassumption).
    rewrite E. reflexivity. }
  split.
  { unfold _walk in *.
    rewrite (walk_loop_replay fs false maxDepth _ _ _ _ E0 Hv w' Hs13).
    - rewrite Hlook'. reflexivity.
    - right. rewrite Hlook'. simpl. apply isFile_not_symlink. exact Hfile. }
  repeat split; assumption.
Qed.

Lemma getBuffer_present fs a w b :
  Inode.buffer (inode_at w a) = Some b -> _getBuffer fs a w = (Ok b, w).
Proof.
  intros H. unfold _getBuffer. cbn [_getBuffer_rec]. mrun. rewrite H. reflexivity.
Qed.

Lemma getSize_present fs a w b :
  Inode.buffer (inode_at w a) = Some b -> _getSize fs a w = (Ok (Z.of_nat (byteLength b)), w).
Proof.
  intros H. unfold _getSize. cbn [_getSize_rec]. mrun. rewrite H. reflexivity.
Qed.

(** C7: write/read round trip.  When [writeFileSync(p, data)] returns,
    for data that is a live buffer or a string, [readFileSync(p)]
    returns a buffer holding the bytes of the data and [statSync(p).size]
    is their number. *)
Theorem write_read_round_trip fs w p data w' :
  fs_valid w fs -> data_ok w data ->
  writeFileSync fs p data None w = (Ok tt, w') ->
  (exists b', readFileSync fs p None w' = (Ok (DBuffer b'), w') /\
              buffer_bytes w' b' = data_bytes w data) /\
  (exists st, statSync fs p w' = (Ok st, w') /\
              st_size st = Z.of_nat (List.length (data_bytes w data))).
Proof.
  intros Hv Hok H.
  destruct (write_leaves_file fs w p data w' Hv Hok H)
    as (q & r & nd & buf & Hres & Hwalk & Hnode & Hfile & Hbuf & Hbytes & Hlen).
  split.
  - exists {| bstore := bstore buf; boffset := boffset buf; byteLength := byteLength buf |}.
    split; [|destruct buf; exact Hbytes].
    unfold readFileSync. rewrite (bind_Ok _ _ _ _ _ Hres), (bind_Ok _ _ _ _ _ Hwalk).
    rewrite Hnode. mrun. rewrite (isFile_not_directory _ Hfile), Hfile. cbn [negb].
    rewrite (bind_Ok _ _ _ _ _ (getBuffer_present fs nd w' buf Hbuf)). reflexivity.
  - eexists. split.
    + unfold statSync. rewrite (bind_Ok _ _ _ _ _ Hres), (bind_Ok _ _ _ _ _ Hwalk).
      unfold _stat. rewrite Hnode. mrun. rewrite Hfile.
      rewrite (bind_Ok _ _ _ _ _ (getSize_present fs nd w' buf Hbuf)). mrun. reflexivity.
    + simpl. rewrite Hlen. reflexivity.
Qed.

Lemma write_read_round_trip_witness :
  (exists b', readFileSync 0%nat "/a/c.bin" None
                (exec (writeFileSync 0%nat "/a/c.bin" (DString "xyz") None) populated)
              = (Ok (DBuffer b'), exec (writeFileSync 0%nat "/a/c.bin" (DString "xyz") None) populated) /\
              buffer_bytes (exec (writeFileSync 0%nat "/a/c.bin" (DString "xyz") None) populated) b'
              = list_byte_of_string "xyz") /\
  (exists st, statSync 0%nat "/a/c.bin"
                (exec (writeFileSync 0%nat "/a/c.bin" (DString "xyz") None) populated)
              = (Ok st, exec (writeFileSync 0%nat "/a/c.bin" (DString "xyz") None) populated) /\
              st_size st = 3).
Proof.
  apply (write_read_round_trip 0%nat populated "/a/c.bin" (DString "xyz")).
  - vm_compute. lia.
  - exact I.
  - vm_compute. reflexivity.
Defined.
(** ** Paths and their components *)

Lemma append_cons c (a b : string) : String c a +:+ b = String c (a +:+ b).
Proof. reflexivity. Qed.

Lemma append_nil_l (b : string) : "" +:+ b = b.
Proof. reflexivity. Qed.

Lemma append_nil_r (s : string) : s +:+ "" = s.
Proof.
  induction s as [|c s IH]; [reflexivity|]. rewrite append_cons, IH. reflexivity.
Qed.

Lemma append_assoc (a b c : string) : (a +:+ b) +:+ c = a +:+ (b +:+ c).
Proof.
  induction a as [|x a IH]; [reflexivity|]. rewrite !append_cons, IH. reflexivity.
Qed.

Lemma sep_free_app a b : sep_free (a +:+ b) = sep_free a && sep_free b.
Proof.
  induction a as [|c a IH]; [reflexivity|]. rewrite append_cons. cbn [sep_free].
  rewrite IH. apply andb_assoc.
Qed.

(** A separator-free run is read into the current name. *)
Lemma segments_run n :
  sep_free n = true -> forall cur s, vpath.segments cur (n +:+ s) = vpath.segments (cur +:+ n) s.
Proof.
  induction n as [|c n IH]; intros Hn cur s.
  - rewrite append_nil_r. reflexivity.
  - cbn [sep_free] in Hn. apply andb_prop in Hn. destruct Hn as [Hc Hn].
    apply negb_true_iff in Hc. rewrite append_cons. cbn [vpath.segments]. rewrite Hc.
    rewrite (IH Hn). rewrite append_assoc. reflexivity.
Qed.

Lemma name_ok_parts d n :
  name_ok d n = true -> n <> "" /\ sep_free n = true.
Proof.
  unfold name_ok. intros H. apply andb_prop in H. destruct H as [H _].
  apply andb_prop in H. destruct H as [Hne Hs]. split; [|exact Hs].
  apply negb_true_iff in Hne. intros ->. discriminate Hne.
Qed.

Lemma concat_cons2 (sep n n2 : string) names :
  String.concat sep (n :: n2 :: names) = n +:+ sep +:+ String.concat sep (n2 :: names).
Proof. reflexivity. Qed.

Lemma segments_concat d names :
  forallb (name_ok d) names = true ->
  vpath.segments "" (String.concat "/" names) = names.
Proof.
  induction names as [|n names IH]; intros H; [reflexivity|].
  cbn [forallb] in H. apply andb_prop in H. destruct H as [Hn Hrest].
  destruct (name_ok_parts _ _ Hn) as [Hne Hsf].
  destruct names as [|n2 names].
  - cbn [String.concat]. rewrite <- (append_nil_r n) at 1. rewrite (segments_run n Hsf).
    rewrite append_nil_l. cbn [vpath.segments].
    destruct (String.eqb_spec n ""); [contradiction|reflexivity].
  - rewrite concat_cons2. rewrite (segments_run n Hsf). rewrite append_nil_l.
    rewrite append_cons, append_nil_l. cbn [vpath.segments].
    change (vpath.is_sep "/") with true. cbv iota.
    destruct (String.eqb_spec n ""); [contradiction|].
    rewrite (IH Hrest). reflexivity.
Qed.

(** [parse] undoes [format] on the components of an absolute path. *)
Lemma parse_format d cs : comps_ok d cs = true -> vpath.parse (vpath.format cs) = cs.
Proof.
  destruct cs as [|root names]; [discriminate|]. cbn [comps_ok vpath.format]. intros H.
  apply andb_prop in H. destruct H as [Hroot Hnames]. apply String.eqb_eq in Hroot. subst root.
  rewrite append_cons, append_nil_l.
  cbn [vpath.parse]. change (vpath.is_sep "/") with true. cbv iota.
  rewrite (segments_concat d names Hnames). reflexivity.
Qed.

Lemma name_ok_weaken d n : name_ok false n = true -> name_ok d n = true.
Proof.
  unfold name_ok. intros H. apply andb_prop in H. destruct H as [-> H].
  destruct d; [reflexivity|exact H].
Qed.

Lemma names_ok_weaken d names :
  forallb (name_ok false) names = true -> forallb (name_ok d) names = true.
Proof.
  rewrite !forallb_forall. intros H n Hn. apply name_ok_weaken, H, Hn.
Qed.

Lemma comps_ok_weaken d cs : comps_ok false cs = true -> comps_ok d cs = true.
Proof.
  destruct cs as [|root names]; [discriminate|]. cbn [comps_ok]. intros H.
  apply andb_prop in H. destruct H as [-> H]. apply names_ok_weaken, H.
Qed.

(** The names [segments] cuts out are not empty and hold no separator. *)
Lemma segments_ok s :
  forall cur, sep_free cur = true -> forallb (name_ok true) (vpath.segments cur s) = true.
Proof.
  induction s as [|c s IH]; intros cur Hcur; cbn [vpath.segments].
  - destruct (String.eqb_spec cur ""); [reflexivity|].
    cbn [forallb]. unfold name_ok. rewrite Hcur.
    destruct (String.eqb_spec cur ""); [contradiction|reflexivity].
  - destruct (vpath.is_sep c) eqn:Hc.
    + destruct (String.eqb_spec cur "").
      * apply IH. reflexivity.
      * cbn [forallb]. rewrite (IH "" eq_refl). unfold name_ok. rewrite Hcur.
        destruct (String.eqb_spec cur ""); [contradiction|reflexivity].
    + apply IH. rewrite sep_free_app, Hcur. cbn [sep_free]. rewrite Hc. reflexivity.
Qed.

Lemma parse_absolute p : vpath.isAbsolute p = true -> comps_ok true (vpath.parse p) = true.
Proof.
  destruct p as [|c p]; [discriminate|]. cbn [vpath.isAbsolute vpath.parse]. intros ->.
  cbn [comps_ok]. apply segments_ok. reflexivity.
Qed.

Lemma format_absolute d cs : comps_ok d cs = true -> vpath.isAbsolute (vpath.format cs) = true.
Proof.
  destruct cs as [|root names]; [discriminate|]. cbn [comps_ok vpath.format]. intros H.
  apply andb_prop in H. destruct H as [Hroot _]. apply String.eqb_eq in Hroot. subst root.
  reflexivity.
Qed.

Lemma comps_ok_app d cs names :
  comps_ok d cs = true -> forallb (name_ok d) names = true -> comps_ok d (cs ++ names) = true.
Proof.
  destruct cs as [|root cs]; [discriminate|]. cbn [comps_ok app]. intros H Hn.
  apply andb_prop in H. destruct H as [-> H]. rewrite forallb_app, H, Hn. reflexivity.
Qed.

Lemma comps_ok_split d seen rest :
  seen <> [] -> comps_ok d (seen ++ rest) = true ->
  comps_ok d seen = true /\ forallb (name_ok d) rest = true.
Proof.
  destruct seen as [|root seen]; [congruence|]. intros _. cbn [comps_ok app]. intros H.
  apply andb_prop in H. destruct H as [-> H]. rewrite forallb_app in H.
  apply andb_prop in H. destruct H as [-> ->]. split; reflexivity.
Qed.

Lemma comps_ok_tail d b rest : comps_ok d (b :: rest) = true -> forallb (name_ok d) rest = true.
Proof. cbn [comps_ok]. intros H. apply andb_prop in H. tauto. Qed.

(** ** [reduce] *)

Lemma name_ok_no_dots n :
  name_ok false n = true -> String.eqb n "." = false /\ String.eqb n ".." = false.
Proof.
  unfold name_ok. intros H. apply andb_prop in H. destruct H as [_ H]. cbn [orb] in H.
  apply negb_true_iff in H. apply orb_false_elim in H. exact H.
Qed.

Lemma name_ok_of_parts n :
  name_ok true n = true -> String.eqb n "." = false -> String.eqb n ".." = false ->
  name_ok false n = true.
Proof.
  unfold name_ok. intros H H1 H2. apply andb_prop in H. destruct H as [-> _].
  rewrite H1, H2. reflexivity.
Qed.

Lemma comps_ok_removelast root n names :
  comps_ok false (root :: n :: names) = true ->
  comps_ok false (removelast (root :: n :: names)) = true.
Proof.
  cbn [comps_ok]. intros H. apply andb_prop in H. destruct H as [Hroot H].
  change (removelast (root :: n :: names)) with (root :: removelast (n :: names)).
  cbn [comps_ok]. rewrite Hroot. cbn [andb].
  rewrite forallb_forall in *. intros x Hx. apply H.
  revert Hx. generalize (n :: names). clear. intros l.
  induction l as [|y l IH]; [tauto|]. destruct l as [|z l]; [simpl; tauto|].
  change (removelast (y :: z :: l)) with (y :: removelast (z :: l)).
  intros [->|Hx]; [left; reflexivity|right; apply IH, Hx].
Qed.

Lemma last_name_ok root n names :
  comps_ok false (root :: n :: names) = true ->
  String.eqb (List.last (root :: n :: names) "") ".." = false.
Proof.
  cbn [comps_ok]. intros H. apply andb_prop in H. destruct H as [_ H].
  change (List.last (root :: n :: names) "") with (List.last (n :: names) "").
  rewrite forallb_forall in H.
  assert (In (List.last (n :: names) "") (n :: names)) as Hin.
  { generalize n. clear. induction names as [|y l IH]; intros n; [left; reflexivity|].
    change (List.last (n :: y :: l) "") with (List.last (y :: l) ""). right. apply IH. }
  apply (name_ok_no_dots _ (H _ Hin)).
Qed.

(** Below the root ["/"] nothing of [.] and [..] is left. *)
Lemma reduce_from_ok names :
  forall acc, comps_ok false acc = true -> forallb (name_ok true) names = true ->
    comps_ok false (vpath.reduce_from acc names) = true.
Proof.
  induction names as [|c names IH]; intros acc Hacc Hn; [exact Hacc|].
  cbn [forallb] in Hn. apply andb_prop in Hn. destruct Hn as [Hc Hn].
  cbn [vpath.reduce_from].
  destruct (String.eqb c ".") eqn:E1; [apply IH; assumption|].
  destruct (String.eqb c "..") eqn:E2.
  - destruct acc as [|root [|n acc]]; [discriminate Hacc| |].
    + cbn [comps_ok] in Hacc. apply andb_prop in Hacc. destruct Hacc as [Hroot _].
      apply String.eqb_eq in Hroot. subst root. change (String.eqb "/" "") with false. cbv iota.
      apply IH; [reflexivity|exact Hn].
    + rewrite (last_name_ok _ _ _ Hacc).
      apply IH; [apply comps_ok_removelast, Hacc|exact Hn].
  - apply IH; [|exact Hn]. apply comps_ok_app; [exact Hacc|].
    cbn [forallb]. rewrite (name_ok_of_parts c Hc E1 E2). reflexivity.
Qed.

Lemma reduce_ok cs : comps_ok true cs = true -> comps_ok false (vpath.reduce cs) = true.
Proof.
  destruct cs as [|root names]; [discriminate|]. cbn [comps_ok vpath.reduce]. intros H.
  apply andb_prop in H. destruct H as [Hroot Hn].
  apply reduce_from_ok; [|exact Hn]. cbn [comps_ok forallb]. rewrite Hroot. reflexivity.
Qed.

Lemma reduce_from_id names :
  forall acc, forallb (name_ok false) names = true ->
    vpath.reduce_from acc names = (acc ++ names)%list.
Proof.
  induction names as [|c names IH]; intros acc Hn; [rewrite app_nil_r; reflexivity|].
  cbn [forallb] in Hn. apply andb_prop in Hn. destruct Hn as [Hc Hn].
  destruct (name_ok_no_dots _ Hc) as [E1 E2].
  cbn [vpath.reduce_from]. rewrite E1, E2. rewrite (IH _ Hn), <- app_assoc. reflexivity.
Qed.

Lemma reduce_id cs : comps_ok false cs = true -> vpath.reduce cs = cs.
Proof.
  destruct cs as [|root names]; [discriminate|]. cbn [comps_ok vpath.reduce]. intros H.
  apply andb_prop in H. destruct H as [_ Hn]. apply reduce_from_id, Hn.
Qed.

(** ** [combine] and [resolve] *)

Lemma isAbsolute_app a b : vpath.isAbsolute a = true -> vpath.isAbsolute (a +:+ b) = true.
Proof. destruct a as [|c a]; [discriminate|]. rewrite append_cons. tauto. Qed.

Lemma combine_absolute base p :
  vpath.isAbsolute base = true -> vpath.isAbsolute (vpath.combine base p) = true.
Proof.
  intros Hb. unfold vpath.combine.
  destruct (vpath.isAbsolute p) eqn:Hp; [exact Hp|].
  destruct (String.eqb_spec base ""); [subst; discriminate Hb|].
  destruct (String.eqb p ""); [exact Hb|].
  destruct (vpath.hasTrailingSeparator base); apply isAbsolute_app, Hb.
Qed.

(** Resolving against an absolute path gives the text of a component
    list without [.] and [..]. *)
Lemma resolve_absolute base p :
  vpath.isAbsolute base = true ->
  exists cs, vpath.resolve base p = vpath.format cs /\ comps_ok false cs = true.
Proof.
  intros Hb. unfold vpath.resolve, vpath.normalize.
  eexists. split; [reflexivity|].
  apply reduce_ok, parse_absolute, combine_absolute, Hb.
Qed.

Lemma resolve_format base cs :
  comps_ok false cs = true -> vpath.resolve base (vpath.format cs) = vpath.format cs.
Proof.
  intros H. unfold vpath.resolve, vpath.normalize, vpath.combine.
  rewrite (format_absolute _ _ H), (parse_format _ _ H), (reduce_id _ H). reflexivity.
Qed.

(** ** The components a walk ends with *)

(** A splice below the root gives the components of an absolute path
    again. *)
Lemma walk_steps_splice_ok fs nf d rest :
  forall lk par seen w cs' w1,
    walk_steps fs nf lk par seen rest w = (Ok (inr cs'), w1) ->
    comps_ok d (seen ++ rest) = true ->
    (seen = [] -> forall b a, lookup_in w lk b = Some a ->
                  isSymlink (Some (inode_at w a)) = false) ->
    comps_ok d cs' = true.
Proof.
  induction rest as [|b rest IH]; intros lk par seen w cs' w1 H Hok Hroot; [discriminate H|].
  rewrite walk_steps_cons in H. cbv zeta in H.
  destruct (_ && _); [discriminate H|].
  destruct (lookup_in w lk b) as [a|] eqn:Hlook; [|discriminate H]. cbn [deref] in H.
  destruct (isSymlink (Some (inode_at w a))) eqn:Hsym.
  - inversion H; subst. clear H.
    destruct seen as [|root seen].
    { rewrite (Hroot eq_refl b a Hlook) in Hsym. discriminate Hsym. }
    destruct (comps_ok_split d (root :: seen) (b :: rest)) as [Hseen Hrest];
      [discriminate|exact Hok|].
    destruct (resolve_absolute (vpath.format (root :: seen))
                (default "" (Inode.symlink (inode_at w1 a)))
                (format_absolute _ _ Hseen)) as (cs & -> & Hcs).
    rewrite (parse_format _ _ Hcs).
    apply comps_ok_app; [apply comps_ok_weaken, Hcs|].
    cbn [forallb] in Hrest. apply andb_prop in Hrest. tauto.
  - destruct (isDirectory _); [|discriminate H].
    mstep H. apply (IH _ _ _ _ _ _ H).
    + rewrite <- app_assoc. exact Hok.
    + intros Habs. destruct seen; discriminate Habs.
Qed.

Lemma roots_not_symlinks_back w w' fs :
  sees w w' -> roots_not_symlinks w' fs -> roots_not_symlinks w fs.
Proof.
  intros Hs H k a Hlook.
  destruct (isSymlink (Some (inode_at w a))) eqn:Hsym; [|reflexivity].
  pose proof (isSymlink_valid _ _ Hsym) as Hva.
  pose proof (H k a (lookup_kept _ _ _ _ _ Hs Hlook)) as Hno.
  destruct (sb_id _ _ _ Hs a Hva) as (Hmode & _).
  unfold isSymlink in *. rewrite Hmode in Hno. congruence.
Qed.

(** The last pass of a walk runs over the components of an absolute
    path, and [realpath] is their text. *)
Lemma walk_loop_comps fs nf d limit :
  forall cs w r w1,
    walk_loop limit fs nf cs w = (Ok r, w1) ->
    fs_valid w fs ->
    comps_ok d cs = true ->
    roots_not_symlinks w1 fs ->
    exists comps w0,
      comps_ok d comps = true /\
      (exists m, FileSystem.lazy_links (fs_at w0 fs) = Some m) /\
      walk_steps fs nf (RootLinks fs) None [] comps w0 = (Ok (inl r), w1) /\
      realpath r = vpath.format comps.
Proof.
  induction limit as [|limit IH]; intros cs w r w1 H Hv Hok Hroots; simpl in H.
  - discriminate H.
  - mstep H. mstep H.
    destruct (getRootLinks_post _ _ _ _ E Hv) as (-> & m & Hm).
    pose proof (run_sees _ _ _ _ (keeps_getRootLinks fs) E) as Hw0.
    pose proof (run_sees _ _ _ _ (keeps_walk_steps fs nf _ _ _ _) E0) as Hw2.
    destruct a0 as [res|cs'].
    + mrun_in H. inversion H; subst.
      destruct (walk_steps_inl fs nf cs (RootLinks fs) None [] w0 r w1 E0 eq_refl) as (_ & Hrp & _).
      { intros p Hp; discriminate Hp. }
      { simpl; eauto. }
      exists cs, w0. split; [exact Hok|]. split; [eauto|]. split; [exact E0|exact Hrp].
    + pose proof (run_sees _ _ _ _ (keeps_walk_loop limit fs nf cs') H) as Hw3.
      apply (IH cs' w2 r w1 H).
      * eapply fs_valid_sees; [exact Hw2|]. eapply fs_valid_sees; [exact Hw0|exact Hv].
      * apply (walk_steps_splice_ok fs nf d cs (RootLinks fs) None [] w0 cs' w2 E0 Hok).
        intros _. apply (roots_not_symlinks_back w0 w1); [|exact Hroots].
        eapply sees_trans; eassumption.
      * exact Hroots.
Qed.

(** What [_resolve] hands to the walker, and what it does with the text
    of a component list of that kind. *)
Lemma resolve_comps fs p w q w' :
  cwd_ok w fs -> _resolve fs p w = (Ok q, w') ->
  exists d, comps_ok d (vpath.parse q) = true /\
    forall comps w2,
      comps_ok d comps = true ->
      FileSystem._cwd (fs_at w2 fs) = FileSystem._cwd (fs_at w fs) ->
      _resolve fs (vpath.format comps) w2 = (Ok (vpath.format comps), w2).
Proof.
  intros Hcwd H. unfold _resolve in H. mrun_in H.
  destruct (String.eqb_spec (FileSystem._cwd (fs_at w fs)) "") as [Hempty|Hne]; cbn [negb] in H.
  - exists true. unfold validated in H. cbn [vpath.validate] in H.
    destruct (vpath.isAbsolute p) eqn:Hp; [|discriminate H]. inversion H; subst.
    split; [apply parse_absolute, Hp|].
    intros comps w2 Hc Hsame. unfold _resolve. mrun. rewrite Hsame, Hempty. cbn [String.eqb negb].
    unfold validated. cbn [vpath.validate]. rewrite (format_absolute _ _ Hc). reflexivity.
  - exists false. unfold validated in H. cbn [vpath.validate] in H. mrun_in H.
    inversion H; subst. destruct Hcwd as [Habs|Habs]; [contradiction|].
    destruct (resolve_absolute _ p Habs) as (cs & -> & Hcs).
    split; [rewrite (parse_format _ _ Hcs); exact Hcs|].
    intros comps w2 Hc Hsame. unfold _resolve. mrun. rewrite Hsame.
    destruct (String.eqb_spec (FileSystem._cwd (fs_at w' fs)) ""); [contradiction|].
    cbn [negb]. unfold validated. cbn [vpath.validate]. mrun.
    rewrite (resolve_format _ _ Hc). reflexivity.
Qed.

(** C8: [realpathSync] is idempotent.  On a file system whose working
    directory is unset or absolute and whose root entries are not
    symbolic links, when [realpathSync(p)] returns [rp], then
    [realpathSync(rp)] returns [rp] as well, and changes nothing. *)
Theorem realpath_idempotent fs w p rp w1 :
  fs_valid w fs -> cwd_ok w fs -> roots_not_symlinks w1 fs ->
  realpathSync fs p w = (Ok rp, w1) ->
  realpathSync fs rp w1 = (Ok rp, w1).
Proof.
  intros Hv Hcwd Hroots H. unfold realpathSync in H.
  destruct (_resolve fs p w) as [[q|e] wq] eqn:E;
    [|rewrite (bind_Throw _ _ _ _ _ E) in H; discriminate H].
  pose proof (resolve_pure _ _ _ _ _ E) as ->.
  rewrite (bind_Ok _ _ _ _ _ E) in H.
  destruct (_walk fs q false w) as [[r|e] w1'] eqn:E0;
    [|rewrite (bind_Throw _ _ _ _ _ E0) in H; discriminate H].
  rewrite (bind_Ok _ _ _ _ _ E0) in H. mrun_in H. inversion H; subst rp w1'. clear H.
  destruct (resolve_comps fs p w q w Hcwd E) as (d & Hd & Hres2).
  pose proof (run_sees _ _ _ _ (keeps_walk fs q false) E0) as Hs.
  unfold _walk in E0.
  destruct (walk_loop_comps fs false d maxDepth _ _ _ _ E0 Hv Hd Hroots)
    as (comps & w0 & Hcomps & (m & Hm) & Hsteps & Hrp).
  destruct (walk_loop_result fs false maxDepth _ _ _ _ E0 Hv) as ((Hnode & Hsym & _) & _).
  pose proof (run_sees _ _ _ _ (keeps_walk_steps fs false _ _ _ _) Hsteps) as Hs01.
  destruct (sb_root _ _ _ Hs01 fs m Hm) as (m1 & Hm1 & _).
  destruct (sb_fs _ _ _ Hs fs) as (Hsame & _).
  rewrite Hrp. unfold realpathSync.
  rewrite (bind_Ok _ _ _ _ _ (Hres2 comps w1 Hcomps Hsame)).
  unfold _walk. rewrite (parse_format _ _ Hcomps).
  assert (walk_loop maxDepth fs false comps w1 = (Ok r, w1)) as Hagain.
  { change maxDepth with (S 39). rewrite walk_loop_S. unfold walk_pass.
    rewrite (bind_Ok _ _ _ _ _ (getRootLinks_materialized fs w1 m1 Hm1)).
    pose proof (walk_steps_replay fs false comps (RootLinks fs) None [] w0 (inl r) w1 Hsteps
                  (ex_intro _ m Hm) w1 (sees_refl w1)) as Hrep.
    cbv beta iota in Hrep. rewrite <- Hnode in Hrep.
    rewrite Hrep by exact Hsym. destruct r; reflexivity. }
  rewrite (bind_Ok _ _ _ _ _ Hagain). rewrite Hrp. reflexivity.
Qed.

Lemma realpath_idempotent_witness :
  realpathSync 0%nat "/a/b.txt" (chainWorld 2) = (Ok "/a/b.txt", chainWorld 2).
Proof.
  apply (realpath_idempotent 0%nat (chainWorld 2) "/l1" "/a/b.txt" (chainWorld 2)).
  - vm_compute. lia.
  - right. reflexivity.
  - intros k a Hlook. unfold lookup_in in Hlook.
    assert (links_of (chainWorld 2) (RootLinks 0%nat) =
            Some {| SortedMap.caseInsensitive := false; SortedMap.entries := [("/", 0%nat)] |})
      as Hmap by (vm_compute; reflexivity).
    rewrite Hmap in Hlook. unfold SortedMap.get in Hlook.
    cbn [SortedMap.entries SortedMap.caseInsensitive SortedMap.get_from] in Hlook.
    destruct (SortedMap.comparer false k "/"); inversion Hlook; subst; vm_compute; reflexivity.
  - vm_compute. reflexivity.
Defined.

(** ** Walking again after entries were changed *)



Lemma lookup_valid w lk k a :
  lookup_in w lk k = Some a -> exists m, links_of w lk = Some m /\ SortedMap.get k m = Some a.
Proof.
  unfold lookup_in. destruct (links_of w lk) as [m|]; [eauto|discriminate].
Qed.






(** ** What the lazy name maps leave alone *)

Lemma steady_refl w : steady w w.
Proof. constructor; auto. intros a _. repeat split. Qed.

Lemma links_of_valid w a m : links_of w (NodeLinks a) = Some m -> (a < List.length (inodes w))%nat.
Proof. apply links_at_valid. Qed.

Section steadily_rules.
Variable w0 : World.

Lemma steadily_ret {A} (a : A) : steadily w0 (ret a).
Proof. intros w H. exact H. Qed.

Lemma steadily_throw {A} e : steadily w0 (@throw A e).
Proof. intros w H. exact H. Qed.

Lemma steadily_gets {A} (f : World -> A) : steadily w0 (gets f).
Proof. intros w H. exact H. Qed.

Lemma steadily_bind {A B} (c : M A) (k : A -> M B) :
  steadily w0 c -> (forall a, steadily w0 (k a)) -> steadily w0 (bind c k).
Proof.
  intros Hc Hk w H. unfold bind. specialize (Hc w H).
  destruct (c w) as [[a|e] w1]; simpl in *; [apply Hk; exact Hc|exact Hc].
Qed.

(** An update of an inode that was not there in [w0], any update; of an
    inode whose map was not there, any update that keeps the fixed
    fields; of another inode, one that keeps the map and [mtimeMs] too. *)
Lemma steadily_modInode a (f : Inode.t -> Inode.t) :
  ((List.length (inodes w0) <= a)%nat \/
   (keeps_fixed f /\
    (Inode.links (inode_at w0 a) = None \/
     forall i, Inode.links (f i) = Inode.links i /\ Inode.mtimeMs (f i) = Inode.mtimeMs i))) ->
  steadily w0 (modInode a f).
Proof.
  intros Hf w H. unfold modInode, modify. cbn [snd].
  constructor.
  - rewrite inodes_length_updInode. apply (sd_len _ _ H).
  - rewrite fileSystems_updInode. apply (sd_fslen _ _ H).
  - intros b Hb. rewrite inode_at_updInode.
    destruct (decide _) as [[-> _]|_]; [|apply (sd_id _ _ H b Hb)].
    destruct Hf as [Hnew|(Hid & _)]; [lia|].
    destruct (Hid (inode_at w b)) as (-> & -> & -> & -> & -> & -> & -> & -> & ->).
    apply (sd_id _ _ H b Hb).
  - intros [fs|b] m Hm; cbn [links_of] in *.
    + rewrite fs_at_updInode. apply (sd_links _ _ H (RootLinks fs) m Hm).
    + pose proof (links_of_valid _ _ _ Hm) as Hb.
      pose proof (sd_links _ _ H (NodeLinks b) m Hm) as Hb'. cbn [links_of] in Hb'.
      rewrite inode_at_updInode.
      destruct (decide _) as [[-> _]|_]; [|exact Hb'].
      destruct Hf as [Hnew|(_ & [Hnone|Hl])]; [lia|congruence|].
      rewrite (proj1 (Hl _)). exact Hb'.
  - intros b m Hm. pose proof (links_of_valid _ b _ Hm) as Hb.
    rewrite inode_at_updInode.
    destruct (decide _) as [[-> _]|_]; [|apply (sd_mtime _ _ H b m Hm)].
    destruct Hf as [Hnew|(_ & [Hnone|Hl])]; [lia|congruence|].
    rewrite (proj2 (Hl _)). apply (sd_mtime _ _ H b m Hm).
  - intros fs. rewrite fs_at_updInode. apply (sd_cwd _ _ H).
Qed.

Lemma steadily_allocInode i : steadily w0 (allocInode i).
Proof.
  intros w H. unfold allocInode. cbn [snd].
  assert (forall b, (b < List.length (inodes w0))%nat ->
            inode_at (with_inodes (inodes w ++ [i]) w) b = inode_at w b) as Hold.
  { intros b Hb. apply inode_at_app_old. pose proof (sd_len _ _ H). lia. }
  constructor.
  - simpl. rewrite length_app. pose proof (sd_len _ _ H). simpl. lia.
  - apply (sd_fslen _ _ H).
  - intros b Hb. rewrite (Hold b Hb). apply (sd_id _ _ H b Hb).
  - intros [fs|b] m Hm; cbn [links_of] in *.
    + apply (sd_links _ _ H (RootLinks fs) m Hm).
    + rewrite (Hold b (links_of_valid _ _ _ Hm)). apply (sd_links _ _ H (NodeLinks b) m Hm).
  - intros b m Hm. rewrite (Hold b (links_of_valid _ b _ Hm)).
    apply (sd_mtime _ _ H b m Hm).
  - intros fs. apply (sd_cwd _ _ H).
Qed.

Lemma steadily_allocBuffer bytes : steadily w0 (allocBuffer bytes).
Proof. intros w H. destruct H. constructor; auto. Qed.

(** An update of a file system that keeps its working directory, and
    its root map unless that was not there in [w0]. *)
Lemma steadily_modFS fs (f : FileSystem.t -> FileSystem.t) :
  (forall g, FileSystem._cwd (f g) = FileSystem._cwd g) ->
  (FileSystem.lazy_links (fs_at w0 fs) = None \/
   forall g, FileSystem.lazy_links (f g) = FileSystem.lazy_links g) ->
  steadily w0 (modFS fs f).
Proof.
  intros Hcwd Hl w H. unfold modFS, modify. cbn [snd].
  constructor.
  - rewrite inodes_updFS. apply (sd_len _ _ H).
  - rewrite fileSystems_length_updFS. apply (sd_fslen _ _ H).
  - intros b Hb. rewrite inode_at_updFS. apply (sd_id _ _ H b Hb).
  - intros [g|b] m Hm; cbn [links_of] in *.
    + pose proof (sd_links _ _ H (RootLinks g) m Hm) as Hg. cbn [links_of] in Hg.
      rewrite fs_at_updFS. destruct (decide _) as [[-> _]|_]; [|exact Hg].
      destruct Hl as [Hnone|Hl]; [congruence|]. rewrite Hl. exact Hg.
    + rewrite inode_at_updFS. apply (sd_links _ _ H (NodeLinks b) m Hm).
  - intros b m Hm. rewrite inode_at_updFS. apply (sd_mtime _ _ H b m Hm).
  - intros g. rewrite fs_at_updFS. destruct (decide _) as [[-> _]|_]; [|apply (sd_cwd _ _ H)].
    rewrite Hcwd. apply (sd_cwd _ _ H).
Qed.

Lemma steadily_modify_counter (f : World -> World) :
  (forall w, fileSystems (f w) = fileSystems w /\ inodes (f w) = inodes w) ->
  steadily w0 (modify f).
Proof.
  intros Hf w H. unfold modify. cbn [snd]. destruct (Hf w) as (Hfs & Hin).
  destruct H as [H1 H2 H3 H4 H5 H6].
  constructor; unfold inode_at, fs_at, links_of, inode_at, fs_at in *; rewrite ?Hfs, ?Hin; auto.
Qed.

(** What [_mknod] returns was not there in [w0]. *)
Lemma steadily_mknod_bind {B} fs dev type mode t (k : addr -> M B) :
  (forall a, (List.length (inodes w0) <= a)%nat -> steadily w0 (k a)) ->
  steadily w0 (bind (_mknod fs dev type mode t) k).
Proof.
  intros Hk w H.
  assert (exists tm, _mknod fs dev type mode t w =
            (Ok (List.length (inodes w)),
             snd (allocInode (Inode.mk dev (inoCount w + 1)
                    (Z.lor (Z.land (Z.land (Z.land mode (Z.lnot S_IFMT)) (Z.lnot 18)) 4095)
                           (Z.land type S_IFMT))
                    tm tm tm tm 0 None None None None None None None)
                  (with_inoCount (inoCount w + 1) w)))) as (tm & Hrun).
  { destruct t as [tm|]; eexists; reflexivity. }
  rewrite (bind_Ok _ _ _ _ _ Hrun).
  apply Hk; [pose proof (sd_len _ _ H); lia|].
  apply steadily_allocInode.
  apply (steadily_modify_counter (fun w => with_inoCount (inoCount w + 1) w)); [|exact H].
  intros ?; split; reflexivity.
Qed.

End steadily_rules.

Ltac steady_step :=
  lazymatch goal with
  | |- steadily _ (bind (_mknod _ _ _ _ _) _) => apply steadily_mknod_bind; intros ? ?
  | |- steadily _ (bind _ _) => apply steadily_bind; [ | intros ? ]
  | |- steadily _ (ret _) => apply steadily_ret
  | |- steadily _ (throw _) => apply steadily_throw
  | |- steadily _ (gets _) => apply steadily_gets
  | |- steadily _ (getFS _) => apply steadily_gets
  | |- steadily _ (getInode _) => apply steadily_gets
  | |- steadily _ (links_entries _) => apply steadily_gets
  | |- steadily _ (allocInode _) => apply steadily_allocInode
  | |- steadily _ (allocBuffer _) => apply steadily_allocBuffer
  | |- steadily _ (modify _) => apply steadily_modify_counter; intros []; split; reflexivity
  | |- steadily _ (match ?e with _ => _ end) => destruct e
  end.

Lemma steadily_time_or_now w0 fs t : steadily w0 (time_or_now fs t).
Proof. intros w H. destruct t; exact H. Qed.

Lemma steadily_getShadow w0 fs root : steadily w0 (_getShadow fs root).
Proof.
  unfold _getShadow. repeat steady_step;
    try (apply steadily_modFS; [intros []; reflexivity|right; intros []; reflexivity]).
Qed.

Lemma steadily_copyShadowLinks w0 fs source : forall target,
  steadily w0 (_copyShadowLinks fs source target).
Proof.
  induction source as [|[name root] source IH]; intros target; simpl.
  - apply steadily_ret.
  - apply steadily_bind; [apply steadily_getShadow|intros ?; apply IH].
Qed.

Lemma steadily_getRootLinks_rec w0 k : forall fs, steadily w0 (_getRootLinks_rec k fs).
Proof.
  induction k as [|k IH]; intros fs; simpl.
  - apply steadily_throw.
  - intros w H. unfold bind at 1, getFS, gets. cbn [fst snd].
    destruct (FileSystem.lazy_links (fs_at w fs)) eqn:Hl; [exact H|].
    assert (FileSystem.lazy_links (fs_at w0 fs) = None) as Hl0.
    { destruct (FileSystem.lazy_links (fs_at w0 fs)) as [m|] eqn:Hm; [|reflexivity].
      pose proof (sd_links _ _ H (RootLinks fs) m Hm) as Hc. cbn [links_of] in Hc. congruence. }
    match goal with |- steady _ (snd (?c w)) =>
      enough (steadily w0 c) as Hk by (apply Hk; exact H) end.
    apply steadily_bind; [apply steadily_modFS; [intros []; reflexivity|left; exact Hl0]|intros ?].
    apply steadily_bind; [|intros ?; steady_step].
    destruct (FileSystem._shadowRoot _) as [sr|]; [|steady_step].
    apply steadily_bind; [apply IH|intros ?].
    apply steadily_bind; [steady_step|intros ?].
    apply steadily_bind; [apply steadily_copyShadowLinks|intros ?].
    apply steadily_modFS; [intros []; reflexivity|left; exact Hl0].
Qed.

Lemma steadily_addLink_below w0 fs p name nd t :
  Inode.links (inode_at w0 p) = None ->
  (List.length (inodes w0) <= nd)%nat ->
  steadily w0 (_addLink fs (Some p) (NodeLinks p) name nd t).
Proof.
  intros Hp Hnd. unfold _addLink.
  apply steadily_bind; [apply steadily_time_or_now|intros tm].
  apply steadily_bind.
  { apply steadily_modInode. right. split; [intros []; simpl; tauto|left; exact Hp]. }
  intros _. apply steadily_bind; [apply steadily_modInode; left; exact Hnd|intros _].
  apply steadily_bind; [apply steadily_modInode; left; exact Hnd|intros _].
  apply steadily_bind.
  { apply steadily_modInode. right. split; [intros []; simpl; tauto|left; exact Hp]. }
  intros _. apply steadily_bind; [steady_step|intros f]. cbn [negb defined andb]. steady_step.
Qed.

Lemma steadily_expandMount w0 fs node source resolver names :
  Inode.links (inode_at w0 node) = None ->
  steadily w0 (expandMount fs node source resolver names).
Proof.
  intros Hn. induction names as [|name names IH]; simpl.
  - apply steadily_ret.
  - apply steadily_bind; [steady_step|intros n].
    apply steadily_bind; [|intros ?; exact IH].
    destruct (_ =? S_IFDIR).
    + steady_step.
      apply steadily_bind; [apply steadily_modInode; left; assumption|intros _].
      apply steadily_bind; [apply steadily_modInode; left; assumption|intros _].
      apply steadily_addLink_below; assumption.
    + destruct (_ =? S_IFREG); [|steady_step].
      steady_step.
      apply steadily_bind; [apply steadily_modInode; left; assumption|intros _].
      apply steadily_bind; [apply steadily_modInode; left; assumption|intros _].
      apply steadily_bind; [apply steadily_modInode; left; assumption|intros _].
      apply steadily_addLink_below; assumption.
Qed.

Lemma steadily_getLinks_rec w0 k : forall fs node, steadily w0 (_getLinks_rec k fs node).
Proof.
  induction k as [|k IH]; intros fs node; simpl.
  - apply steadily_throw.
  - intros w H. unfold bind at 1, getInode, gets. cbn [fst snd].
    destruct (Inode.links (inode_at w node)) eqn:Hl; [exact H|].
    assert (Inode.links (inode_at w0 node) = None) as Hl0.
    { destruct (Inode.links (inode_at w0 node)) as [m|] eqn:Hm; [|reflexivity].
      pose proof (sd_links _ _ H (NodeLinks node) m Hm) as Hc. cbn [links_of] in Hc. congruence. }
    assert (forall f : Inode.t -> Inode.t, keeps_fixed f -> steadily w0 (modInode node f)) as Hset.
    { intros f Hf. apply steadily_modInode. right. split; [exact Hf|left; exact Hl0]. }
    remember (inode_at w node) as n eqn:Hn. clear Hn.
    match goal with |- steady _ (snd (?c w)) =>
      enough (steadily w0 c) as Hk by (apply Hk; exact H) end.
    apply steadily_bind; [steady_step|intros f].
    apply steadily_bind; [|intros ?; steady_step].
    assert (steadily w0
                match FileSystem._shadowRoot f, Inode.shadowRoot n with
                | Some sr, Some root =>
                    (src <- _getLinks_rec k sr root ;;
                     source <- links_entries src ;;
                     filled <- _copyShadowLinks fs source (SortedMap.empty (FileSystem.ignoreCase f)) ;;
                     modInode node (Inode.set_links (Some filled)))
                | _, _ => modInode node (Inode.set_links (Some (SortedMap.empty (FileSystem.ignoreCase f))))
                end) as Hshadow.
    { destruct (FileSystem._shadowRoot f) as [sr|]; [|apply Hset; intros []; simpl; tauto].
      destruct (Inode.shadowRoot n) as [root|]; [|apply Hset; intros []; simpl; tauto].
      apply steadily_bind; [apply IH|intros ?].
      apply steadily_bind; [steady_step|intros ?].
      apply steadily_bind; [apply steadily_copyShadowLinks|intros ?].
      apply Hset; intros []; simpl; tauto. }
    destruct (truthy (Inode.source n)) as [source|]; [|exact Hshadow].
    destruct (Inode.resolver n) as [resolver|]; [|exact Hshadow].
    apply steadily_bind; [apply Hset; intros []; simpl; tauto|intros ?].
    apply steadily_bind; [apply Hset; intros []; simpl; tauto|intros ?].
    apply steadily_bind; [apply Hset; intros []; simpl; tauto|intros ?].
    apply steadily_expandMount. exact Hl0.
Qed.


(** ** What [renameSync] changes, entry by entry *)














(** * Further properties of the methods *)

(** ** Reading builds lazy state and nothing else *)

Lemma keeps_stat fs r : keeps sees (_stat fs r).
Proof.
  unfold _stat. destruct (node r) as [a|]; [|apply keeps_throw].
  apply keeps_bind; [keeps_step|intros n].
  apply keeps_bind; [|intros ?; keeps_tac].
  destruct (isFile _); [apply keeps_getSize_rec|].
  destruct (isSymlink _); keeps_step.
Qed.

Lemma keeps_statSync fs p : keeps sees (statSync fs p).
Proof.
  unfold statSync. apply keeps_bind; [apply keeps_resolve|intros ?].
  apply keeps_bind; [apply keeps_walk|intros ?]. apply keeps_stat.
Qed.

Lemma keeps_lstatSync fs p : keeps sees (lstatSync fs p).
Proof.
  unfold lstatSync. apply keeps_bind; [apply keeps_resolve|intros ?].
  apply keeps_bind; [apply keeps_walk|intros ?]. apply keeps_stat.
Qed.

Lemma keeps_readdirSync fs p : keeps sees (readdirSync fs p).
Proof.
  unfold readdirSync. apply keeps_bind; [apply keeps_resolve|intros ?].
  apply keeps_bind; [apply keeps_walk|intros r].
  apply keeps_bind; [keeps_step|intros n].
  destruct (node r); [|keeps_step]. destruct (negb _); [keeps_step|].
  apply keeps_bind; [apply keeps_getLinks|intros ?]. keeps_tac.
Qed.

Lemma keeps_readlinkSync fs p : keeps sees (readlinkSync fs p).
Proof.
  unfold readlinkSync. apply keeps_bind; [apply keeps_resolve|intros ?].
  apply keeps_bind; [apply keeps_walk|intros r].
  destruct (node r); [|keeps_step]. keeps_tac.
Qed.

Lemma keeps_realpathSync fs p : keeps sees (realpathSync fs p).
Proof.
  unfold realpathSync. apply keeps_bind; [apply keeps_resolve|intros ?].
  apply keeps_bind; [apply keeps_walk|intros r]. keeps_step.
Qed.

Lemma keeps_readFileSync fs p enc : keeps sees (readFileSync fs p enc).
Proof.
  unfold readFileSync. apply keeps_bind; [apply keeps_resolve|intros ?].
  apply keeps_bind; [apply keeps_walk|intros r].
  destruct (node r); [|keeps_step].
  apply keeps_bind; [keeps_step|intros n].
  destruct (isDirectory _); [keeps_step|]. destruct (negb _); [keeps_step|].
  apply keeps_bind; [apply keeps_getBuffer_rec|intros ?].
  destruct (truthy enc); keeps_tac.
Qed.

(** The same for [steady]. *)
Ltac steady_field :=
  apply steadily_modInode; right;
  split; [intros []; simpl; tauto|right; intros []; simpl; tauto].

Ltac steady_tac :=
  repeat first [ steady_step | steady_field ].

Lemma steadily_getSize_rec w0 k : forall fs node, steadily w0 (_getSize_rec k fs node).
Proof.
  induction k as [|k IH]; intros fs node; simpl.
  - apply steadily_throw.
  - apply steadily_bind; [steady_step|intros n].
    apply steadily_bind; [steady_step|intros f].
    destruct (Inode.buffer n); [steady_step|].
    destruct (Inode.size n); [steady_step|].
    assert (steadily w0
              match FileSystem._shadowRoot f, Inode.shadowRoot n with
              | Some sr, Some root =>
                  (sz <- _getSize_rec k sr root ;;
                   modInode node (Inode.set_size (Some sz)) ;; ret sz)
              | _, _ => ret 0
              end) as Hshadow.
    { destruct (FileSystem._shadowRoot f); [|steady_step].
      destruct (Inode.shadowRoot n); [|steady_step].
      apply steadily_bind; [apply IH|intros ?]. steady_tac. }
    destruct (truthy (Inode.source n)); [|exact Hshadow].
    destruct (Inode.resolver n); [|exact Hshadow]. steady_tac.
Qed.

Lemma steadily_getBuffer_rec w0 k : forall fs node, steadily w0 (_getBuffer_rec k fs node).
Proof.
  induction k as [|k IH]; intros fs node; simpl.
  - apply steadily_throw.
  - apply steadily_bind; [steady_step|intros n].
    apply steadily_bind; [steady_step|intros f].
    destruct (Inode.buffer n); [steady_step|].
    assert (steadily w0
              match FileSystem._shadowRoot f, Inode.shadowRoot n with
              | Some sr, Some root =>
                  (b <- _getBuffer_rec k sr root ;;
                   modInode node (Inode.set_buffer (Some b)) ;; ret b)
              | _, _ =>
                  (b <- allocBuffer [] ;;
                   modInode node (Inode.set_buffer (Some b)) ;; ret b)
              end) as Hshadow.
    { destruct (FileSystem._shadowRoot f); [|steady_tac].
      destruct (Inode.shadowRoot n); [|steady_tac].
      apply steadily_bind; [apply IH|intros ?]. steady_tac. }
    destruct (truthy (Inode.source n)); [|exact Hshadow].
    destruct (Inode.resolver n); [|exact Hshadow]. steady_tac.
Qed.

Lemma steadily_walk_steps w0 fs nf rest : forall links parent seen,
  steadily w0 (walk_steps fs nf links parent seen rest).
Proof.
  induction rest as [|b rest IH]; intros links parent seen; simpl.
  - apply steadily_throw.
  - apply steadily_bind; [apply steadily_gets|intros nd].
    apply steadily_bind; [steady_step|intros n].
    destruct (_ && _); [steady_step|].
    destruct nd as [a|]; [|steady_step].
    destruct (isSymlink n); [steady_step|].
    destruct (isDirectory n); [|steady_step].
    apply steadily_bind; [apply steadily_getLinks_rec|intros ?]. apply IH.
Qed.

Lemma steadily_walk w0 fs path nf : steadily w0 (_walk fs path nf).
Proof.
  unfold _walk. generalize (vpath.parse path). generalize maxDepth.
  intros limit. induction limit as [|limit IH]; intros cs; simpl.
  - apply steadily_throw.
  - apply steadily_bind; [apply steadily_getRootLinks_rec|intros ?].
    apply steadily_bind; [apply steadily_walk_steps|intros [r|cs']]; [steady_step|apply IH].
Qed.

Lemma steadily_resolve w0 fs p : steadily w0 (_resolve fs p).
Proof.
  unfold _resolve, validated. apply steadily_bind; [steady_step|intros f].
  destruct (negb _); destruct (vpath.validate _ _); steady_tac.
Qed.

Lemma steadily_stat w0 fs r : steadily w0 (_stat fs r).
Proof.
  unfold _stat. destruct (node r) as [a|]; [|steady_step].
  apply steadily_bind; [steady_step|intros n].
  apply steadily_bind; [|intros ?; steady_tac].
  destruct (isFile _); [apply steadily_getSize_rec|].
  destruct (isSymlink _); steady_step.
Qed.

Lemma steadily_reads w0 fs p :
  steadily w0 (statSync fs p) /\ steadily w0 (lstatSync fs p) /\
  steadily w0 (readdirSync fs p) /\ steadily w0 (readlinkSync fs p) /\
  steadily w0 (realpathSync fs p) /\ forall enc, steadily w0 (readFileSync fs p enc).
Proof.
  assert (forall T nf (k : WalkResult -> M T),
            (forall r, steadily w0 (k r)) ->
            steadily w0 (q <- _resolve fs p ;; r <- _walk fs q nf ;; k r)) as Hhead.
  { intros T nf k Hk. apply steadily_bind; [apply steadily_resolve|intros ?].
    apply steadily_bind; [apply steadily_walk|exact Hk]. }
  split; [apply Hhead; intros r; apply steadily_stat|].
  split; [apply Hhead; intros r; apply steadily_stat|].
  split; [|split; [|split]].
  - apply Hhead. intros r. apply steadily_bind; [steady_step|intros n].
    destruct (node r); [|steady_step]. destruct (negb _); [steady_step|].
    apply steadily_bind; [apply steadily_getLinks_rec|intros ?]. steady_tac.
  - apply Hhead. intros r. destruct (node r); [|steady_step]. steady_tac.
  - apply Hhead. intros r. steady_step.
  - intros enc. apply Hhead. intros r. destruct (node r); [|steady_step].
    apply steadily_bind; [steady_step|intros n].
    destruct (isDirectory _); [steady_step|]. destruct (negb _); [steady_step|].
    apply steadily_bind; [apply steadily_getBuffer_rec|intros ?].
    cbv zeta. destruct (truthy enc); steady_tac.
Qed.

(** X1: what the reading methods ([statSync], [lstatSync],
    [readdirSync], [readlinkSync], [realpathSync], [readFileSync]) leave
    as it was, whether they return or throw.  Every file system keeps
    its working directory, directory stack, clock, read-only flag, case
    rule and shadow root.  Every inode that exists keeps [dev], [ino],
    [mode], [nlink], [atimeMs], [ctimeMs], [birthtimeMs], its link text
    and its shadow root, and keeps [mtimeMs] when its name map was built
    before.  Every name map that exists stays as it is, and every buffer
    store that exists keeps its bytes.  (The other fields are filled in
    on first use, and a directory whose name map is built by the call
    can get a new [mtimeMs].) *)
Theorem reading_changes_nothing_seen fs p w :
  let unseen w' := sees w w' /\ steady w w' in
  unseen (exec (statSync fs p) w) /\
  unseen (exec (lstatSync fs p) w) /\
  unseen (exec (readdirSync fs p) w) /\
  unseen (exec (readlinkSync fs p) w) /\
  unseen (exec (realpathSync fs p) w) /\
  (forall enc, unseen (exec (readFileSync fs p enc) w)) /\
  (forall w', unseen w' ->
     (forall fs', FileSystem._cwd (fs_at w' fs') = FileSystem._cwd (fs_at w fs') /\
                  FileSystem.frozen (fs_at w' fs') = FileSystem.frozen (fs_at w fs') /\
                  FileSystem._time (fs_at w' fs') = FileSystem._time (fs_at w fs')) /\
     (forall r m, links_of w r = Some m -> links_of w' r = Some m) /\
     (forall a, (a < List.length (inodes w))%nat ->
                Inode.mode (inode_at w' a) = Inode.mode (inode_at w a) /\
                Inode.ino (inode_at w' a) = Inode.ino (inode_at w a) /\
                Inode.nlink (inode_at w' a) = Inode.nlink (inode_at w a) /\
                Inode.ctimeMs (inode_at w' a) = Inode.ctimeMs (inode_at w a)) /\
     (forall a m, Inode.links (inode_at w a) = Some m ->
                  Inode.mtimeMs (inode_at w' a) = Inode.mtimeMs (inode_at w a)) /\
     (forall s, (s < List.length (stores w))%nat -> store_at w' s = store_at w s)).
Proof.
  cbv zeta. destruct (steadily_reads w fs p) as (S1 & S2 & S3 & S4 & S5 & S6).
  pose proof (steady_refl w) as Hr.
  split; [split; [apply keeps_statSync|apply S1, Hr]|].
  split; [split; [apply keeps_lstatSync|apply S2, Hr]|].
  split; [split; [apply keeps_readdirSync|apply S3, Hr]|].
  split; [split; [apply keeps_readlinkSync|apply S4, Hr]|].
  split; [split; [apply keeps_realpathSync|apply S5, Hr]|].
  split; [intros enc; split; [apply keeps_readFileSync|apply S6, Hr]|].
  intros w' (Hs & Hst). split; [|split; [|split; [|split]]].
  - intros fs'. destruct (sb_fs _ _ _ Hs fs') as (? & ? & _ & ? & _). tauto.
  - apply (sd_links _ _ Hst).
  - intros a Ha. destruct (sd_id _ _ Hst a Ha) as (? & _ & ? & ? & _ & _ & ? & _). tauto.
  - apply (sd_mtime _ _ Hst).
  - apply (sb_stores _ _ _ Hs).
Qed.

(** X2: a walk that returned returns the same result when it is made
    again in the state it left, and leaves that state as it is: the
    lazily built maps are built once. *)
Theorem walk_twice fs path nf w r w1 :
  fs_valid w fs ->
  _walk fs path nf w = (Ok r, w1) ->
  _walk fs path nf w1 = (Ok r, w1).
Proof. intros Hv H. exact (walk_loop_again fs nf maxDepth _ w r w1 H Hv). Qed.

Lemma walk_twice_witness :
  twoDirs <> exec (_walk 0%nat "/c/b.txt" true) twoDirs /\
  _walk 0%nat "/c/b.txt" true (exec (_walk 0%nat "/c/b.txt" true) twoDirs) =
    (Ok {| realpath := "/c/b.txt"; basename := "b.txt"; parent := Some 3%nat;
           links := NodeLinks 3%nat; node := None |},
     exec (_walk 0%nat "/c/b.txt" true) twoDirs).
Proof.
  split.
  - vm_compute. discriminate.
  - apply (walk_twice 0%nat "/c/b.txt" true twoDirs).
    + vm_compute. lia.
    + vm_compute. reflexivity.
Defined.
(** ** Names that are added *)

(** With a last node that is no symbolic link, following the last link
    or not makes no difference. *)
Lemma walk_steps_follow fs rest :
  forall lk par seen w o w1,
    walk_steps fs true lk par seen rest w = (Ok o, w1) ->
    match o with
    | inl r => isSymlink (deref w1 (node r)) = false
    | inr _ => True
    end ->
    walk_steps fs false lk par seen rest w = (Ok o, w1).
Proof.
  induction rest as [|b rest IH]; intros lk par seen w o w1 H Hns; [discriminate H|].
  rewrite walk_steps_cons in H. rewrite walk_steps_cons. cbv zeta in *.
  destruct rest as [|b2 rest].
  - cbn [andb orb] in *. inversion H; subst. cbn [node] in Hns. rewrite Hns. reflexivity.
  - cbn [andb] in *.
    destruct (lookup_in w lk b) as [a|]; [|discriminate H]. cbn [deref] in *.
    destruct (isSymlink _); [exact H|].
    destruct (isDirectory _); [|discriminate H].
    destruct (_getLinks fs a w) as [[l|e] w0] eqn:E;
      [|rewrite (bind_Throw _ _ _ _ _ E) in H; discriminate H].
    rewrite (bind_Ok _ _ _ _ _ E) in H. rewrite (bind_Ok _ _ _ _ _ E).
    exact (IH _ _ _ _ _ _ H Hns).
Qed.

Lemma walk_loop_follow fs limit :
  forall cs w r w1,
    walk_loop limit fs true cs w = (Ok r, w1) ->
    isSymlink (deref w1 (node r)) = false ->
    walk_loop limit fs false cs w = (Ok r, w1).
Proof.
  induction limit as [|limit IH]; intros cs w r w1 H Hns; [discriminate H|].
  rewrite walk_loop_S in *. unfold walk_pass in *.
  destruct (_getRootLinks fs w) as [[lr|e] w0] eqn:Eroot;
    [|rewrite (bind_Throw _ _ _ _ _ Eroot) in H; discriminate H].
  rewrite (bind_Ok _ _ _ _ _ Eroot) in H. rewrite (bind_Ok _ _ _ _ _ Eroot).
  destruct (walk_steps fs true lr None [] cs w0) as [[[r'|cs']|e] w'] eqn:Est;
    [| |discriminate H].
  - inversion H; subst r' w'.
    rewrite (walk_steps_follow fs cs _ _ _ _ _ _ Est Hns). reflexivity.
  - rewrite (walk_steps_follow fs cs _ _ _ _ _ _ Est I). apply IH; assumption.
Qed.

(** After a name was added where a walk found none, the walk finds the
    new node there. *)
Lemma walk_after_attach fs q w r w1 w' nd :
  fs_valid w fs ->
  _walk fs q true w = (Ok r, w1) ->
  sees w1 w' ->
  lookup_in w' (links r) (basename r) = Some nd ->
  _walk fs q true w' = (Ok (with_node r (Some nd)), w') /\
  (isSymlink (Some (inode_at w' nd)) = false ->
   _walk fs q false w' = (Ok (with_node r (Some nd)), w')).
Proof.
  intros Hv H Hs Hlook. unfold _walk in *.
  assert (walk_loop maxDepth fs true (vpath.parse q) w' = (Ok (with_node r (Some nd)), w')) as H1.
  { rewrite (walk_loop_replay fs true maxDepth _ _ _ _ H Hv w' Hs); [|left; reflexivity].
    rewrite Hlook. reflexivity. }
  split; [exact H1|]. intros Hns. apply walk_loop_follow; [exact H1|exact Hns].
Qed.

Lemma addLink_now_run fs p name nd w :
  _addLink fs (Some p) (NodeLinks p) name nd None w =
  _addLink fs (Some p) (NodeLinks p) name nd (Some (clock w fs)) w.
Proof. reflexivity. Qed.

Lemma inode_at_attach par name nd tm w :
  (nd < List.length (inodes w))%nat -> nd <> par ->
  inode_at (updInode par (Inode.set_mtimeMs tm)
             (updInode nd (Inode.set_ctimeMs tm)
                (updInode nd (nlink_add 1)
                   (updInode par (set_entry name nd) w)))) nd
  = Inode.set_ctimeMs tm (nlink_add 1 (inode_at w nd)).
Proof.
  intros Hnd Hne.
  rewrite inode_at_updInode_other by congruence.
  rewrite inode_at_updInode_same by (rewrite !inodes_length_updInode; exact Hnd).
  rewrite inode_at_updInode_same by (rewrite !inodes_length_updInode; exact Hnd).
  rewrite inode_at_updInode_other by congruence. reflexivity.
Qed.

(** [_addLink] below a directory, for a name its map does not have. *)
Lemma addLink_effect fs par name nd tm w m :
  links_at w par = Some m -> SortedMap.get name m = None ->
  (nd < List.length (inodes w))%nat -> nd <> par ->
  exists w',
    _addLink fs (Some par) (NodeLinks par) name nd (Some tm) w = (Ok tt, w') /\
    sees w w' /\
    lookup_in w' (NodeLinks par) name = Some nd /\
    inode_at w' nd = Inode.set_ctimeMs tm (nlink_add 1 (inode_at w nd)) /\
    (forall b, b <> par -> b <> nd -> inode_at w' b = inode_at w b) /\
    fileSystems w' = fileSystems w /\ stores w' = stores w.
Proof.
  intros Hm Hnone Hnd Hne. eexists. split; [apply addLink_run|].
  split; [|split; [|split; [|split; [|split]]]].
  - eapply sees_trans; [apply (sees_set_entry par name nd w m Hm Hnone)|].
    eapply sees_trans; [apply sees_updInode_fields;
                        [apply keeps_links_nlink|apply keeps_identity_nlink|intros []; simpl; tauto]|].
    eapply sees_trans; [apply sees_updInode_fields;
                        [apply keeps_links_ctime|apply keeps_identity_ctime|intros []; simpl; tauto]|].
    apply sees_updInode_fields;
      [apply keeps_links_mtime|apply keeps_identity_mtime|intros []; simpl; tauto].
  - rewrite lookup_in_NodeLinks.
    rewrite (links_at_keep _ _ _ _ (keeps_links_mtime tm)),
      (links_at_keep _ _ _ _ (keeps_links_ctime tm)),
      (links_at_keep _ _ _ _ (keeps_links_nlink 1)),
      (links_at_set_entry _ _ _ _ _ _ Hm).
    destruct (decide (par = par)); [|congruence].
    apply get_set_same, same_key_refl.
  - apply inode_at_attach; assumption.
  - intros b Hb1 Hb2. rewrite !inode_at_updInode_other by congruence. reflexivity.
  - reflexivity.
  - reflexivity.
Qed.

(** Updates of an inode that did not exist in [w0] are not seen from
    [w0]. *)
Lemma sees_updInode_new w0 w a f :
  sees w0 w -> (List.length (inodes w0) <= a)%nat -> sees w0 (updInode a f w).
Proof.
  intros Hs Ha. constructor.
  - rewrite inodes_length_updInode. apply (sb_len _ _ _ Hs).
  - apply (sb_fslen _ _ _ Hs).
  - intros b Hb. rewrite inode_at_updInode_other by lia. apply (sb_id _ _ _ Hs b Hb).
  - intros b mb Hb.
    assert (b < List.length (inodes w0))%nat as Hv.
    { destruct (Nat.lt_ge_cases b (List.length (inodes w0))) as [?|Hge]; [assumption|].
      rewrite inode_at_dangling in Hb by exact Hge. discriminate Hb. }
    rewrite inode_at_updInode_other by lia. apply (sb_links _ _ _ Hs b mb Hb).
  - intros fs mr Hr. rewrite fs_at_updInode. apply (sb_root _ _ _ Hs fs mr Hr).
  - intros fs. rewrite fs_at_updInode. apply (sb_fs _ _ _ Hs fs).
  - apply (sb_storeslen _ _ _ Hs).
  - apply (sb_stores _ _ _ Hs).
  - apply (sb_now _ _ _ Hs).
Qed.

(** What [_mknod] creates. *)
Lemma mknod_new fs dev type mode tm w :
  exists w',
    _mknod fs dev type mode (Some tm) w = (Ok (List.length (inodes w)), w') /\
    sees w w' /\
    List.length (inodes w') = S (List.length (inodes w)) /\
    inode_at w' (List.length (inodes w)) =
      Inode.mk dev (inoCount w + 1)
        (Z.lor (Z.land (Z.land (Z.land mode (Z.lnot S_IFMT)) (Z.lnot 18)) 4095)
               (Z.land type S_IFMT))
        tm tm tm tm 0 None None None None None None None /\
    (forall b, (b < List.length (inodes w))%nat -> inode_at w' b = inode_at w b).
Proof.
  eexists. split; [reflexivity|]. split; [|split; [|split]].
  - apply (keeps_mknod (fun _ => False) fs dev type mode (Some tm) w).
  - simpl. rewrite length_app. simpl. lia.
  - unfold inode_at. simpl. rewrite nth_middle. reflexivity.
  - intros b Hb. unfold inode_at. simpl. apply app_nth1. exact Hb.
Qed.

(** A directory inode without a map, a mount source or a shadow root
    gets an empty map on first use. *)
Lemma getLinks_fresh fs nd w :
  Inode.links (inode_at w nd) = None ->
  Inode.source (inode_at w nd) = None ->
  Inode.shadowRoot (inode_at w nd) = None ->
  exists w', _getLinks fs nd w = (Ok (NodeLinks nd), w') /\
             ((nd < List.length (inodes w))%nat ->
              links_of w' (NodeLinks nd) = Some (SortedMap.empty (FileSystem.ignoreCase (fs_at w fs)))).
Proof.
  intros Hl Hs Hr. unfold _getLinks. cbn [_getLinks_rec]. mrun. rewrite Hl. mrun.
  rewrite Hs, Hr. cbn [truthy].
  destruct (FileSystem._shadowRoot (fs_at w fs)); mrun;
    (eexists; split; [reflexivity|]; intros Hnd; cbn [links_of];
     rewrite inode_at_updInode_same by exact Hnd; reflexivity).
Qed.

(** What a successful [mkdirSync] below a root leaves: the walk of the
    path ends at a new directory inode without a map. *)
Lemma mkdir_leaves_directory fs w p q w' :
  fs_valid w fs ->
  _resolve fs p w = (Ok q, w) ->
  (2 <= List.length (vpath.parse q))%nat ->
  mkdirSync fs p w = (Ok tt, w') ->
  exists r nd,
    FileSystem.frozen (fs_at w' fs) = false /\
    _resolve fs p w' = (Ok q, w') /\
    _walk fs q true w' = (Ok r, w') /\
    _walk fs q false w' = (Ok r, w') /\
    node r = Some nd /\ parent r <> None /\
    Inode.mode (inode_at w' nd) = 16877 /\
    Inode.nlink (inode_at w' nd) = 1 /\
    Inode.links (inode_at w' nd) = None /\
    Inode.source (inode_at w' nd) = None /\
    Inode.shadowRoot (inode_at w' nd) = None.
Proof.
  intros Hv Hres Hlen H. unfold mkdirSync, isReadonly in H. rewrite bind_gets in H.
  destruct (FileSystem.frozen (fs_at w fs)) eqn:Hrw; [discriminate H|].
  rewrite (bind_Ok _ _ _ _ _ Hres) in H.
  destruct (_walk fs q true w) as [[r|e] w1] eqn:E0;
    [|rewrite (bind_Throw _ _ _ _ _ E0) in H; discriminate H].
  rewrite (bind_Ok _ _ _ _ _ E0) in H.
  pose proof (run_sees _ _ _ _ (keeps_walk fs q true) E0) as Hs1.
  destruct (walk_loop_result fs true maxDepth _ _ _ _ E0 Hv)
    as ((Hnode & _ & Hslot & (m & Hm) & Hpdir) & _).
  destruct (node r) as [x|] eqn:Hn; [discriminate H|]. cbn [defined] in H.
  destruct (parent r) as [par|] eqn:Hpar.
  2:{ destruct (proj1 (walk_nofollow_root fs maxDepth _ _ _ _ E0) Hpar) as [c Hc].
      rewrite Hc in Hlen. simpl in Hlen. lia. }
  cbn [slot_of] in Hslot. rewrite Hslot in *. cbn [links_of] in Hm.
  rewrite (bind_Ok _ _ _ _ _ (time_read fs w1)) in H.
  unfold dev_for, getInode in H. rewrite bind_bind, bind_gets, bind_ret in H.
  destruct (mknod_new fs (Inode.dev (inode_at w1 par)) S_IFDIR 511 (clock w1 fs) w1)
    as (w2 & Hmk & Hs2 & Hlen2 & Hnew & Hold).
  rewrite (bind_Ok _ _ _ _ _ Hmk) in H.
  pose proof (links_at_valid _ _ _ Hm) as Hpv.
  assert (links_at w2 par = Some m) as Hm2 by (unfold links_at; rewrite (Hold par Hpv); exact Hm).
  assert (SortedMap.get (basename r) m = None) as Hnone.
  { unfold lookup_in in Hnode. cbn [links_of] in Hnode. rewrite Hm in Hnode. congruence. }
  destruct (addLink_effect fs par (basename r) (List.length (inodes w1)) (clock w1 fs) w2 m
              Hm2 Hnone) as (w3 & Hadd & Hs3 & Hlook & Hnd & _); [lia|lia|].
  rewrite Hadd in H. inversion H; subst w3. clear H.
  set (nd := List.length (inodes w1)) in *.
  assert (sees w1 w') as Hs13 by (eapply sees_trans; eassumption).
  assert (sees w w') as Hs by (eapply sees_trans; eassumption).
  rewrite Hnew in Hnd.
  assert (Inode.mode (inode_at w' nd) = 16877) as Hmode by (rewrite Hnd; reflexivity).
  assert (isSymlink (Some (inode_at w' nd)) = false) as Hns
      by (unfold isSymlink; rewrite Hmode; reflexivity).
  destruct (walk_after_attach fs q w r w1 w' nd Hv E0 Hs13) as (Hwalk1 & Hwalk2).
  { rewrite Hslot. exact Hlook. }
  exists (with_node r (Some nd)), nd.
  split; [destruct (sb_fs _ _ _ Hs fs) as (_ & -> & _); exact Hrw|].
  split; [rewrite (resolve_sees fs p w w' Hs), Hres; reflexivity|].
  split; [exact Hwalk1|]. split; [exact (Hwalk2 Hns)|].
  split; [reflexivity|]. split; [cbn [parent with_node]; congruence|].
  split; [exact Hmode|]. rewrite Hnd. repeat split; reflexivity.
Qed.

(** X3: after [mkdirSync(p)] has returned for a path below a root,
    [statSync(p)] describes a directory with mode [0o755], one link and
    size 0, and [readdirSync(p)] returns the empty list. *)
Theorem mkdir_then_stat fs w p q w' :
  fs_valid w fs ->
  _resolve fs p w = (Ok q, w) ->
  (2 <= List.length (vpath.parse q))%nat ->
  mkdirSync fs p w = (Ok tt, w') ->
  (exists st, statSync fs p w' = (Ok st, w') /\
              st_isDirectory st = true /\ st_mode st = 16877 /\
              st_nlink st = 1 /\ st_size st = 0) /\
  (exists w'', readdirSync fs p w' = (Ok [], w'')).
Proof.
  intros Hv Hres Hlen H.
  destruct (mkdir_leaves_directory fs w p q w' Hv Hres Hlen H)
    as (r & nd & _ & Hres' & _ & Hwalk & Hn & _ & Hmode & Hnlink & Hl & Hsrc & Hsh).
  assert (isSymlink (Some (inode_at w' nd)) = false) as Hns
      by (unfold isSymlink; rewrite Hmode; reflexivity).
  assert (isDirectory (Some (inode_at w' nd)) = true) as Hdir
      by (unfold isDirectory; rewrite Hmode; reflexivity).
  split.
  - eexists. split; [|split; [|split; [|split]]].
    + unfold statSync. rewrite (bind_Ok _ _ _ _ _ Hres'), (bind_Ok _ _ _ _ _ Hwalk).
      unfold _stat. rewrite Hn. mrun.
      assert (isFile (Some (inode_at w' nd)) = false) as ->
          by (unfold isFile; rewrite Hmode; reflexivity).
      rewrite Hns. mrun. reflexivity.
    + unfold st_isDirectory. cbn [st_mode]. rewrite Hmode. reflexivity.
    + cbn [st_mode]. exact Hmode.
    + cbn [st_nlink]. exact Hnlink.
    + reflexivity.
  - destruct (getLinks_fresh fs nd w' Hl Hsrc Hsh) as (w'' & Hget & Hempty).
    exists w''. unfold readdirSync.
    rewrite (bind_Ok _ _ _ _ _ Hres'), (bind_Ok _ _ _ _ _ Hwalk).
    rewrite Hn. mrun. cbn [deref]. rewrite Hdir. cbn [negb].
    rewrite (bind_Ok _ _ _ _ _ Hget). mrun.
    rewrite Hempty; [reflexivity|].
    apply isDirectory_valid. exact Hdir.
Qed.

Lemma mkdir_then_stat_witness :
  (exists st, statSync 0%nat "/a/d" (exec (mkdirSync 0%nat "/a/d") populated)
              = (Ok st, exec (mkdirSync 0%nat "/a/d") populated) /\
              st_isDirectory st = true /\ st_mode st = 16877 /\
              st_nlink st = 1 /\ st_size st = 0) /\
  (exists w'', readdirSync 0%nat "/a/d" (exec (mkdirSync 0%nat "/a/d") populated) = (Ok [], w'')).
Proof.
  apply (mkdir_then_stat 0%nat populated "/a/d" "/a/d").
  - vm_compute. lia.
  - vm_compute. reflexivity.
  - vm_compute. lia.
  - vm_compute. reflexivity.
Defined.

(** X4: after [symlinkSync(target, p)] has returned, [readlinkSync(p)]
    returns [target], and [lstatSync(p)] describes a symbolic link whose
    size is the length of [target]. *)
Theorem symlink_then_readlink fs w t p w' :
  fs_valid w fs ->
  symlinkSync fs t p w = (Ok tt, w') ->
  readlinkSync fs p w' = (Ok t, w') /\
  exists st, lstatSync fs p w' = (Ok st, w') /\
             st_isSymbolicLink st = true /\
             st_size st = Z.of_nat (String.length t) /\
             st_nlink st = 1.
Proof.
  intros Hv H. unfold symlinkSync, isReadonly in H. rewrite bind_gets in H.
  destruct (FileSystem.frozen (fs_at w fs)); [discriminate H|].
  destruct (_resolve fs p w) as [[q|e] wq] eqn:Hres;
    [|rewrite (bind_Throw _ _ _ _ _ Hres) in H; discriminate H].
  pose proof (resolve_pure _ _ _ _ _ Hres) as ->.
  rewrite (bind_Ok _ _ _ _ _ Hres) in H.
  destruct (_walk fs q true w) as [[r|e] w1] eqn:E0;
    [|rewrite (bind_Throw _ _ _ _ _ E0) in H; discriminate H].
  rewrite (bind_Ok _ _ _ _ _ E0) in H.
  pose proof (run_sees _ _ _ _ (keeps_walk fs q true) E0) as Hs1.
  destruct (walk_loop_result fs true maxDepth _ _ _ _ E0 Hv)
    as ((Hnode & _ & Hslot & (m & Hm) & Hpdir) & _).
  destruct (parent r) as [par|] eqn:Hpar; [|discriminate H].
  destruct (node r) as [x|] eqn:Hn; [discriminate H|]. cbn [defined] in H.
  cbn [slot_of] in Hslot. rewrite Hslot in *. cbn [links_of] in Hm.
  rewrite (bind_Ok _ _ _ _ _ (time_read fs w1)) in H.
  unfold getInode in H. rewrite bind_gets in H.
  destruct (mknod_new fs (Inode.dev (inode_at w1 par)) S_IFLNK 438 (clock w1 fs) w1)
    as (w2 & Hmk & Hs2 & Hlen2 & Hnew & Hold).
  rewrite (bind_Ok _ _ _ _ _ Hmk) in H.
  unfold validated in H. cbn [vpath.validate] in H. rewrite bind_ret in H.
  unfold modInode in H. rewrite bind_modify in H.
  set (nd := List.length (inodes w1)) in *.
  set (w2' := updInode nd (Inode.set_symlink (Some t)) w2) in *.
  pose proof (links_at_valid _ _ _ Hm) as Hpv.
  assert (inode_at w2' nd = Inode.set_symlink (Some t) (inode_at w2 nd)) as Hnd2.
  { unfold w2'. apply inode_at_updInode_same. lia. }
  assert (links_at w2' par = Some m) as Hm2.
  { unfold links_at, w2'. rewrite inode_at_updInode_other by (unfold nd; lia).
    rewrite (Hold par Hpv). exact Hm. }
  assert (SortedMap.get (basename r) m = None) as Hnone.
  { unfold lookup_in in Hnode. cbn [links_of] in Hnode. rewrite Hm in Hnode. congruence. }
  destruct (addLink_effect fs par (basename r) nd (clock w1 fs) w2' m Hm2 Hnone)
    as (w3 & Hadd & Hs3 & Hlook & Hnd & _).
  { unfold w2'. rewrite inodes_length_updInode. lia. }
  { unfold nd. lia. }
  rewrite Hadd in H. inversion H; subst w3. clear H.
  assert (sees w1 w2') as Hs22 by (apply sees_updInode_new; [exact Hs2|unfold nd; lia]).
  assert (sees w1 w') as Hs13.
  { eapply sees_trans; [exact Hs22|exact Hs3]. }
  assert (sees w w') as Hs by (eapply sees_trans; eassumption).
  assert (_resolve fs p w' = (Ok q, w')) as Hres'.
  { rewrite (resolve_sees fs p w w' Hs), Hres. reflexivity. }
  rewrite Hnd2, Hnew in Hnd.
  assert (Inode.mode (inode_at w' nd) = 41380) as Hmode by (rewrite Hnd; reflexivity).
  destruct (walk_after_attach fs q w r w1 w' nd Hv E0 Hs13) as (Hwalk & _).
  { rewrite Hslot. exact Hlook. }
  assert (isSymlink (Some (inode_at w' nd)) = true) as Hsym
      by (unfold isSymlink; rewrite Hmode; reflexivity).
  split.
  - unfold readlinkSync. rewrite (bind_Ok _ _ _ _ _ Hres'), (bind_Ok _ _ _ _ _ Hwalk).
    cbn [node with_node]. mrun. rewrite Hsym. cbn [negb]. rewrite Hnd. reflexivity.
  - eexists. split; [|split; [|split]].
    + unfold lstatSync. rewrite (bind_Ok _ _ _ _ _ Hres'), (bind_Ok _ _ _ _ _ Hwalk).
      unfold _stat. cbn [node with_node]. mrun.
      assert (isFile (Some (inode_at w' nd)) = false) as ->
          by (unfold isFile; rewrite Hmode; reflexivity).
      rewrite Hsym. mrun. reflexivity.
    + unfold st_isSymbolicLink. cbn [st_mode]. rewrite Hmode. reflexivity.
    + cbn [st_size]. rewrite Hnd. reflexivity.
    + cbn [st_nlink]. rewrite Hnd. reflexivity.
Qed.

Lemma symlink_then_readlink_witness :
  readlinkSync 0%nat "/a/s" (exec (symlinkSync 0%nat "../x/y" "/a/s") populated)
    = (Ok "../x/y", exec (symlinkSync 0%nat "../x/y" "/a/s") populated) /\
  exists st, lstatSync 0%nat "/a/s" (exec (symlinkSync 0%nat "../x/y" "/a/s") populated)
               = (Ok st, exec (symlinkSync 0%nat "../x/y" "/a/s") populated) /\
             st_isSymbolicLink st = true /\
             st_size st = Z.of_nat (String.length "../x/y") /\
             st_nlink st = 1.
Proof.
  apply (symlink_then_readlink 0%nat populated "../x/y" "/a/s").
  - vm_compute. lia.
  - vm_compute. reflexivity.
Defined.

(** X5: [linkSync(old, new)] on a writable file system.  When [old]
    resolves (following links) to an inode [a] that is not a directory
    and [new] names a missing entry below a directory, [linkSync]
    returns; afterwards [new] resolves to [a] as well, [old] still
    does, and [a] has one link more than it had. *)
Theorem link_adds_a_name fs w old new qo ro w1 a qn rn w2 par :
  fs_valid w fs ->
  FileSystem.frozen (fs_at w fs) = false ->
  _resolve fs old w = (Ok qo, w) ->
  _walk fs qo false w = (Ok ro, w1) ->
  node ro = Some a ->
  (a < List.length (inodes w1))%nat ->
  isDirectory (Some (inode_at w1 a)) = false ->
  _resolve fs new w1 = (Ok qn, w1) ->
  _walk fs qn true w1 = (Ok rn, w2) ->
  parent rn = Some par ->
  node rn = None ->
  exists wf,
    linkSync fs old new w = (Ok tt, wf) /\
    _walk fs qn true wf = (Ok (with_node rn (Some a)), wf) /\
    _walk fs qo false wf = (Ok ro, wf) /\
    Inode.nlink (inode_at wf a) = Inode.nlink (inode_at w2 a) + 1 /\
    Inode.ino (inode_at wf a) = Inode.ino (inode_at w1 a).
Proof.
  intros Hv Hrw Hres1 Hw1 Hn1 Ha Hnd Hres2 Hw2 Hpar Hn2.
  pose proof (run_sees _ _ _ _ (keeps_walk fs qo false) Hw1) as Hs1.
  pose proof (run_sees _ _ _ _ (keeps_walk fs qn true) Hw2) as Hs2.
  pose proof (fs_valid_sees _ _ _ Hs1 Hv) as Hv1.
  destruct (walk_loop_result fs false maxDepth _ _ _ _ Hw1 Hv)
    as ((Hnode1 & Hsym1 & _) & _).
  destruct (walk_loop_result fs true maxDepth _ _ _ _ Hw2 Hv1)
    as ((Hnode2 & _ & Hslot & (m & Hm) & Hpdir) & _).
  rewrite Hpar in Hslot. cbn [slot_of] in Hslot. rewrite Hslot in *. cbn [links_of] in Hm.
  assert (SortedMap.get (basename rn) m = None) as Hnone.
  { unfold lookup_in in Hnode2. cbn [links_of] in Hnode2. rewrite Hm in Hnode2. congruence. }
  destruct (sb_id _ _ _ Hs2 a Ha) as (Hmode & _ & Hino & _).
  assert (a <> par) as Hne.
  { intros ->. specialize (Hpdir par Hpar).
    unfold isDirectory in *. rewrite Hmode in Hpdir. congruence. }
  assert (a < List.length (inodes w2))%nat as Ha2 by (pose proof (sb_len _ _ _ Hs2); lia).
  destruct (addLink_effect fs par (basename rn) a (clock w2 fs) w2 m Hm Hnone Ha2 Hne)
    as (wf & Hadd & Hs3 & Hlook & Hinode & _).
  exists wf.
  assert (sees w1 wf) as Hs13 by (eapply sees_trans; eassumption).
  split; [|split; [|split; [|split]]].
  - unfold linkSync, isReadonly. rewrite bind_gets, Hrw.
    rewrite (bind_Ok _ _ _ _ _ Hres1), (bind_Ok _ _ _ _ _ Hw1). rewrite Hn1.
    unfold getInode. rewrite bind_gets. rewrite Hnd.
    rewrite (bind_Ok _ _ _ _ _ Hres2), (bind_Ok _ _ _ _ _ Hw2). rewrite Hpar, Hn2.
    cbn [defined negb]. rewrite Hslot. rewrite addLink_now_run. exact Hadd.
  - destruct (walk_after_attach fs qn w1 rn w2 wf a Hv1 Hw2 Hs3) as (Hwalk & _);
      [rewrite Hslot; exact Hlook|exact Hwalk].
  - unfold _walk in *.
    assert (lookup_in wf (links ro) (basename ro) = Some a) as Hl.
    { apply (lookup_kept w1 wf); [exact Hs13|]. rewrite <- Hnode1. exact Hn1. }
    rewrite (walk_loop_replay fs false maxDepth _ _ _ _ Hw1 Hv wf Hs13).
    + rewrite Hl, <- Hn1. destruct ro; reflexivity.
    + right. rewrite Hl. cbn [deref].
      destruct Hsym1 as [Habs|Hsym1]; [discriminate Habs|].
      rewrite Hn1 in Hsym1. cbn [deref] in Hsym1.
      destruct (sb_id _ _ _ Hs13 a Ha) as (Hmode' & _).
      unfold isSymlink in *. rewrite Hmode'. exact Hsym1.
  - rewrite Hinode. destruct (inode_at w2 a); reflexivity.
  - rewrite Hinode.
    transitivity (Inode.ino (inode_at w2 a)); [destruct (inode_at w2 a); reflexivity|exact Hino].
Qed.

Lemma link_adds_a_name_witness :
  exists wf,
    linkSync 0%nat "/a/b.txt" "/c/hard" twoDirs = (Ok tt, wf) /\
    _walk 0%nat "/c/hard" true wf =
      (Ok {| realpath := "/c/hard"; basename := "hard"; parent := Some 3%nat;
             links := NodeLinks 3%nat; node := Some 2%nat |}, wf) /\
    _walk 0%nat "/a/b.txt" false wf =
      (Ok {| realpath := "/a/b.txt"; basename := "b.txt"; parent := Some 1%nat;
             links := NodeLinks 1%nat; node := Some 2%nat |}, wf) /\
    Inode.nlink (inode_at wf 2%nat) = 2.
Proof.
  destruct (link_adds_a_name 0%nat twoDirs "/a/b.txt" "/c/hard" "/a/b.txt"
              {| realpath := "/a/b.txt"; basename := "b.txt"; parent := Some 1%nat;
                 links := NodeLinks 1%nat; node := Some 2%nat |}
              twoDirs 2%nat "/c/hard"
              {| realpath := "/c/hard"; basename := "hard"; parent := Some 3%nat;
                 links := NodeLinks 3%nat; node := None |}
              (exec (_walk 0%nat "/c/hard" true) twoDirs) 3%nat)
    as (wf & H1 & H2 & H3 & H4 & _).
  - vm_compute. lia.
  - reflexivity.
  - vm_compute. reflexivity.
  - vm_compute. reflexivity.
  - reflexivity.
  - vm_compute. lia.
  - vm_compute. reflexivity.
  - vm_compute. reflexivity.
  - vm_compute. reflexivity.
  - reflexivity.
  - reflexivity.
  - exists wf. split; [exact H1|]. split; [exact H2|]. split; [exact H3|].
    rewrite H4. vm_compute. reflexivity.
Defined.

(** X8: what a new directory refuses.  After [mkdirSync(p)] has
    returned for a path below a root, a second [mkdirSync(p)] throws
    [EEXIST], [symlinkSync(t, p)] throws [EEXIST], [writeFileSync(p)],
    [readFileSync(p)] and [unlinkSync(p)] throw [EISDIR],
    [readlinkSync(p)] throws [EINVAL] and [linkSync(p, q)] throws
    [EPERM]; none of them changes the state. *)
Theorem new_directory_refuses fs w p q w' :
  fs_valid w fs ->
  _resolve fs p w = (Ok q, w) ->
  (2 <= List.length (vpath.parse q))%nat ->
  mkdirSync fs p w = (Ok tt, w') ->
  mkdirSync fs p w' = (Throw (IOError EEXIST), w') /\
  (forall t, symlinkSync fs t p w' = (Throw (IOError EEXIST), w')) /\
  (forall d e, writeFileSync fs p d e w' = (Throw (IOError EISDIR), w')) /\
  (forall e, readFileSync fs p e w' = (Throw (IOError EISDIR), w')) /\
  unlinkSync fs p w' = (Throw (IOError EISDIR), w') /\
  readlinkSync fs p w' = (Throw (IOError EINVAL), w') /\
  (forall p2, linkSync fs p p2 w' = (Throw (IOError EPERM), w')).
Proof.
  intros Hv Hres Hlen H.
  destruct (mkdir_leaves_directory fs w p q w' Hv Hres Hlen H)
    as (r & nd & Hrw & Hres' & Hwalk1 & Hwalk2 & Hn & Hp & Hmode & _).
  assert (isSymlink (Some (inode_at w' nd)) = false) as Hns
      by (unfold isSymlink; rewrite Hmode; reflexivity).
  assert (isDirectory (Some (inode_at w' nd)) = true) as Hdir
      by (unfold isDirectory; rewrite Hmode; reflexivity).
  destruct (parent r) as [par|] eqn:Hpar; [|congruence].
  split; [|split; [|split; [|split; [|split; [|split]]]]].
  - unfold mkdirSync, isReadonly. rewrite bind_gets, Hrw.
    rewrite (bind_Ok _ _ _ _ _ Hres'), (bind_Ok _ _ _ _ _ Hwalk1), Hn. reflexivity.
  - intros t. unfold symlinkSync, isReadonly. rewrite bind_gets, Hrw.
    rewrite (bind_Ok _ _ _ _ _ Hres'), (bind_Ok _ _ _ _ _ Hwalk1), Hpar, Hn. reflexivity.
  - intros d e. unfold writeFileSync, isReadonly. rewrite bind_gets, Hrw.
    rewrite (bind_Ok _ _ _ _ _ Hres'), (bind_Ok _ _ _ _ _ Hwalk2), Hpar.
    rewrite (bind_Ok _ _ _ _ _ (time_read fs w')). rewrite Hn. mrun. rewrite Hdir. reflexivity.
  - intros e. unfold readFileSync.
    rewrite (bind_Ok _ _ _ _ _ Hres'), (bind_Ok _ _ _ _ _ Hwalk2), Hn. mrun.
    rewrite Hdir. reflexivity.
  - unfold unlinkSync, isReadonly. rewrite bind_gets, Hrw.
    rewrite (bind_Ok _ _ _ _ _ Hres'), (bind_Ok _ _ _ _ _ Hwalk1), Hpar, Hn.
    cbn [defined negb]. mrun. rewrite Hdir. reflexivity.
  - unfold readlinkSync.
    rewrite (bind_Ok _ _ _ _ _ Hres'), (bind_Ok _ _ _ _ _ Hwalk1), Hn. mrun.
    rewrite Hns. reflexivity.
  - intros p2. unfold linkSync, isReadonly. rewrite bind_gets, Hrw.
    rewrite (bind_Ok _ _ _ _ _ Hres'), (bind_Ok _ _ _ _ _ Hwalk2), Hn. mrun.
    rewrite Hdir. reflexivity.
Qed.

Lemma new_directory_refuses_witness :
  mkdirSync 0%nat "/a/d" (exec (mkdirSync 0%nat "/a/d") populated)
    = (Throw (IOError EEXIST), exec (mkdirSync 0%nat "/a/d") populated) /\
  unlinkSync 0%nat "/a/d" (exec (mkdirSync 0%nat "/a/d") populated)
    = (Throw (IOError EISDIR), exec (mkdirSync 0%nat "/a/d") populated).
Proof.
  destruct (new_directory_refuses 0%nat populated "/a/d" "/a/d" (exec (mkdirSync 0%nat "/a/d") populated))
    as (H1 & _ & _ & _ & H5 & _).
  - vm_compute. lia.
  - vm_compute. reflexivity.
  - vm_compute. lia.
  - vm_compute. reflexivity.
  - split; [exact H1|exact H5].
Defined.
(** ** Names that are removed *)

Lemma sees_fades w w' : sees w w' -> fades w w'.
Proof.
  intros H. split; [apply sees_any, H|].
  intros r k a Hl. left. exact (lookup_kept _ _ _ _ _ H Hl).
Qed.

Lemma sees_then_fades w1 w2 w3 : sees w1 w2 -> fades w2 w3 -> fades w1 w3.
Proof.
  intros H1 [H2 L2]. split.
  - eapply sees_but_trans; [apply sees_any, H1|exact H2].
  - intros r k a Hl. apply (L2 r k a). exact (lookup_kept _ _ _ _ _ H1 Hl).
Qed.

Lemma deref_fades w w' a :
  fades w w' -> (a < List.length (inodes w))%nat ->
  isSymlink (Some (inode_at w' a)) = isSymlink (Some (inode_at w a)) /\
  isDirectory (Some (inode_at w' a)) = isDirectory (Some (inode_at w a)) /\
  Inode.symlink (inode_at w' a) = Inode.symlink (inode_at w a).
Proof.
  intros [H _] Ha. destruct (sb_id _ _ _ H a Ha) as (Hm & Hs & _).
  unfold isSymlink, isDirectory. rewrite Hm, Hs. tauto.
Qed.

(** Walking again after names were removed: the walk goes the same way
    as long as it finds its names, and throws [ENOENT] where it finds
    one missing before the last step. *)
Lemma walk_steps_fades fs nf rest :
  forall lk par seen w o w1,
    walk_steps fs nf lk par seen rest w = (Ok o, w1) ->
    (exists m, links_of w lk = Some m) ->
    forall w', fades w1 w' ->
      walk_steps fs nf lk par seen rest w' = (Throw (IOError ENOENT), w') \/
      (exists r', walk_steps fs nf lk par seen rest w' = (Ok (inl r'), w') /\ node r' = None) \/
      match o with
      | inr cs => walk_steps fs nf lk par seen rest w' = (Ok (inr cs), w')
      | inl r =>
          (nf = true \/ isSymlink (deref w' (lookup_in w' (links r) (basename r))) = false) ->
          walk_steps fs nf lk par seen rest w' =
            (Ok (inl (with_node r (lookup_in w' (links r) (basename r)))), w')
      end.
Proof.
  induction rest as [|b rest IH]; intros lk par seen w o w1 H Hmat w' Hf.
  - discriminate H.
  - pose proof (run_sees _ _ _ _ (keeps_walk_steps fs nf lk par seen (b :: rest)) H) as Hw.
    assert (fades w w') as Hww' by (eapply sees_then_fades; eassumption).
    rewrite walk_steps_cons in H. rewrite walk_steps_cons. cbv zeta in *.
    set (lastStep := match rest with [] => true | _ :: _ => false end) in *.
    destruct (lastStep && (nf || negb (isSymlink (deref w (lookup_in w lk b))))) eqn:Hcond.
    + inversion H; subst. right. right. simpl. intros Hx.
      assert (lastStep && (nf || negb (isSymlink (deref w' (lookup_in w' lk b)))) = true) as ->.
      { apply andb_prop in Hcond. destruct Hcond as [-> _]. simpl.
        destruct Hx as [-> | ->]; [reflexivity|]. apply orb_true_r. }
      reflexivity.
    + destruct (lookup_in w lk b) as [a|] eqn:Hlook; [|discriminate H].
      cbn [deref mbind option_bind] in H, Hcond.
      destruct (proj2 Hww' lk b a Hlook) as [Hlook'|Hlook']; rewrite Hlook'.
      2:{ (* the name is gone *)
          cbn [deref isSymlink negb]. rewrite orb_true_r, andb_true_r.
          destruct lastStep; [right; left; eexists; split; reflexivity|left; reflexivity]. }
      cbn [deref mbind option_bind].
      destruct (isSymlink (Some (inode_at w a))) eqn:Hsym.
      * inversion H; subst.
        destruct (deref_fades w1 w' a Hww' (isSymlink_valid _ _ Hsym)) as (Hs' & _ & Htxt).
        right. right. rewrite Hs', Hsym, Htxt, Hcond. reflexivity.
      * destruct (isDirectory (Some (inode_at w a))) eqn:Hdir; [|discriminate H].
        mstep H.
        pose proof (isDirectory_valid _ _ Hdir) as Hva.
        destruct (getLinks_post _ _ _ _ _ E Hva) as (-> & m2 & Hm2).
        pose proof (run_sees _ _ _ _ (keeps_getLinks fs a) E) as Hw2.
        pose proof (run_sees _ _ _ _ (keeps_walk_steps fs nf _ _ _ _) H) as Hw3.
        destruct (deref_fades w w' a Hww' Hva) as (Hs' & Hd' & _).
        specialize (IH (NodeLinks a) (Some a) (seen ++ [b])%list w0 o w1 H
                      ltac:(simpl; eauto) w' Hf).
        assert (exists m3, Inode.links (inode_at w' a) = Some m3) as (m3 & Hm3).
        { assert (fades w0 w') as H0' by (eapply sees_then_fades; eassumption).
          destruct (sb_links _ _ _ (proj1 H0') a m2 Hm2) as (m3 & ? & _). eauto. }
        rewrite Hs', Hd', Hsym, Hdir, Hcond.
        rewrite (bind_Ok _ _ _ _ _ (getLinks_materialized fs a w' m3 Hm3)). exact IH.
Qed.

Lemma walk_loop_fades fs nf limit :
  forall cs w r w1,
    walk_loop limit fs nf cs w = (Ok r, w1) ->
    fs_valid w fs ->
    forall w', fades w1 w' ->
      walk_loop limit fs nf cs w' = (Throw (IOError ENOENT), w') \/
      (exists r', walk_loop limit fs nf cs w' = (Ok r', w') /\ node r' = None) \/
      ((nf = true \/ isSymlink (deref w' (lookup_in w' (links r) (basename r))) = false) ->
       walk_loop limit fs nf cs w' =
         (Ok (with_node r (lookup_in w' (links r) (basename r))), w')).
Proof.
  induction limit as [|limit IH]; intros cs w r w1 H Hv w' Hf; simpl in H.
  - discriminate H.
  - mstep H. mstep H.
    destruct (getRootLinks_post _ _ _ _ E Hv) as (-> & m & Hm).
    pose proof (run_sees _ _ _ _ (keeps_getRootLinks fs) E) as Hw0.
    pose proof (run_sees _ _ _ _ (keeps_walk_steps fs nf _ _ _ _) E0) as Hw2.
    assert (fades w2 w') as Hw2'.
    { destruct a0 as [res|cs'].
      - mrun_in H. inversion H; subst. exact Hf.
      - eapply sees_then_fades; [|exact Hf].
        exact (run_sees _ _ _ _ (keeps_walk_loop limit fs nf cs') H). }
    assert (exists m', FileSystem.lazy_links (fs_at w' fs) = Some m') as (m' & Hm').
    { assert (fades w0 w') as H0' by (eapply sees_then_fades; eassumption).
      destruct (sb_root _ _ _ (proj1 H0') fs m Hm) as (m' & ? & _). eauto. }
    pose proof (walk_steps_fades fs nf cs (RootLinks fs) None [] w0 a0 w2 E0
                  ltac:(simpl; eauto) w' Hw2') as Hrep.
    simpl.
    rewrite (bind_Ok _ _ _ _ _ (getRootLinks_materialized fs w' m' Hm')).
    destruct Hrep as [Hrep|[(r' & Hrep & Hnone)|Hrep]].
    + left. rewrite (bind_Throw _ _ _ _ _ Hrep). reflexivity.
    + right. left. exists r'. rewrite (bind_Ok _ _ _ _ _ Hrep). split; [reflexivity|exact Hnone].
    + destruct a0 as [res|cs'].
      * mrun_in H. inversion H; subst. right. right. intros Hx.
        rewrite (bind_Ok _ _ _ _ _ (Hrep Hx)). reflexivity.
      * rewrite (bind_Ok _ _ _ _ _ Hrep).
        apply (IH cs' w2 r w1 H); [|exact Hf].
        unfold fs_valid in *.
        rewrite <- (sb_fslen _ _ _ Hw2), <- (sb_fslen _ _ _ Hw0). exact Hv.
Qed.

(** After a name was removed where a walk ended, [lstatSync] of the path
    throws [ENOENT]. *)
Lemma lstat_after_detach fs p q w r w1 w' :
  fs_valid w fs ->
  _resolve fs p w' = (Ok q, w') ->
  _walk fs q true w = (Ok r, w1) ->
  fades w1 w' ->
  lookup_in w' (links r) (basename r) = None ->
  lstatSync fs p w' = (Throw (IOError ENOENT), w').
Proof.
  intros Hv Hres Hw Hf Hnone. unfold lstatSync. rewrite (bind_Ok _ _ _ _ _ Hres).
  unfold _walk in *.
  destruct (walk_loop_fades fs true maxDepth _ _ _ _ Hw Hv w' Hf) as [H|[(r' & H & Hn)|H]].
  - rewrite (bind_Throw _ _ _ _ _ H). reflexivity.
  - rewrite (bind_Ok _ _ _ _ _ H). unfold _stat. rewrite Hn. reflexivity.
  - rewrite (bind_Ok _ _ _ _ _ (H (or_introl eq_refl))). unfold _stat.
    cbn [node with_node]. rewrite Hnone. reflexivity.
Qed.

Lemma fades_updInode_fields a f w :
  keeps_links f -> keeps_identity f ->
  (forall i, Inode.dev (f i) = Inode.dev i /\ Inode.shadowRoot (f i) = Inode.shadowRoot i) ->
  fades w (updInode a f w).
Proof. intros Hl Hi Hd. apply sees_fades, sees_updInode_fields; assumption. Qed.

(** Taking a name out of the map of a directory. *)
Lemma fades_delete_entry p name w m :
  links_at w p = Some m ->
  fades w (updInode p (delete_entry name) w) /\
  lookup_in (updInode p (delete_entry name) w) (NodeLinks p) name = None.
Proof.
  intros Hm. split; [split|].
  - apply (keeps_modInode (fun _ => True) p (delete_entry name)).
    + intros []; simpl; tauto.
    + intros [] mi Hi; simpl in *. subst. simpl. eexists. split; [reflexivity|tauto].
  - intros r k a Hl. destruct r as [fs|b].
    + left. exact Hl.
    + rewrite !lookup_in_NodeLinks in *. rewrite (links_at_delete_entry _ _ _ _ _ Hm).
      destruct (decide (p = b)) as [->|Hne]; [|left; exact Hl].
      rewrite Hm in Hl.
      destruct (same_key_dec m k name) as [Hs|Hs].
      * right. apply get_delete_same, Hs.
      * left. rewrite get_delete_other by exact Hs. exact Hl.
  - rewrite lookup_in_NodeLinks, (links_at_delete_entry _ _ _ _ _ Hm).
    destruct (decide (p = p)); [|congruence]. apply get_delete_same, same_key_refl.
Qed.

Lemma removeLink_now_run fs p name nd w :
  _removeLink fs (Some p) (NodeLinks p) name nd None w =
  _removeLink fs (Some p) (NodeLinks p) name nd (Some (clock w fs)) w.
Proof. reflexivity. Qed.

(** [_removeLink] below a directory. *)
Lemma removeLink_fades fs par name nd tm w m :
  links_at w par = Some m ->
  exists w',
    _removeLink fs (Some par) (NodeLinks par) name nd (Some tm) w = (Ok tt, w') /\
    fades w w' /\
    lookup_in w' (NodeLinks par) name = None /\
    fileSystems w' = fileSystems w /\
    ((nd < List.length (inodes w))%nat -> nd <> par ->
     Inode.nlink (inode_at w' nd) = Inode.nlink (inode_at w nd) - 1).
Proof.
  intros Hm. eexists. split; [apply removeLink_run|].
  destruct (fades_delete_entry par name w m Hm) as (Hf & Hnone).
  split; [|split; [|split]].
  - destruct Hf as [Hsb Hl]. split.
    + eapply sees_but_trans; [exact Hsb|]. apply sees_any.
      eapply sees_trans; [apply sees_updInode_fields;
                          [apply keeps_links_nlink|apply keeps_identity_nlink|intros []; simpl; tauto]|].
      eapply sees_trans; [apply sees_updInode_fields;
                          [apply keeps_links_ctime|apply keeps_identity_ctime|intros []; simpl; tauto]|].
      apply sees_updInode_fields;
        [apply keeps_links_mtime|apply keeps_identity_mtime|intros []; simpl; tauto].
    + intros r k a Hlook. specialize (Hl r k a Hlook).
      assert (forall x, lookup_in (updInode par (Inode.set_mtimeMs tm)
                          (updInode nd (Inode.set_ctimeMs tm)
                             (updInode nd (nlink_add (-1))
                                (updInode par (delete_entry name) w)))) r k = x <->
                        lookup_in (updInode par (delete_entry name) w) r k = x) as Hsame.
      { intros x. destruct r as [fs'|b]; [reflexivity|].
        rewrite !lookup_in_NodeLinks.
        rewrite (links_at_keep _ _ _ _ (keeps_links_mtime tm)),
          (links_at_keep _ _ _ _ (keeps_links_ctime tm)),
          (links_at_keep _ _ _ _ (keeps_links_nlink (-1))). reflexivity. }
      destruct Hl as [Hl|Hl]; [left|right]; apply Hsame; exact Hl.
  - rewrite lookup_in_NodeLinks in *.
    rewrite (links_at_keep _ _ _ _ (keeps_links_mtime tm)),
      (links_at_keep _ _ _ _ (keeps_links_ctime tm)),
      (links_at_keep _ _ _ _ (keeps_links_nlink (-1))). exact Hnone.
  - reflexivity.
  - intros Hnd Hne.
    rewrite inode_at_updInode_other by congruence.
    rewrite inode_at_updInode_same by (rewrite !inodes_length_updInode; exact Hnd).
    rewrite inode_at_updInode_same by (rewrite !inodes_length_updInode; exact Hnd).
    rewrite inode_at_updInode_other by congruence.
    destruct (inode_at w nd); reflexivity.
Qed.

Lemma resolve_same_cwd fs p w w' :
  FileSystem._cwd (fs_at w' fs) = FileSystem._cwd (fs_at w fs) ->
  _resolve fs p w' = (fst (_resolve fs p w), w').
Proof.
  intros H. unfold _resolve. mrun. rewrite H.
  destruct (negb _); unfold validated; destruct (vpath.validate _ _); reflexivity.
Qed.

(** X6: after [unlinkSync(p)] has returned, [lstatSync(p)] throws
    [ENOENT]. *)
Theorem unlink_then_lstat fs w p w' :
  fs_valid w fs ->
  unlinkSync fs p w = (Ok tt, w') ->
  lstatSync fs p w' = (Throw (IOError ENOENT), w').
Proof.
  intros Hv H. unfold unlinkSync, isReadonly in H. rewrite bind_gets in H.
  destruct (FileSystem.frozen (fs_at w fs)); [discriminate H|].
  destruct (_resolve fs p w) as [[q|e] wq] eqn:Hres;
    [|rewrite (bind_Throw _ _ _ _ _ Hres) in H; discriminate H].
  pose proof (resolve_pure _ _ _ _ _ Hres) as ->.
  rewrite (bind_Ok _ _ _ _ _ Hres) in H.
  destruct (_walk fs q true w) as [[r|e] w1] eqn:E0;
    [|rewrite (bind_Throw _ _ _ _ _ E0) in H; discriminate H].
  rewrite (bind_Ok _ _ _ _ _ E0) in H.
  pose proof (run_sees _ _ _ _ (keeps_walk fs q true) E0) as Hs1.
  destruct (walk_loop_result fs true maxDepth _ _ _ _ E0 Hv)
    as ((Hnode & _ & Hslot & (m & Hm) & Hpdir) & _).
  destruct (parent r) as [par|] eqn:Hpar; [|discriminate H]. cbn [defined negb] in H.
  destruct (node r) as [a|] eqn:Hn; [|discriminate H].
  unfold getInode in H. rewrite bind_gets in H.
  destruct (isDirectory (Some (inode_at w1 a))); [discriminate H|].
  cbn [slot_of] in Hslot. rewrite Hslot in *. cbn [links_of] in Hm.
  rewrite removeLink_now_run in H.
  destruct (removeLink_fades fs par (basename r) a (clock w1 fs) w1 m Hm)
    as (wf & Hrun & Hf & Hnone & Hfs & _).
  rewrite Hrun in H. inversion H; subst wf. clear H.
  apply (lstat_after_detach fs p q w r w1 w' Hv); [|exact E0|exact Hf|rewrite Hslot; exact Hnone].
  rewrite (resolve_same_cwd fs p w w'), Hres; [reflexivity|].
  unfold fs_at. rewrite Hfs.
  destruct (sb_fs _ _ _ Hs1 fs) as (Hc & _). exact Hc.
Qed.

Lemma unlink_then_lstat_witness :
  lstatSync 0%nat "/a/b.txt" (exec (unlinkSync 0%nat "/a/b.txt") populated)
  = (Throw (IOError ENOENT), exec (unlinkSync 0%nat "/a/b.txt") populated).
Proof.
  apply (unlink_then_lstat 0%nat populated "/a/b.txt").
  - vm_compute. lia.
  - vm_compute. reflexivity.
Defined.

(** X7: after [rmdirSync(p)] has returned, [lstatSync(p)] throws
    [ENOENT]. *)
Theorem rmdir_then_lstat fs w p w' :
  fs_valid w fs ->
  rmdirSync fs p w = (Ok tt, w') ->
  lstatSync fs p w' = (Throw (IOError ENOENT), w').
Proof.
  intros Hv H. unfold rmdirSync, isReadonly in H. rewrite bind_gets in H.
  destruct (FileSystem.frozen (fs_at w fs)); [discriminate H|].
  destruct (_resolve fs p w) as [[q|e] wq] eqn:Hres;
    [|rewrite (bind_Throw _ _ _ _ _ Hres) in H; discriminate H].
  pose proof (resolve_pure _ _ _ _ _ Hres) as ->.
  rewrite (bind_Ok _ _ _ _ _ Hres) in H.
  destruct (_walk fs q true w) as [[r|e] w1] eqn:E0;
    [|rewrite (bind_Throw _ _ _ _ _ E0) in H; discriminate H].
  rewrite (bind_Ok _ _ _ _ _ E0) in H.
  pose proof (run_sees _ _ _ _ (keeps_walk fs q true) E0) as Hs1.
  destruct (walk_loop_result fs true maxDepth _ _ _ _ E0 Hv)
    as ((Hnode & _ & Hslot & (m & Hm) & Hpdir) & _).
  destruct (parent r) as [par|] eqn:Hpar; [|discriminate H].
  rewrite bind_gets in H.
  destruct (node r) as [a|] eqn:Hn; [|discriminate H]. cbn [deref] in H.
  destruct (isDirectory (Some (inode_at w1 a))); [|discriminate H]. cbn [negb] in H.
  destruct (_getLinks fs a w1) as [[l|e] w2] eqn:E1;
    [|rewrite (bind_Throw _ _ _ _ _ E1) in H; discriminate H].
  rewrite (bind_Ok _ _ _ _ _ E1) in H.
  pose proof (run_sees _ _ _ _ (keeps_getLinks fs a) E1) as Hs2.
  unfold links_size in H. rewrite bind_gets in H.
  destruct (negb _); [discriminate H|].
  cbn [slot_of] in Hslot. rewrite Hslot in *. cbn [links_of] in Hm.
  destruct (sb_links _ _ _ Hs2 par m Hm) as (m2 & Hm2 & _).
  rewrite removeLink_now_run in H.
  destruct (removeLink_fades fs par (basename r) a (clock w2 fs) w2 m2 Hm2)
    as (wf & Hrun & Hf & Hnone & Hfs & _).
  rewrite Hrun in H. inversion H; subst wf. clear H.
  apply (lstat_after_detach fs p q w r w1 w' Hv);
    [|exact E0|eapply sees_then_fades; eassumption|rewrite Hslot; exact Hnone].
  rewrite (resolve_same_cwd fs p w w'), Hres; [reflexivity|].
  unfold fs_at. rewrite Hfs.
  destruct (sb_fs _ _ _ Hs1 fs) as (Hc & _). destruct (sb_fs _ _ _ Hs2 fs) as (Hc2 & _).
  unfold fs_at in *. congruence.
Qed.

Lemma rmdir_then_lstat_witness :
  lstatSync 0%nat "/c" (exec (rmdirSync 0%nat "/c") twoDirs)
  = (Throw (IOError ENOENT), exec (rmdirSync 0%nat "/c") twoDirs).
Proof.
  apply (rmdir_then_lstat 0%nat twoDirs "/c").
  - vm_compute. lia.
  - vm_compute. reflexivity.
Defined.
(** ** The mode of a new inode *)

Lemma disjoint_bits a b n : Z.land a b = 0 -> Z.testbit a n && Z.testbit b n = false.
Proof. intros H. rewrite <- Z.land_spec, H. apply Z.bits_0. Qed.

(** X9: [_mknod] gives the new inode the next [ino], no link, and the mode
    [(mode & ~S_IFMT & ~0o022 & 0o7777) | (type & S_IFMT)]: its type
    bits are those of [type] whatever [mode] holds, it is not writable
    by group or others, and its other permission bits are those of
    [mode]. *)
Theorem mknod_mode_bits fs dev type mode t w :
  let nd := List.length (inodes w) in
  let w' := exec (_mknod fs dev type mode t) w in
  let m := Inode.mode (inode_at w' nd) in
  eval (_mknod fs dev type mode t) w = Ok nd /\
  Z.land m S_IFMT = Z.land type S_IFMT /\
  Z.land m 18 = 0 /\
  Z.land m 4095 = Z.land (Z.land mode 4095) (Z.lnot 18) /\
  Inode.nlink (inode_at w' nd) = 0 /\
  Inode.ino (inode_at w' nd) = inoCount w + 1 /\
  inoCount w' = inoCount w + 1 /\
  (forall b, (b < nd)%nat -> inode_at w' b = inode_at w b).
Proof.
  cbv zeta.
  assert (_mknod fs dev type mode t w =
          _mknod fs dev type mode (Some (match t with Some v => v | None => clock w fs end)) w)
    as Hrun by (destruct t; reflexivity).
  unfold exec, eval. rewrite Hrun.
  destruct (mknod_new fs dev type mode (match t with Some v => v | None => clock w fs end) w)
    as (w' & Hmk & _ & _ & Hnew & Hold).
  rewrite Hmk. cbn [fst snd]. rewrite Hnew. cbn [Inode.mode Inode.nlink Inode.ino].
  split; [reflexivity|].
  pose proof (fun n => disjoint_bits 61440 18 n eq_refl) as HFE.
  pose proof (fun n => disjoint_bits 4095 61440 n eq_refl) as HPF.
  split; [|split; [|split; [|split; [|split; [|split]]]]].
  - apply Z.bits_inj'. intros n Hn. unfold S_IFMT.
    rewrite !Z.land_spec, Z.lor_spec, !Z.land_spec, !Z.lnot_spec by exact Hn.
    destruct (Z.testbit 61440 n), (Z.testbit type n), (Z.testbit mode n),
      (Z.testbit 18 n), (Z.testbit 4095 n); reflexivity.
  - apply Z.bits_inj'. intros n Hn. unfold S_IFMT. specialize (HFE n).
    rewrite !Z.land_spec, Z.lor_spec, !Z.land_spec, !Z.lnot_spec, Z.bits_0 by exact Hn.
    destruct (Z.testbit 61440 n), (Z.testbit type n), (Z.testbit mode n),
      (Z.testbit 18 n), (Z.testbit 4095 n); try reflexivity; discriminate HFE.
  - apply Z.bits_inj'. intros n Hn. unfold S_IFMT. specialize (HPF n).
    rewrite !Z.land_spec, Z.lor_spec, !Z.land_spec, !Z.lnot_spec by exact Hn.
    destruct (Z.testbit 61440 n), (Z.testbit type n), (Z.testbit mode n),
      (Z.testbit 18 n), (Z.testbit 4095 n); try reflexivity; discriminate HPF.
  - reflexivity.
  - reflexivity.
  - inversion Hmk. reflexivity.
  - exact Hold.
Qed.
(** ** The shape of a resolved path *)

Lemma resolve_dotfree fs p w q w' :
  FileSystem._cwd (fs_at w fs) <> "" ->
  vpath.isAbsolute (FileSystem._cwd (fs_at w fs)) = true ->
  _resolve fs p w = (Ok q, w') ->
  comps_ok false (vpath.parse q) = true.
Proof.
  intros Hne Habs H. unfold _resolve in H. mrun_in H.
  destruct (String.eqb_spec (FileSystem._cwd (fs_at w fs)) ""); [contradiction|].
  cbn [negb] in H. unfold validated in H. cbn [vpath.validate] in H. mrun_in H.
  inversion H; subst.
  destruct (resolve_absolute _ p Habs) as (cs & -> & Hcs).
  rewrite (parse_format _ _ Hcs). exact Hcs.
Qed.

(** X10: what [realpathSync] returns is an absolute path in the form
    [format] gives it (one separator between names, none at the end);
    when the working directory is set it is normalized as well: no [.]
    and no [..] is left in it. *)
Theorem realpath_is_normal fs w p rp w1 :
  fs_valid w fs -> cwd_ok w fs -> roots_not_symlinks w1 fs ->
  realpathSync fs p w = (Ok rp, w1) ->
  vpath.isAbsolute rp = true /\
  vpath.format (vpath.parse rp) = rp /\
  (FileSystem._cwd (fs_at w fs) <> "" -> vpath.normalize rp = rp).
Proof.
  intros Hv Hcwd Hroots H. unfold realpathSync in H.
  destruct (_resolve fs p w) as [[q|e] wq] eqn:E;
    [|rewrite (bind_Throw _ _ _ _ _ E) in H; discriminate H].
  pose proof (resolve_pure _ _ _ _ _ E) as ->.
  rewrite (bind_Ok _ _ _ _ _ E) in H.
  destruct (_walk fs q false w) as [[r|e] w1'] eqn:E0;
    [|rewrite (bind_Throw _ _ _ _ _ E0) in H; discriminate H].
  rewrite (bind_Ok _ _ _ _ _ E0) in H. mrun_in H. inversion H; subst rp w1'. clear H.
  unfold _walk in E0.
  destruct (resolve_comps fs p w q w Hcwd E) as (d & Hd & _).
  destruct (walk_loop_comps fs false d maxDepth _ _ _ _ E0 Hv Hd Hroots)
    as (comps & w0 & Hcomps & _ & _ & Hrp).
  rewrite Hrp. split; [exact (format_absolute _ _ Hcomps)|].
  split; [rewrite (parse_format _ _ Hcomps); reflexivity|].
  intros Hne. destruct Hcwd as [Hempty|Habs]; [contradiction|].
  pose proof (resolve_dotfree fs p w q w Hne Habs E) as Hq.
  destruct (walk_loop_comps fs false false maxDepth _ _ _ _ E0 Hv Hq Hroots)
    as (comps' & w0' & Hcomps' & _ & _ & Hrp').
  rewrite <- Hrp, Hrp'. unfold vpath.normalize.
  rewrite (parse_format _ _ Hcomps'), (reduce_id _ Hcomps'). reflexivity.
Qed.

Lemma realpath_is_normal_witness :
  vpath.isAbsolute "/a/b.txt" = true /\
  vpath.format (vpath.parse "/a/b.txt") = "/a/b.txt" /\
  (FileSystem._cwd (fs_at (chainWorld 2) 0%nat) <> "" -> vpath.normalize "/a/b.txt" = "/a/b.txt").
Proof.
  apply (realpath_is_normal 0%nat (chainWorld 2) "//l1/./" "/a/b.txt" (chainWorld 2)).
  - vm_compute. lia.
  - right. reflexivity.
  - intros k a Hlook. unfold lookup_in in Hlook.
    assert (links_of (chainWorld 2) (RootLinks 0%nat) =
            Some {| SortedMap.caseInsensitive := false; SortedMap.entries := [("/", 0%nat)] |})
      as Hmap by (vm_compute; reflexivity).
    rewrite Hmap in Hlook. unfold SortedMap.get in Hlook.
    cbn [SortedMap.entries SortedMap.caseInsensitive SortedMap.get_from] in Hlook.
    destruct (SortedMap.comparer false k "/"); inversion Hlook; subst; vm_compute; reflexivity.
  - vm_compute. reflexivity.
Defined.
(** ** Creating below a directory *)

(** X11: on a writable file system, when the ancestors of [p] resolve
    (following links) to a directory that has no entry for the last
    component of [p], each of [mkdirSync(p)], [writeFileSync(p, data)]
    and [symlinkSync(target, p)] returns. *)
Theorem create_below_directory fs w p q dir n rd w1 d l w2 :
  FileSystem.frozen (fs_at w fs) = false ->
  _resolve fs p w = (Ok q, w) ->
  vpath.parse q = (vpath.parse dir ++ [n])%list ->
  _walk fs dir false w = (Ok rd, w1) ->
  node rd = Some d ->
  isDirectory (Some (inode_at w1 d)) = true ->
  _getLinks fs d w1 = (Ok l, w2) ->
  lookup_in w2 l n = None ->
  (exists w', mkdirSync fs p w = (Ok tt, w')) /\
  (forall data, exists w', writeFileSync fs p data None w = (Ok tt, w')) /\
  (forall t, exists w', symlinkSync fs t p w = (Ok tt, w')).
Proof.
  intros Hrw Hres Hparse Hwalk Hnode Hdir Hget Hnone.
  unfold _walk in Hwalk.
  destruct (getLinks_post _ _ _ _ _ Hget (isDirectory_valid _ _ Hdir)) as (-> & m & Hm).
  assert (forall nf, exists rp, _walk fs q nf w =
            (Ok {| realpath := rp; basename := n; parent := Some d;
                   links := NodeLinks d; node := None |}, w2)) as Hq.
  { intros nf.
    destruct (walk_loop_snoc fs nf n maxDepth (vpath.parse dir) w rd w1 d (NodeLinks d) w2
                (parse_nonempty dir) Hwalk Hnode Hdir Hget) as (comps & _ & Hloop).
    { right. rewrite Hnone. reflexivity. }
    rewrite Hnone in Hloop. unfold _walk. rewrite Hparse. eauto. }
  split; [|split].
  - destruct (Hq true) as (rp & Hw).
    destruct (mknod_new fs (Inode.dev (inode_at w2 d)) S_IFDIR 511 (clock w2 fs) w2)
      as (w3 & Hmk & _).
    eexists. unfold mkdirSync, isReadonly. rewrite bind_gets, Hrw.
    rewrite (bind_Ok _ _ _ _ _ Hres), (bind_Ok _ _ _ _ _ Hw). cbn [node defined parent links basename].
    rewrite (bind_Ok _ _ _ _ _ (time_read fs w2)).
    unfold dev_for, getInode. rewrite bind_bind, bind_gets, bind_ret.
    rewrite (bind_Ok _ _ _ _ _ Hmk). apply addLink_run.
  - intros data. destruct (Hq false) as (rp & Hw).
    destruct (mknod_new fs (Inode.dev (inode_at w2 d)) S_IFREG 438 (clock w2 fs) w2)
      as (w3 & Hmk & _ & Hlen & Hnew & _).
    unfold writeFileSync, isReadonly. rewrite bind_gets, Hrw.
    rewrite (bind_Ok _ _ _ _ _ Hres), (bind_Ok _ _ _ _ _ Hw). cbn [node parent links basename].
    rewrite (bind_Ok _ _ _ _ _ (time_read fs w2)).
    unfold getInode. rewrite bind_bind, bind_gets, bind_bind.
    rewrite (bind_Ok _ _ _ _ _ Hmk).
    rewrite bind_bind. rewrite (bind_Ok _ _ _ _ _ (addLink_run fs d n _ (clock w2 fs) w3)).
    rewrite bind_ret, bind_gets.
    rewrite inode_at_attach by (try lia; pose proof (isDirectory_valid _ _ Hdir);
                                 pose proof (sb_len _ _ _ (run_sees _ _ _ _ (keeps_getLinks fs d) Hget)); lia).
    rewrite Hnew.
    change (isDirectory _) with false. change (isFile _) with true. cbn [negb].
    destruct data as [b|s]; eexists; reflexivity.
  - intros t. destruct (Hq true) as (rp & Hw).
    destruct (mknod_new fs (Inode.dev (inode_at w2 d)) S_IFLNK 438 (clock w2 fs) w2)
      as (w3 & Hmk & _).
    eexists. unfold symlinkSync, isReadonly. rewrite bind_gets, Hrw.
    rewrite (bind_Ok _ _ _ _ _ Hres), (bind_Ok _ _ _ _ _ Hw). cbn [node defined parent links basename].
    rewrite (bind_Ok _ _ _ _ _ (time_read fs w2)).
    unfold getInode. rewrite bind_gets.
    rewrite (bind_Ok _ _ _ _ _ Hmk).
    unfold validated. cbn [vpath.validate]. rewrite bind_ret.
    unfold modInode. rewrite bind_modify. apply addLink_run.
Qed.

Lemma create_below_directory_witness :
  (exists w', mkdirSync 0%nat "/a/zz" populated = (Ok tt, w')) /\
  (forall data, exists w', writeFileSync 0%nat "/a/zz" data None populated = (Ok tt, w')) /\
  (forall t, exists w', symlinkSync 0%nat t "/a/zz" populated = (Ok tt, w')).
Proof.
  apply (create_below_directory 0%nat populated "/a/zz" "/a/zz" "/a" "zz"
           {| realpath := "/a"; basename := "a"; parent := Some 0%nat;
              links := NodeLinks 0%nat; node := Some 1%nat |}
           populated 1%nat (NodeLinks 1%nat) populated);
    vm_compute; reflexivity.
Defined.
(** ** Read-only is for good *)

Section keeps_flag.

Lemma stays_readonly_refl w : stays_readonly w w.
Proof. intros fs H. exact H. Qed.

Lemma stays_readonly_trans w1 w2 w3 :
  stays_readonly w1 w2 -> stays_readonly w2 w3 -> stays_readonly w1 w3.
Proof. intros H1 H2 fs H. apply H2, H1, H. Qed.

Lemma flag_bind {A B} (c : M A) (k : A -> M B) :
  keeps stays_readonly c -> (forall a, keeps stays_readonly (k a)) ->
  keeps stays_readonly (bind c k).
Proof.
  intros Hc Hk w. unfold bind. specialize (Hc w).
  destruct (c w) as [[a|e] w1]; simpl in *; [|exact Hc].
  eapply stays_readonly_trans; [exact Hc|]. apply Hk.
Qed.

Lemma flag_of_sees {A} X (c : M A) : keeps (sees_but X) c -> keeps stays_readonly c.
Proof.
  intros H w fs Hf. destruct (sb_fs _ _ _ (H w) fs) as (_ & -> & _). exact Hf.
Qed.

Lemma flag_modInode a f : keeps stays_readonly (modInode a f).
Proof. intros w fs H. exact H. Qed.

Lemma flag_modFS fs f :
  (forall x, FileSystem.frozen x = true -> FileSystem.frozen (f x) = true) ->
  keeps stays_readonly (modFS fs f).
Proof.
  intros Hf w fs' H. unfold modFS, modify. simpl. rewrite fs_at_updFS.
  destruct (decide _) as [[-> _]|_]; [apply Hf, H|exact H].
Qed.

Lemma flag_links_update r f : keeps stays_readonly (links_update r f).
Proof.
  destruct r as [fs|a]; unfold links_update; [|apply flag_modInode].
  apply flag_modFS. intros []; simpl; tauto.
Qed.

Lemma flag_pure {A} (c : M A) : (forall w, snd (c w) = w) -> keeps stays_readonly c.
Proof. intros H w. rewrite H. apply stays_readonly_refl. Qed.

End keeps_flag.

Ltac flag_step :=
  lazymatch goal with
  | |- keeps _ (bind _ _) => apply flag_bind; [ | intros ? ]
  | |- keeps _ (ret _) => apply flag_pure; reflexivity
  | |- keeps _ (throw _) => apply flag_pure; reflexivity
  | |- keeps _ (gets _) => apply flag_pure; reflexivity
  | |- keeps _ (getFS _) => apply flag_pure; reflexivity
  | |- keeps _ (getInode _) => apply flag_pure; reflexivity
  | |- keeps _ (isReadonly _) => apply flag_pure; reflexivity
  | |- keeps _ (modInode _ _) => apply flag_modInode
  | |- keeps _ (modFS _ _) => apply flag_modFS; intros []; simpl; tauto
  | |- keeps _ (links_size _) => apply flag_pure; reflexivity
  | |- keeps _ (links_set _ _ _) => apply flag_links_update
  | |- keeps _ (links_delete _ _) => apply flag_links_update
  | |- keeps _ (_resolve _ _) => apply (flag_of_sees (fun _ => False)), keeps_resolve
  | |- keeps _ (_walk _ _ _) => apply (flag_of_sees (fun _ => False)), keeps_walk
  | |- keeps _ (_getLinks _ _) => apply (flag_of_sees (fun _ => False)), keeps_getLinks
  | |- keeps _ (_mknod _ _ _ _ _) => apply (flag_of_sees (fun _ => False)), keeps_mknod
  | |- keeps _ (time _ None) => apply (flag_of_sees (fun _ => False)), keeps_time_read
  | |- keeps _ (time_or_now _ _) => apply (flag_of_sees (fun _ => False)), keeps_time_or_now
  | |- keeps _ (validated _ _) => apply (flag_of_sees (fun _ => False)), keeps_validated
  | |- keeps _ (allocBuffer _) => apply (flag_of_sees (fun _ => False)), keeps_allocBuffer
  | |- keeps _ (match ?e with _ => _ end) => destruct e
  end.

Ltac flag_tac := repeat flag_step.

Lemma flag_addLink fs parent links name node t :
  keeps stays_readonly (_addLink fs parent links name node t).
Proof. unfold _addLink. flag_tac. Qed.

Lemma flag_removeLink fs parent links name node t :
  keeps stays_readonly (_removeLink fs parent links name node t).
Proof. unfold _removeLink. flag_tac. Qed.

Lemma flag_replaceLink fs oldP oldL oldN newP newL newN node tm :
  keeps stays_readonly (_replaceLink fs oldP oldL oldN newP newL newN node tm).
Proof.
  unfold _replaceLink. destruct (negb _).
  - apply flag_bind; [apply flag_removeLink|intros ?]. apply flag_addLink.
  - flag_tac.
Qed.

Lemma flag_dev_for parent : keeps stays_readonly (dev_for parent).
Proof.
  unfold dev_for. destruct parent; [flag_tac|].
  apply flag_bind; [|intros ?; flag_step]. intros w fs H. exact H.
Qed.

Lemma flag_chdir fs p : keeps stays_readonly (chdir fs p).
Proof. unfold chdir. flag_tac. Qed.

Lemma flag_mkdirSync fs p : keeps stays_readonly (mkdirSync fs p).
Proof.
  unfold mkdirSync. flag_step; [flag_step|]. destruct a; [flag_step|].
  flag_step; [flag_step|]. flag_step; [flag_step|].
  destruct (defined _); [flag_step|].
  flag_step; [flag_step|]. flag_step; [apply flag_dev_for|].
  flag_step; [flag_step|]. apply flag_addLink.
Qed.

Lemma flag_mountSync fs s t r : keeps stays_readonly (mountSync fs s t r).
Proof.
  unfold mountSync. flag_step; [flag_step|]. destruct a; [flag_step|].
  flag_step; [flag_step|]. flag_step; [flag_step|]. flag_step; [flag_step|].
  destruct (defined _); [flag_step|].
  flag_step; [flag_step|]. flag_step; [apply flag_dev_for|].
  flag_step; [flag_step|]. flag_step; [flag_step|]. flag_step; [flag_step|].
  apply flag_addLink.
Qed.

Lemma flag_rmdirSync fs p : keeps stays_readonly (rmdirSync fs p).
Proof.
  unfold rmdirSync. flag_step; [flag_step|]. destruct a; [flag_step|].
  flag_step; [flag_step|]. flag_step; [flag_step|].
  destruct (parent _); [|flag_step]. flag_step; [flag_step|].
  destruct (node _); [|flag_step]. destruct (negb _); [flag_step|].
  flag_step; [flag_step|]. flag_step; [flag_step|].
  destruct (negb _); [flag_step|]. apply flag_removeLink.
Qed.

Lemma flag_linkSync fs p q : keeps stays_readonly (linkSync fs p q).
Proof.
  unfold linkSync. flag_step; [flag_step|]. destruct a; [flag_step|].
  flag_step; [flag_step|]. flag_step; [flag_step|].
  destruct (node _); [|flag_step]. flag_step; [flag_step|].
  destruct (isDirectory _); [flag_step|].
  flag_step; [flag_step|]. flag_step; [flag_step|].
  destruct (negb _); [flag_step|]. destruct (defined _); [flag_step|].
  apply flag_addLink.
Qed.

Lemma flag_unlinkSync fs p : keeps stays_readonly (unlinkSync fs p).
Proof.
  unfold unlinkSync. flag_step; [flag_step|]. destruct a; [flag_step|].
  flag_step; [flag_step|]. flag_step; [flag_step|].
  destruct (negb _); [flag_step|]. destruct (node _); [|flag_step].
  flag_step; [flag_step|]. destruct (isDirectory _); [flag_step|].
  apply flag_removeLink.
Qed.

Lemma flag_renameSync fs p q : keeps stays_readonly (renameSync fs p q).
Proof.
  unfold renameSync. flag_step; [flag_step|]. destruct a; [flag_step|].
  flag_step; [flag_step|]. flag_step; [flag_step|].
  destruct (parent _); [|flag_step]. destruct (node _); [|flag_step].
  flag_step; [flag_step|]. flag_step; [flag_step|].
  destruct (parent _); [|flag_step]. flag_step; [flag_step|].
  flag_step; [|apply flag_replaceLink].
  destruct (node _); [|flag_step].
  flag_step; [flag_step|]. flag_step; [flag_step|].
  flag_step; [|apply flag_removeLink].
  destruct (isDirectory _).
  - destruct (negb _); [flag_step|]. flag_step; [flag_step|]. flag_step; [flag_step|].
    destruct (_ <? _)%nat; flag_step.
  - destruct (isDirectory _); flag_step.
Qed.

Lemma flag_symlinkSync fs t p : keeps stays_readonly (symlinkSync fs t p).
Proof.
  unfold symlinkSync. flag_step; [flag_step|]. destruct a; [flag_step|].
  flag_step; [flag_step|]. flag_step; [flag_step|].
  destruct (parent _); [|flag_step]. destruct (defined _); [flag_step|].
  flag_step; [flag_step|]. flag_step; [flag_step|]. flag_step; [flag_step|].
  flag_step; [flag_step|]. flag_step; [flag_step|]. apply flag_addLink.
Qed.

Lemma flag_writeFileSync fs p d e : keeps stays_readonly (writeFileSync fs p d e).
Proof.
  unfold writeFileSync. flag_step; [flag_step|]. destruct a; [flag_step|].
  flag_step; [flag_step|]. flag_step; [flag_step|].
  destruct (parent _) eqn:Hp; [|flag_step]. flag_step; [flag_step|].
  flag_step.
  - destruct (node _); [flag_step|].
    flag_step; [flag_step|]. flag_step; [flag_step|].
    flag_step; [apply flag_addLink|flag_step].
  - flag_step; [flag_step|]. destruct (isDirectory _); [flag_step|].
    destruct (negb _); [flag_step|].
    flag_step; [destruct d; flag_step|]. flag_tac.
Qed.

Lemma flag_pushd fs p : keeps stays_readonly (pushd fs p).
Proof.
  unfold pushd. flag_step; [flag_step|]. destruct a; [flag_step|].
  flag_step; [destruct (truthy p); flag_tac|].
  flag_step; [flag_step|]. flag_step; [destruct (negb _); flag_step|].
  destruct (truthy _); [|flag_step]. destruct (negb _); [apply flag_chdir|flag_step].
Qed.

Lemma flag_popd fs : keeps stays_readonly (popd fs).
Proof.
  unfold popd. flag_step; [flag_step|]. destruct a; [flag_step|].
  flag_step; [flag_step|]. destruct (FileSystem._dirStack _); [|flag_step].
  destruct (rev _); [flag_step|]. flag_step; [flag_step|].
  destruct (negb _); [apply flag_chdir|flag_step].
Qed.

Lemma flag_time fs v : keeps stays_readonly (time fs v).
Proof.
  unfold time. flag_step; [flag_step|]. destruct (_ && _); [flag_step|].
  flag_step; [flag_step|]. flag_step; [destruct v; flag_step|flag_step].
Qed.

Lemma flag_shadow fs ic : keeps stays_readonly (shadow fs ic).
Proof.
  unfold shadow. flag_step; [flag_step|]. destruct (negb _); [flag_step|].
  destruct (_ && _); [flag_step|].
  flag_step; [|flag_tac].
  intros w fs' H. unfold newFileSystem, allocFS. simpl. unfold fs_at in *. simpl.
  destruct (Nat.lt_ge_cases fs' (List.length (fileSystems w))) as [Hlt|Hge].
  - rewrite app_nth1 by exact Hlt. exact H.
  - rewrite nth_overflow in H by exact Hge. discriminate H.
Qed.

Lemma flag_makeReadonly fs : keeps stays_readonly (makeReadonly fs).
Proof. unfold makeReadonly. flag_step. Qed.

Lemma flag_call fs c w : stays_readonly w (call fs c w).
Proof.
  destruct c; unfold call.
  - apply flag_mkdirSync.
  - apply flag_rmdirSync.
  - apply flag_linkSync.
  - apply flag_unlinkSync.
  - apply flag_renameSync.
  - apply flag_symlinkSync.
  - apply flag_writeFileSync.
  - apply flag_mountSync.
  - apply flag_chdir.
  - apply flag_pushd.
  - apply flag_popd.
  - apply flag_time.
  - apply flag_shadow.
  - apply flag_makeReadonly.
  - apply (flag_of_sees _ _ (keeps_statSync fs p)).
  - apply (flag_of_sees _ _ (keeps_lstatSync fs p)).
  - apply (flag_of_sees _ _ (keeps_readdirSync fs p)).
  - apply (flag_of_sees _ _ (keeps_readlinkSync fs p)).
  - apply (flag_of_sees _ _ (keeps_realpathSync fs p)).
  - apply (flag_of_sees _ _ (keeps_readFileSync fs p e)).
Qed.

(** X12: once a file system is read-only it stays read-only: no
    sequence of calls of public methods, on this or on any other file
    system, whether they return or throw, makes it mutable again. *)
Theorem readonly_is_for_good l w fs :
  FileSystem.frozen (fs_at w fs) = true ->
  FileSystem.frozen (fs_at (calls l w) fs) = true.
Proof.
  revert w. induction l as [|[fs' c] l IH]; intros w H; [exact H|].
  cbn [calls]. apply IH. apply (flag_call fs' c w fs H).
Qed.

Lemma readonly_is_for_good_witness :
  FileSystem.frozen
    (fs_at (calls [(0%nat, CShadow None); (1%nat, CWrite "/a/b.txt" (DString "bye") None);
                   (0%nat, CTime (Some 5)); (0%nat, CMkdir "/q"); (1%nat, CMakeReadonly)]
                  frozenWorld) 0%nat) = true.
Proof. apply readonly_is_for_good. reflexivity. Defined.

(** ** [renameSync] *)




(** ** A shadow and the file system it shadows *)

Section shadow_frame.

Variables n0 A B : nat.



Lemma store_at_updInode a f w s : store_at (updInode a f w) s = store_at w s.
Proof. reflexivity. Qed.

Lemma store_at_updFS fs f w s : store_at (updFS fs f w) s = store_at w s.
Proof. reflexivity. Qed.

(** *** Single assignments *)








End shadow_frame.

(** *** Rules *)

Section shadow_hoare.

Variables n0 A B : nat.





Lemma hoare_weaken {T} (c : M T) (Q Q' : T -> Prop) :
  hoare n0 A B c Q -> (forall a, Q a -> Q' a) -> hoare n0 A B c Q'.
Proof.
  intros Hc HQ w O. destruct (Hc w O) as (K1 & O1 & H1).
  split; [exact K1|]. split; [exact O1|]. intros a Ha. apply HQ, H1, Ha.
Qed.






(** *** Name maps of younger inodes *)








End shadow_hoare.
(** ** What the methods of a shadow leave alone *)

Section shadow_ops.

Variables n0 A B : nat.





















(** *** The lazy copies *)








(** *** The walk *)








(** *** The methods that change a file system, called on [B] *)


















End shadow_ops.
(** ** What the shadowed file system shows *)

Section shadow_parent.

Variables n0 A B : nat.





(** *** A walk on [A] *)








(** *** Walking again *)



End shadow_parent.
(** ** Reading the shadowed file system before and after *)

Section shadow_observe.

Variables n0 A B : nat.





(** *** What follows the walk *)









End shadow_observe.

(** ** Changing a shadow and reading the shadowed file system *)




(** ** A shadow that was only read *)

Section shadow_mirror.

Variables n0 A B : nat.

Lemma mirrors_mono w w' mB mA :
  mirrors n0 w mB mA ->
  (List.length (inodes w) <= List.length (inodes w'))%nat ->
  (forall y, (y < List.length (inodes w))%nat ->
             Inode.shadowRoot (inode_at w' y) = Inode.shadowRoot (inode_at w y)) ->
  mirrors n0 w' mB mA.
Proof.
  intros H Hlen Hsr k. specialize (H k).
  destruct (SortedMap.get k mB) as [y|]; [|exact H].
  destruct H as (Hy & Hv & a & Ha & Hs).
  split; [exact Hy|]. split; [lia|]. exists a. split; [exact Ha|].
  rewrite Hsr by exact Hv. exact Hs.
Qed.



(** *** The assignments a read through [B] makes *)









End shadow_mirror.
(** ** The copies a shadow makes *)

Section shadow_copy.

Variables n0 A B : nat.



Lemma grows_mirrors w w' mB mA : grows w w' -> mirrors n0 w mB mA -> mirrors n0 w' mB mA.
Proof.
  intros (L & I & _) H. eapply mirrors_mono; [exact H|exact L|].
  intros y Hy. rewrite I by exact Hy. reflexivity.
Qed.









(** *** The name maps of [B] *)





Lemma stays_mirrors w w' mB mA : stays w w' -> mirrors n0 w mB mA -> mirrors n0 w' mB mA.
Proof. intros (L & I & _) H. eapply mirrors_mono; eassumption. Qed.






End shadow_copy.
(** ** A walk on the shadow and the same walk on what it shadows *)

Section shadow_sim.

Variables n0 A B : nat.









End shadow_sim.
(** ** Reading through a shadow *)








(** *** Reads keep a shadow as it was made *)

Section shadow_reads.

Variables n0 A B : nat.

















End shadow_reads.
(** ** Shadow non-aliasing *)



(** ** Names through a shadow *)


